(** * parse_ingest_metrics: a shallow embedding of scripts/parse_ingest_metrics.py

    The script scans a log file line by line, matches each line against a
    fixed regular expression, converts the captured timings to milliseconds,
    groups the records by (table, mode, op) and prints the per-group means.

    Text is modelled by [string]: a Python [str] whose code points lie in
    U+0000..U+00FF, one [ascii] per code point (the decoding of the bytes of
    the file is not part of the model).  Floats are IEEE 754 binary64 values,
    modelled by [spec_float] with the operations of [SpecFloat].  Exceptions
    are modelled by the [result] type, standard output by the list of the
    lines printed.

    [summarize] and [main] are the script on a standard output that encodes
    every character (UTF-8), with the dict yielding its items in the order
    of insertion; [summarize_on] and [main_on] are the script on any
    standard output and with any order of the items of the dict. *)

From Stdlib Require Import ZArith QArith Qabs Qpower Lia Lqa List Ascii String Bool.
From Stdlib Require Import DecimalString DecimalN DecimalPos.
From Stdlib Require Import Sorting.Sorted.
From Stdlib Require OrderedTypeEx.
From Stdlib Require Import Floats.SpecFloat.
From stdpp Require Import gmap strings.

Close Scope Q_scope.
Local Open Scope Z_scope.
#[local] Arguments String.append : simpl nomatch.
#[local] Set Warnings "-clear-no-such-hyp".

(** * The program *)

(** ** Exceptions *)

Inductive exn : Type :=
| ValueError
| OverflowError
| TypeError
| StatisticsError
| UnicodeEncodeError
| OSError.

Inductive result (A : Type) : Type :=
| Ok (a : A)
| Raise (e : exn).
Arguments Ok {A} a.
Arguments Raise {A} e.

#[global] Instance result_ret : MRet result := λ A a, Ok a.
#[global] Instance result_bind : MBind result := λ A B f m,
  match m with
  | Ok a => f a
  | Raise e => Raise e
  end.

(** ** Character classes of [re] on [str] patterns

    [\s] is [str.isspace]: in U+0000..U+00FF these are TAB..CR, FS..US,
    SPACE, NEL and NBSP.  [\d] is the decimal digits: in this range, 0-9. *)

Definition isspace (c : ascii) : bool :=
  let n := N_of_ascii c in
  ((9 <=? n) && (n <=? 13) || (28 <=? n) && (n <=? 32)
   || (n =? 133) || (n =? 160))%N.

Definition class_S (c : ascii) : bool := negb (isspace c).

Definition class_d (c : ascii) : bool :=
  let n := N_of_ascii c in ((48 <=? n) && (n <=? 57))%N.

(** ** Regular expressions: the fragment the script's pattern uses *)

Inductive regex : Type :=
| Lit (s : string)                   (* literal text *)
| ClassPlus (c : ascii → bool)       (* greedy [c+] for a character class *)
| Cat (r1 r2 : regex)                (* concatenation *)
| Alt (r1 r2 : regex)                (* [r1|r2], left alternative first *)
| Group (name : string) (r : regex). (* [(?P<name>r)] *)

(** [lit p s]: the rest of [s] after the literal prefix [p]. *)
Fixpoint lit (p s : string) : option string :=
  match p with
  | EmptyString => Some s
  | String a p' =>
      match s with
      | String b s' => if Ascii.eqb a b then lit p' s' else None
      | EmptyString => None
      end
  end.

Section Backtrack.
Context {A : Type}.

(** Greedy [c*]: take as many characters as possible, give back one at a
    time when the continuation fails.  The continuation receives the text
    consumed and the rest. *)
Fixpoint star_class (c : ascii → bool) (s : string)
    (k : string → string → option A) : option A :=
  match s with
  | String a s' =>
      if c a then
        match star_class c s' (fun m rest => k (String a m) rest) with
        | Some x => Some x
        | None => k EmptyString s
        end
      else k EmptyString s
  | EmptyString => k EmptyString s
  end.

(** The backtracking matcher, in continuation-passing style: [bt r s g k]
    matches [r] at the start of [s] with the groups [g] set so far and
    passes the text consumed, the rest and the groups to [k]; the first
    success in priority order wins. *)
Fixpoint bt (r : regex) (s : string) (g : gmap string string)
    (k : string → string → gmap string string → option A) : option A :=
  match r with
  | Lit p =>
      match lit p s with
      | Some rest => k p rest g
      | None => None
      end
  | ClassPlus c =>
      match s with
      | String a s' =>
          if c a then star_class c s' (fun m rest => k (String a m) rest g)
          else None
      | EmptyString => None
      end
  | Cat r1 r2 =>
      bt r1 s g (fun m1 s1 g1 =>
        bt r2 s1 g1 (fun m2 s2 g2 => k (m1 +:+ m2) s2 g2))
  | Alt r1 r2 =>
      match bt r1 s g k with
      | Some x => Some x
      | None => bt r2 s g k
      end
  | Group n r1 => bt r1 s g (fun m rest g' => k m rest (<[n := m]> g'))
  end.
End Backtrack.

(** [match_here r s]: the match of [r] starting at the first character of
    [s]: the matched text and the groups that took part. *)
Definition match_here (r : regex) (s : string)
    : option (string * gmap string string) :=
  bt r s ∅ (fun m _ g => Some (m, g)).

(** [re.search]: the match at the leftmost position that has one.  The result
    is the match's [groupdict()]: a group that did not take part (Python:
    value [None]) has no entry. *)
Fixpoint search (r : regex) (s : string) : option (gmap string string) :=
  match match_here r s with
  | Some (_, g) => Some g
  | None =>
      match s with
      | String _ s' => search r s'
      | EmptyString => None
      end
  end.

(** ** The script's pattern *)

(** [(?:(?:K_ms=(?P<G_ms>\d+))|(?:K_us=(?P<G_us>\d+)))] *)
Definition timing (k_ms g_ms k_us g_us : string) : regex :=
  Alt (Cat (Lit k_ms) (Group g_ms (ClassPlus class_d)))
      (Cat (Lit k_us) (Group g_us (ClassPlus class_d))).

Definition pattern : regex :=
  Cat (Lit "ingest_metrics table=") (Cat (Group "table" (ClassPlus class_S))
  (Cat (Lit " mode=") (Cat (Group "mode" (ClassPlus class_S))
  (Cat (Lit " op=") (Cat (Group "op" (ClassPlus class_S))
  (Cat (Lit " ") (Cat (timing "parse_ms=" "parse_ms" "parse_us=" "parse_us")
  (Cat (Lit " ") (Cat (timing "build_ms=" "build_ms" "build_us=" "build_us")
  (Cat (Lit " ") (Cat (timing "send_ms=" "send_ms" "send_us=" "send_us")
  (Cat (Lit " ") (Cat (timing "wait_lsn_ms=" "wait_ms" "wait_lsn_us=" "wait_us")
  (Cat (Lit " ") (timing "total_ms=" "total_ms" "total_us=" "total_us")
  )))))))))))))).

(** ** Numbers: [int], [float], [/] and [statistics.mean] *)

Abbreviation float := spec_float.
Definition prec : Z := 53.
Definition emax : Z := 1024.

(** The binary64 value nearest to the integer [n], ties to even; an infinity
    when [n] is out of range. *)
Definition float_of_Z (n : Z) : float := binary_normalize prec emax n 0 false.

(** The literals [1000.0] and [0.0]. *)
Definition float_1000 : float := float_of_Z 1000.
Definition float_0 : float := S754_zero false.

Definition digit_value (c : ascii) : Z := Z.of_N (N_of_ascii c) - 48.

Fixpoint digits_value (acc : Z) (s : string) : Z :=
  match s with
  | EmptyString => acc
  | String c s' => digits_value (10 * acc + digit_value c) s'
  end.

Fixpoint all_class (c : ascii → bool) (s : string) : bool :=
  match s with
  | EmptyString => true
  | String a s' => c a && all_class c s'
  end.

(** A non-empty string of decimal digits: the only literals [\d+] captures.
    (Python's [int] and [float] also accept a sign, blanks and underscores;
    on such text the model raises.) *)
Definition is_decimal (s : string) : bool :=
  match s with
  | EmptyString => false
  | String _ _ => all_class class_d s
  end.

(** [sys.get_int_max_str_digits()], CPython's default. *)
Definition int_max_str_digits : nat := 4300.

(** [int(s)] *)
Definition int_of_str (s : string) : result Z :=
  if is_decimal s then
    if (int_max_str_digits <? String.length s)%nat then Raise ValueError
    else Ok (digits_value 0 s)
  else Raise ValueError.

(** [float(s)]: correctly rounded, [inf] when out of range. *)
Definition float_of_str (s : string) : result float :=
  if is_decimal s then Ok (float_of_Z (digits_value 0 s))
  else Raise ValueError.

(** [n / y] for an [int] [n] and a non-zero [float] [y]: [n] is converted to
    [float] first, which raises when it is out of range. *)
Definition int_truediv_float (n : Z) (y : float) : result float :=
  match float_of_Z n with
  | S754_infinity _ => Raise OverflowError
  | x => Ok (SFdiv prec emax x y)
  end.

Definition is_finite (x : float) : bool :=
  match x with
  | S754_zero _ | S754_finite _ _ _ => true
  | _ => false
  end.

(** [exact_add (m, e) x]: the sum of [m * 2^e] and the finite [x], exactly. *)
Definition exact_add (acc : Z * Z) (x : float) : Z * Z :=
  match x with
  | S754_finite s mx ex =>
      let '(m, e) := acc in
      let e' := Z.min e ex in
      (m * 2 ^ (e - e') + cond_Zopp s (Zpos mx) * 2 ^ (ex - e'), e')
  | _ => acc
  end.

Definition exact_sum (xs : list float) : Z * Z := fold_left exact_add xs (0, 0).

(** [m * 2^e / n] rounded to the nearest float. *)
Definition float_of_ratio (m e : Z) (n : positive) : float :=
  match m with
  | Z0 => float_0
  | Zpos p => SFdiv prec emax (S754_finite false p e) (S754_finite false n 0)
  | Zneg p => SFdiv prec emax (S754_finite true p e) (S754_finite false n 0)
  end.

(** [statistics.mean] on floats: the exact sum of the data divided by their
    number, rounded once; a non-finite datum makes the result non-finite;
    no data raises [StatisticsError]. *)
Definition mean (xs : list float) : result float :=
  match xs with
  | [] => Raise StatisticsError
  | x0 :: _ =>
      match List.filter (fun x => negb (is_finite x)) xs with
      | [] =>
          let '(m, e) := exact_sum xs in
          Ok (float_of_ratio m e (Pos.of_nat (List.length xs)))
      | y :: ys => Ok (fold_left (SFadd prec emax) ys y)
      end
  end.

(** ** Formatting: [str(int)] and [format(x, '.1f')] *)

Definition str_of_N (n : N) : string := NilZero.string_of_uint (N.to_uint n).

(** The integer nearest to [p / q], ties to even ([q] positive). *)
Definition round_half_even (p q : Z) : Z :=
  let d := p / q in
  let r := p mod q in
  match 2 * r ?= q with
  | Lt => d
  | Gt => d + 1
  | Eq => if Z.even d then d else d + 1
  end.

(** The number of tenths printed for [m * 2^e]. *)
Definition tenths (m : positive) (e : Z) : Z :=
  match e with
  | Zneg k => round_half_even (10 * Zpos m) (2 ^ Zpos k)
  | _ => 10 * Zpos m * 2 ^ e
  end.

Definition sign_str (s : bool) : string := if s then "-" else "".

Definition format_1f (x : float) : string :=
  match x with
  | S754_zero s => sign_str s +:+ "0.0"
  | S754_infinity s => sign_str s +:+ "inf"
  | S754_nan => "nan"
  | S754_finite s m e =>
      let t := tenths m e in
      sign_str s +:+ str_of_N (Z.to_N (t / 10)) +:+ "."
        +:+ str_of_N (Z.to_N (t mod 10))
  end.

(** ** parse_file *)

(** One parsed line: the dict the script appends to [rows]. *)
Record row : Type := Row {
  table : string;
  mode : string;
  op : string;
  parse : float;
  build : float;
  send : float;
  wait : float;
  total : float
}.

(** [pick_ms]: prefer microseconds if present, converted to milliseconds.
    [d.get(k)] is true for a captured, non-empty text. *)
Definition pick_ms (d : gmap string string) (ms_key us_key : string)
    : result float :=
  match d !! us_key with
  | Some (String _ _ as us) => n ← int_of_str us; int_truediv_float n float_1000
  | _ =>
      match d !! ms_key with
      | Some (String _ _ as ms) => float_of_str ms
      | _ => Ok float_0
      end
  end.

(** [d['table']], [d['mode']], [d['op']]: the three groups take part in every
    match of [pattern] (lemma [make_row_schema]), so the subscript is a
    [str]; the model raises on the value [None], which does not arise. *)
Definition subscript (d : gmap string string) (k : string) : result string :=
  match d !! k with
  | Some v => Ok v
  | None => Raise TypeError
  end.

(** The dict built from a match, fields evaluated in the order written. *)
Definition make_row (d : gmap string string) : result row :=
  t ← subscript d "table";
  m ← subscript d "mode";
  o ← subscript d "op";
  p ← pick_ms d "parse_ms" "parse_us";
  b ← pick_ms d "build_ms" "build_us";
  s ← pick_ms d "send_ms" "send_us";
  w ← pick_ms d "wait_ms" "wait_us";
  tt ← pick_ms d "total_ms" "total_us";
  Ok (Row t m o p b s w tt).

(** The loop over the lines of the file, [rows] being the list built so far. *)
Fixpoint parse_lines (lines : list string) (rows : list row)
    : result (list row) :=
  match lines with
  | [] => Ok rows
  | line :: rest =>
      match search pattern line with
      | None => parse_lines rest rows
      | Some d => r ← make_row d; parse_lines rest (rows ++ [r])
      end
  end.

(** Iterating over a text file opened with universal newlines: the text is
    cut after each line end, and the line ends CR LF and CR read as LF. *)
Fixpoint readlines (text : string) : list string :=
  match text with
  | EmptyString => []
  | String c text' =>
      if Ascii.eqb c "010" then String "010" EmptyString :: readlines text'
      else if Ascii.eqb c "013" then
        match text' with
        | String c' text'' =>
            if Ascii.eqb c' "010"
            then String "010" EmptyString :: readlines text''
            else String "010" EmptyString :: readlines text'
        | EmptyString => [String "010" EmptyString]
        end
      else
        match readlines text' with
        | [] => [String c EmptyString]
        | l :: ls => String c l :: ls
        end
  end.

(** The file system: the decoded text of the file at a path, if it can be
    opened for reading. *)
Definition filesystem : Type := string → option string.

Definition parse_file (fs : filesystem) (path : string) : result (list row) :=
  match fs path with
  | None => Raise OSError
  | Some text => parse_lines (readlines text) []
  end.

(** ** summarize *)

Definition group_key : Type := string * string * string.

Definition key_of (r : row) : group_key := (table r, mode r, op r).

Definition key_eqb (a b : group_key) : bool :=
  let '(a1, a2, a3) := a in
  let '(b1, b2, b3) := b in
  String.eqb a1 b1 && String.eqb a2 b2 && String.eqb a3 b3.

(** [<] on tuples of three [str]: the first differing component decides;
    strings compare by code point. *)
Definition key_ltb (a b : group_key) : bool :=
  let '(a1, a2, a3) := a in
  let '(b1, b2, b3) := b in
  match String.compare a1 b1 with
  | Lt => true
  | Gt => false
  | Eq =>
      match String.compare a2 b2 with
      | Lt => true
      | Gt => false
      | Eq => String.ltb a3 b3
      end
  end.

(** [by_key.setdefault(key, []).append(r)] on a dict in insertion order. *)
Fixpoint setdefault_append (key : group_key) (r : row)
    (by_key : list (group_key * list row)) : list (group_key * list row) :=
  match by_key with
  | [] => [(key, [r])]
  | (k, items) :: rest =>
      if key_eqb k key then (k, items ++ [r]) :: rest
      else (k, items) :: setdefault_append key r rest
  end.

Definition group_rows (rows : list row) : list (group_key * list row) :=
  fold_left (fun by_key r => setdefault_append (key_of r) r by_key) rows [].

(** [sorted] on the items of a dict: the keys differ pairwise, so [<] on two
    items is [<] on their keys.  A stable insertion sort. *)
Fixpoint insert_item (x : group_key * list row)
    (l : list (group_key * list row)) : list (group_key * list row) :=
  match l with
  | [] => [x]
  | y :: l' =>
      if key_ltb (fst x) (fst y) then x :: l else y :: insert_item x l'
  end.

Definition sorted (l : list (group_key * list row))
    : list (group_key * list row) :=
  fold_left (fun acc x => insert_item x acc) l [].

Definition tab : string := String "009" EmptyString.

Definition header : string :=
  "table" +:+ tab +:+ "mode" +:+ tab +:+ "op" +:+ tab +:+ "count" +:+ tab
  +:+ "parse_ms" +:+ tab +:+ "build_ms" +:+ tab +:+ "send_ms" +:+ tab
  +:+ "wait_lsn_ms" +:+ tab +:+ "total_ms".

(** The body of the loop over the sorted items: the line printed. *)
Definition format_item (key : group_key) (items : list row) : result string :=
  let c := List.length items in
  avg_parse ← mean (map parse items);
  avg_build ← mean (map build items);
  avg_send ← mean (map send items);
  avg_wait ← mean (map wait items);
  avg_total ← mean (map total items);
  Ok (key.1.1 +:+ tab +:+ key.1.2 +:+ tab +:+ key.2 +:+ tab
      +:+ str_of_N (N.of_nat c) +:+ tab
      +:+ format_1f avg_parse +:+ tab +:+ format_1f avg_build +:+ tab
      +:+ format_1f avg_send +:+ tab +:+ format_1f avg_wait +:+ tab
      +:+ format_1f avg_total).

(** Standard output is the list of the lines printed so far.  Here every
    line is encoded; [print_items_on] below has the failure of [print]. *)
Fixpoint print_items (items : list (group_key * list row)) (out : list string)
    : list string * result unit :=
  match items with
  | [] => (out, Ok ())
  | (key, its) :: rest =>
      match format_item key its with
      | Ok line => print_items rest (out ++ [line])
      | Raise e => (out, Raise e)
      end
  end.

Definition summarize (rows : list row) : list string * result unit :=
  match rows with
  | [] => (["No ingest_metrics lines found"], Ok ())
  | _ :: _ =>
      let by_key := group_rows rows in
      print_items (sorted by_key)
        ["Averages by (table, mode, op):"; header]
  end.

(** ** The script run as a program *)

(** How the process ends: [sys.exit(code)], or an exception nobody caught. *)
Inductive status : Type :=
| Exit (code : Z)
| Uncaught (e : exn).

Definition exit_code (st : status) : Z :=
  match st with
  | Exit c => c
  | Uncaught _ => 1
  end.

(** The script run with [sys.argv = argv]: what it prints and how it ends. *)
Definition main (argv : list string) (fs : filesystem)
    : list string * status :=
  match argv with
  | _ :: path :: _ =>
      match parse_file fs path with
      | Raise e => ([], Uncaught e)
      | Ok rows =>
          match summarize rows with
          | (out, Ok _) => (out, Exit 0)
          | (out, Raise e) => (out, Uncaught e)
          end
      end
  | _ => (["Usage: parse_ingest_metrics.py <log_file>"], Exit 1)
  end.

(** ** The run in its environment

    Two things the script leaves to its environment.  [print] encodes its
    line for standard output and raises [UnicodeEncodeError], with nothing
    of the line written, when a character of the line has no encoding
    there: [enc] tells the characters standard output encodes.  And
    [by_key.items()] yields the items of the dict in an order that is the
    dict's own: [ord] arranges them.  [summarize] and [main] above are the
    run with every character encoded and the items in the order of
    insertion. *)

Definition print_on (enc : ascii → bool) (out : list string) (s : string)
    : list string * result unit :=
  if all_class enc s then (out ++ [s], Ok ())
  else (out, Raise UnicodeEncodeError).

Fixpoint print_items_on (enc : ascii → bool)
    (items : list (group_key * list row)) (out : list string)
    : list string * result unit :=
  match items with
  | [] => (out, Ok ())
  | (key, its) :: rest =>
      match format_item key its with
      | Ok line =>
          match print_on enc out line with
          | (out', Ok _) => print_items_on enc rest out'
          | (out', Raise e) => (out', Raise e)
          end
      | Raise e => (out, Raise e)
      end
  end.

Definition summarize_on (enc : ascii → bool)
    (ord : list (group_key * list row) → list (group_key * list row))
    (rows : list row) : list string * result unit :=
  match rows with
  | [] => print_on enc [] "No ingest_metrics lines found"
  | _ :: _ =>
      let by_key := group_rows rows in
      match print_on enc [] "Averages by (table, mode, op):" with
      | (out, Ok _) =>
          match print_on enc out header with
          | (out', Ok _) => print_items_on enc (sorted (ord by_key)) out'
          | (out', Raise e) => (out', Raise e)
          end
      | (out, Raise e) => (out, Raise e)
      end
  end.

Definition main_on (enc : ascii → bool)
    (ord : list (group_key * list row) → list (group_key * list row))
    (argv : list string) (fs : filesystem) : list string * status :=
  match argv with
  | _ :: path :: _ =>
      match parse_file fs path with
      | Raise e => ([], Uncaught e)
      | Ok rows =>
          match summarize_on enc ord rows with
          | (out, Ok _) => (out, Exit 0)
          | (out, Raise e) => (out, Uncaught e)
          end
      end
  | _ =>
      match print_on enc [] "Usage: parse_ingest_metrics.py <log_file>" with
      | (out, Ok _) => (out, Exit 1)
      | (out, Raise e) => (out, Uncaught e)
      end
  end.

(** * The vocabulary of the properties *)

(** ** A declarative reading of the pattern

    [matches r g m g']: the text [m] is a match of [r] that turns the groups
    [g] into [g']. *)

Inductive matches : regex → gmap string string → string →
    gmap string string → Prop :=
| matches_lit p g : matches (Lit p) g p g
| matches_plus c a m g :
    c a = true → all_class c m = true →
    matches (ClassPlus c) g (String a m) g
| matches_cat r1 r2 g g1 g2 m1 m2 :
    matches r1 g m1 g1 → matches r2 g1 m2 g2 →
    matches (Cat r1 r2) g (m1 +:+ m2) g2
| matches_alt_l r1 r2 g g' m : matches r1 g m g' → matches (Alt r1 r2) g m g'
| matches_alt_r r1 r2 g g' m : matches r2 g m g' → matches (Alt r1 r2) g m g'
| matches_group n r g g' m :
    matches r g m g' → matches (Group n r) g m (<[n := m]> g').

(** A match of [pattern] is the marker, three tokens and five timing fields,
    each field in one of its two unit variants.  A timing field as captured:
    [true] for the microsecond variant, and the digits. *)
Definition capture : Type := bool * string.

Definition is_token (s : string) : bool :=
  match s with
  | EmptyString => false
  | String _ _ => all_class class_S s
  end.

Definition field_text (k_ms k_us : string) (c : capture) : string :=
  (if c.1 then k_us else k_ms) +:+ c.2.

Definition field_group (g_ms g_us : string) (c : capture) : string :=
  if c.1 then g_us else g_ms.

Definition schema_text (t mo o : string) (p b s w tt : capture) : string :=
  "ingest_metrics table=" +:+ t +:+ " mode=" +:+ mo +:+ " op=" +:+ o
  +:+ " " +:+ field_text "parse_ms=" "parse_us=" p
  +:+ " " +:+ field_text "build_ms=" "build_us=" b
  +:+ " " +:+ field_text "send_ms=" "send_us=" s
  +:+ " " +:+ field_text "wait_lsn_ms=" "wait_lsn_us=" w
  +:+ " " +:+ field_text "total_ms=" "total_us=" tt.

Definition schema_groups (t mo o : string) (p b s w tt : capture)
    : gmap string string :=
  <[field_group "total_ms" "total_us" tt := tt.2]>
  (<[field_group "wait_ms" "wait_us" w := w.2]>
  (<[field_group "send_ms" "send_us" s := s.2]>
  (<[field_group "build_ms" "build_us" b := b.2]>
  (<[field_group "parse_ms" "parse_us" p := p.2]>
  (<["op" := o]> (<["mode" := mo]> (<["table" := t]> ∅))))))).

(** The texts the schema accepts, and what is captured from them. *)
Inductive schema_match : string → gmap string string → Prop :=
| SchemaMatch t mo o (p b s w tt : capture) :
    is_token t = true → is_token mo = true → is_token o = true →
    is_decimal p.2 = true → is_decimal b.2 = true → is_decimal s.2 = true →
    is_decimal w.2 = true → is_decimal tt.2 = true →
    schema_match (schema_text t mo o p b s w tt)
                 (schema_groups t mo o p b s w tt).

(** A line holds a full record when some part of it is a text of the schema. *)
Definition holds_record (line : string) : Prop :=
  ∃ pre post t mo o (p b s w tt : capture),
    is_token t = true ∧ is_token mo = true ∧ is_token o = true ∧
    is_decimal p.2 = true ∧ is_decimal b.2 = true ∧ is_decimal s.2 = true ∧
    is_decimal w.2 = true ∧ is_decimal tt.2 = true ∧
    line = pre +:+ schema_text t mo o p b s w tt +:+ post.

(** ** Rows *)

(** The conversion of a captured field to milliseconds. *)
Definition convert (c : capture) : result float :=
  if c.1 then n ← int_of_str c.2; int_truediv_float n float_1000
  else float_of_str c.2.

(** What a matching line and its row have in common: the line contains a
    text of the schema, the groups are the captures, and each field of the
    row is the conversion of its capture. *)
Inductive row_of_line (line : string) (d : gmap string string) (r : row)
    : Prop :=
| RowOfLine pre post t mo o (p b s w tt : capture) :
    line = pre +:+ schema_text t mo o p b s w tt +:+ post →
    d = schema_groups t mo o p b s w tt →
    is_token t = true → is_token mo = true → is_token o = true →
    is_decimal p.2 = true → is_decimal b.2 = true → is_decimal s.2 = true →
    is_decimal w.2 = true → is_decimal tt.2 = true →
    table r = t → mode r = mo → op r = o →
    convert p = Ok (parse r) → convert b = Ok (build r) →
    convert s = Ok (send r) → convert w = Ok (wait r) →
    convert tt = Ok (total r) →
    row_of_line line d r.

(** The rows of a run, line by line. *)
Inductive parsed : list string → list row → Prop :=
| parsed_nil : parsed [] []
| parsed_skip line lines rows :
    search pattern line = None → parsed lines rows →
    parsed (line :: lines) rows
| parsed_row line lines d r rows :
    search pattern line = Some d → make_row d = Ok r → parsed lines rows →
    parsed (line :: lines) (r :: rows).

(** Whether a result is a value. *)
Definition is_Ok {A} (m : result A) : bool :=
  match m with
  | Ok _ => true
  | Raise _ => false
  end.

(** A captured microsecond text that [int] and [/] accept. *)
Definition us_value_ok (v : string) : bool :=
  (String.length v <=? int_max_str_digits)%nat &&
  match float_of_Z (digits_value 0 v) with
  | S754_infinity _ => false
  | _ => true
  end.

Definition us_ok (d : gmap string string) (k : string) : bool :=
  match d !! k with
  | Some v => us_value_ok v
  | None => true
  end.

(** A line the loop gets past: no match, or a match whose microsecond
    values all convert. *)
Definition line_ok (line : string) : bool :=
  match search pattern line with
  | None => true
  | Some d =>
      us_ok d "parse_us" && us_ok d "build_us" && us_ok d "send_us"
      && us_ok d "wait_us" && us_ok d "total_us"
  end.

(** ** Keys and groups *)

(** [<] on keys as a proposition, and the lexicographic order on triples of
    strings it is meant to be, strings compared character by character by
    code point. *)
Definition key_lt (a b : group_key) : Prop := key_ltb a b = true.

Definition str_lt (a b : string) : Prop := String.compare a b = Lt.

Definition lex_lt (a b : group_key) : Prop :=
  str_lt a.1.1 b.1.1 ∨
  (a.1.1 = b.1.1 ∧
   (str_lt a.1.2 b.1.2 ∨ (a.1.2 = b.1.2 ∧ str_lt a.2 b.2))).

(** The records of a key, in input order. *)
Definition members (k : group_key) (rows : list row) : list row :=
  List.filter (fun r => key_eqb (key_of r) k) rows.

(** The list stored under a key, the empty list when the key is absent. *)
Fixpoint lookup_key (k : group_key) (by_key : list (group_key * list row))
    : list row :=
  match by_key with
  | [] => []
  | (k', items) :: rest => if key_eqb k' k then items else lookup_key k rest
  end.

(** The invariant of the grouping loop after the rows [done]. *)
Definition grouped (by_key : list (group_key * list row)) (done : list row)
    : Prop :=
  NoDup (map fst by_key) ∧
  (∀ k, In k (map fst by_key) ↔ ∃ r, In r done ∧ key_of r = k) ∧
  (∀ k, lookup_key k by_key = members k done).

(** The groups in the order they are printed. *)
Definition report_items (rows : list row) : list (group_key * list row) :=
  sorted (group_rows rows).

(** ** Printed lines and printed numbers *)

(** [s.split(sep)] for a one-character separator. *)
Fixpoint split_on (sep : ascii) (s : string) : list string :=
  match s with
  | EmptyString => [EmptyString]
  | String c s' =>
      if Ascii.eqb c sep then EmptyString :: split_on sep s'
      else
        match split_on sep s' with
        | [] => [String c EmptyString]
        | f :: fs => String c f :: fs
        end
  end.

(** The three fields a key is printed as. *)
Definition key_fields (k : group_key) : list string := [k.1.1; k.1.2; k.2].

(** The line printed for a group, read field by field. *)
Definition group_line (item : group_key * list row) (line : string) : Prop :=
  ∃ avgs : list float,
    Forall2 (fun (f : row → float) avg => mean (map f item.2) = Ok avg)
      [parse; build; send; wait; total] avgs ∧
    split_on "009" line =
      key_fields item.1 ++ str_of_N (N.of_nat (length item.2))
        :: map format_1f avgs.

Definition tab_free (s : string) : bool :=
  all_class (fun c => negb (Ascii.eqb c "009")) s.

(** Digits, a point and one digit, after an optional minus sign. *)
Fixpoint digits_point_digit (s : string) : bool :=
  match s with
  | EmptyString => false
  | String c s' =>
      if class_d c then digits_point_digit s'
      else
        Ascii.eqb c "." &&
        match s' with
        | String d EmptyString => class_d d
        | _ => false
        end
  end.

Definition is_one_decimal (s : string) : bool :=
  let body :=
    match s with
    | String c s' => if Ascii.eqb c "-" then s' else s
    | EmptyString => s
    end in
  match body with
  | String d _ => class_d d && digits_point_digit body
  | EmptyString => false
  end.

(** The rational value of a finite float. *)
Definition float_Q (x : float) : Q :=
  match x with
  | S754_finite s m e =>
      ((if s then -1 else 1) * (inject_Z (Zpos m) * 2 ^ e))%Q
  | _ => 0%Q
  end.

(** The number whose decimal text [format_1f] prints for a finite float. *)
Definition printed_Q (x : float) : Q :=
  match x with
  | S754_finite s m e => ((if s then -1 else 1) * (tenths m e # 10))%Q
  | _ => 0%Q
  end.

(** The value of a pair mantissa, exponent, and the exact sum of the values
    of a list of floats. *)
Definition pair_Q (me : Z * Z) : Q := (inject_Z me.1 * 2 ^ me.2)%Q.

Fixpoint sum_Q (xs : list float) : Q :=
  match xs with
  | [] => 0%Q
  | x :: xs' => (float_Q x + sum_Q xs')%Q
  end.

(** The integer a text of decimal digits denotes, as the standard library
    reads it. *)
Definition decimal_value (s : string) : option Z :=
  match NilEmpty.uint_of_string s with
  | Some d => Some (Z.of_uint d)
  | None => None
  end.

(** The number a text of the form [-]digits.digit stands for. *)
Definition decimal_Q (s : string) : option Q :=
  let '(sgn, body) :=
    match s with
    | String c s' => if Ascii.eqb c "-" then ((-1)%Z, s') else (1, s)
    | EmptyString => (1, s)
    end in
  match split_on "." body with
  | [ip; String d EmptyString] =>
      match decimal_value ip, decimal_value (String d EmptyString) with
      | Some i, Some f => Some (Qmake (sgn * (10 * i + f)) 10)
      | _, _ => None
      end
  | _ => None
  end.

(** ** Further vocabulary: the match in the line, failures, signs, lines *)

(** Whether a text starts with a character of the class. *)
Definition starts_with (c : ascii → bool) (s : string) : bool :=
  match s with
  | String a _ => c a
  | EmptyString => false
  end.

(** A regular expression each of whose matches ends with a greedy [c+]:
    what follows such a match, when every continuation is accepted, starts
    with no character of [c]. *)
Inductive tail_class (c : ascii → bool) : regex → Prop :=
| tail_plus : tail_class c (ClassPlus c)
| tail_cat r1 r2 : tail_class c r2 → tail_class c (Cat r1 r2)
| tail_alt r1 r2 : tail_class c r1 → tail_class c r2 → tail_class c (Alt r1 r2)
| tail_group n r : tail_class c r → tail_class c (Group n r).

(** One category of the groups of a match: exactly one of its two groups took
    part, and what it captured is a non-empty text of digits. *)
Definition one_unit (d : gmap string string) (ms_key us_key : string) : Prop :=
  ∃ v, is_decimal v = true ∧
    ((d !! us_key = Some v ∧ d !! ms_key = None) ∨
     (d !! ms_key = Some v ∧ d !! us_key = None)).

Definition us_keys : list string :=
  ["parse_us"; "build_us"; "send_us"; "wait_us"; "total_us"].

(** Why the conversion of a captured microsecond text [v] raises [e]: [int]
    refuses a text of more than 4300 digits, and [/] an integer whose
    nearest float is the infinity. *)
Definition us_failure (v : string) (e : exn) : Prop :=
  (e = ValueError ∧ (int_max_str_digits < String.length v)%nat) ∨
  (e = OverflowError ∧ (String.length v ≤ int_max_str_digits)%nat ∧
   float_of_Z (digits_value 0 v) = S754_infinity false).

(** Whether the pattern is found in a line. *)
Definition has_match (line : string) : bool :=
  match search pattern line with
  | Some _ => true
  | None => false
  end.

(** The count printed on a group line, read back: its fourth field. *)
Definition printed_count (line : string) : nat :=
  Z.to_nat (digits_value 0 (nth 3 (split_on "009" line) "")).

(** A float that is no NaN and has no sign: [0.0], a positive finite number
    or [inf]. *)
Definition nonneg (x : float) : bool :=
  match x with
  | S754_zero s | S754_infinity s | S754_finite s _ _ => negb s
  | S754_nan => false
  end.

(** The five timing fields of a row. *)
Definition timings : list (row → float) := [parse; build; send; wait; total].

(** A printed mean with no sign: [inf], or digits, a point and one digit. *)
Definition unsigned_field (s : string) : Prop :=
  s = "inf" ∨ (is_one_decimal s = true ∧ starts_with class_d s = true).

(** The characters that end a line of a text file: LF and CR. *)
Definition eol (c : ascii) : bool := Ascii.eqb c "010" || Ascii.eqb c "013".

(** The text [m] occurs in [s]. *)
Definition occurs (m s : string) : Prop := ∃ pre post, s = pre +:+ m +:+ post.

(** ** Numbers: what a float is worth *)

(** The largest finite float, and the least number that rounds to the
    infinity: half a unit in the last place above it. *)
Definition max_float : Q := inject_Z ((2 ^ 53 - 1) * 2 ^ 971).

Definition overflow_threshold : Q := inject_Z (2 ^ 1024 - 2 ^ 970).

(** [x] is a finite float without sign, within the relative distance [eps]
    of the number [q]. *)
Definition float_near (eps q : Q) (x : float) : Prop :=
  is_finite x = true ∧ nonneg x = true ∧ (Qabs (float_Q x - q) <= eps * q)%Q.

(** The rule of the specification for one category, in numbers.  [us] and
    [ms] are what the microsecond and the millisecond group captured, [x]
    is the field of the record.  With a microsecond capture [x] is the
    number captured divided by 1000, up to the two roundings of the
    conversion to a float and of the division; else with a millisecond
    capture [x] is the number captured, rounded once to a float, hence the
    number itself below 2^53, and the infinity from the least number that
    rounds to it; else [x] is 0.0. *)
Definition normalized (us ms : option string) (x : float) : Prop :=
  match us, ms with
  | Some u, _ =>
      ∃ n, decimal_value u = Some n ∧ float_near (2 ^ (-51)) (n # 1000) x
  | None, Some m =>
      ∃ n, decimal_value m = Some n ∧
        ((float_near (2 ^ (-53)) (inject_Z n) x ∧
          (n < 2 ^ 53 → (float_Q x == inject_Z n)%Q)) ∨
         (x = S754_infinity false ∧ 2 ^ 1024 - 2 ^ 970 ≤ n))
  | None, None => x = float_0
  end.

(** A float without sign that, when finite, is in the range of binary64. *)
Definition in_range (x : float) : Prop :=
  nonneg x = true ∧ (is_finite x = true → (float_Q x <= max_float)%Q).

(** The arithmetic mean of the values of finite floats: their sum divided by
    their number, in the rationals. *)
Definition mean_Q (xs : list float) : Q :=
  (sum_Q xs / inject_Z (Z.of_nat (length xs)))%Q.

(** Where the quotient [N / D] lies with respect to the integer [m]: on it,
    or between [m] and [m + 1], below, on or above the middle. *)
Definition inbetween (m : Z) (l : location) (N D : Z) : Prop :=
  match l with
  | loc_Exact => N = m * D
  | loc_Inexact Lt => m * D < N ∧ 2 * N < (2 * m + 1) * D
  | loc_Inexact Eq => 2 * N = (2 * m + 1) * D
  | loc_Inexact Gt => (2 * m + 1) * D < 2 * N ∧ N < (m + 1) * D
  end.

(** The float that rounding yields for the mantissa [m1] at the exponent
    [E], the exponent being the one of the format for the number rounded:
    zero, the mantissa as it is, the next binade when the mantissa reached
    2^53, or the infinity beyond the largest exponent. *)
Definition rounded (m1 E : Z) (r : float) : Prop :=
  (m1 = 0 ∧ r = S754_zero false) ∨
  (0 < m1 < 2 ^ 53 ∧ E ≤ 971 ∧ r = S754_finite false (Z.to_pos m1) E) ∨
  (m1 = 2 ^ 53 ∧ E < 971 ∧
   r = S754_finite false 4503599627370496 (E + 1)) ∨
  (2 ^ 52 ≤ m1 ∧ (971 < E ∨ (m1 = 2 ^ 53 ∧ E = 971)) ∧
   r = S754_infinity false).

(** ** The environment of a run *)

(** An order in which a dict may yield its items: any arrangement of
    them. *)
Definition dict_order
    (ord : list (group_key * list row) → list (group_key * list row)) : Prop :=
  ∀ by_key, ord by_key ≡ₚ by_key.

(** A line each of whose characters standard output encodes. *)
Definition encodable (enc : ascii → bool) (line : string) : Prop :=
  all_class enc line = true.

(** What is written of the lines a run would print when every character
    were encoded: the lines before the first that standard output cannot
    encode, and whether all of them are written. *)
Fixpoint written (enc : ascii → bool) (lines : list string)
    : list string * bool :=
  match lines with
  | [] => ([], true)
  | line :: rest =>
      if all_class enc line
      then let '(w, ok) := written enc rest in (line :: w, ok)
      else ([], false)
  end.

(** Two encodings of standard output: UTF-8 encodes every character, ASCII
    the characters below U+0080. *)
Definition utf_8 (c : ascii) : bool := true.

Definition us_ascii (c : ascii) : bool := (N_of_ascii c <? 128)%N.

(** ** Inputs used as examples *)

Definition nl : string := String "010" EmptyString.

(** A line with mixed units, and its row. *)
Definition mixed_line : string :=
  "ingest_metrics table=orders mode=batch op=insert parse_ms=10 build_us=5000 send_ms=2 wait_lsn_us=1000 total_ms=13" +:+ nl.

Definition mixed_row : row :=
  Row "orders" "batch" "insert" (float_of_Z 10) (float_of_Z 5) (float_of_Z 2)
    (float_of_Z 1) (float_of_Z 13).

(** A line without its last field, and one with a value that is no integer. *)
Definition short_line : string :=
  "ingest_metrics table=orders mode=batch op=insert parse_ms=10 build_ms=5 send_ms=2 wait_lsn_ms=1" +:+ nl.

Definition bad_value_line : string :=
  "ingest_metrics table=orders mode=batch op=insert parse_ms=10 build_ms=5 send_ms=x wait_lsn_ms=1 total_ms=18" +:+ nl.

(** A line that holds two complete records, and the row of the first. *)
Definition two_records_line : string :=
  "ingest_metrics table=a mode=x op=y parse_ms=1 build_ms=2 send_ms=3 wait_lsn_ms=4 total_ms=10 ingest_metrics table=b mode=x op=y parse_ms=5 build_ms=6 send_ms=7 wait_lsn_ms=8 total_ms=26" +:+ nl.

Definition first_record : row :=
  Row "a" "x" "y" (float_of_Z 1) (float_of_Z 2) (float_of_Z 3) (float_of_Z 4)
    (float_of_Z 10).

(** Rows of two groups, and lines they are parsed from. *)
Definition row_a : row :=
  Row "a" "x" "y" (float_of_Z 1) (float_of_Z 1) (float_of_Z 1) (float_of_Z 1)
    (float_of_Z 10).
Definition row_a' : row :=
  Row "a" "x" "y" (float_of_Z 1) (float_of_Z 1) (float_of_Z 1) (float_of_Z 1)
    (float_of_Z 20).
Definition row_b : row :=
  Row "b" "x" "y" (float_of_Z 2) (float_of_Z 2) (float_of_Z 2) (float_of_Z 2)
    (float_of_Z 8).
Definition line_a : string :=
  "ingest_metrics table=a mode=x op=y parse_ms=1 build_ms=1 send_ms=1 wait_lsn_ms=1 total_ms=10" +:+ nl.
Definition line_a' : string :=
  "ingest_metrics table=a mode=x op=y parse_ms=1 build_ms=1 send_ms=1 wait_lsn_ms=1 total_ms=20" +:+ nl.
Definition line_b : string :=
  "ingest_metrics table=b mode=x op=y parse_ms=2 build_ms=2 send_ms=2 wait_lsn_ms=2 total_ms=8" +:+ nl.

(** A file system with one readable file. *)
Definition one_file (name text : string) : filesystem :=
  fun path => if String.eqb path name then Some text else None.

(** A line whose microsecond value, 2 * 10^308, is beyond the floats. *)
Definition huge_us_line : string :=
  "ingest_metrics table=t mode=m op=o parse_us=200000000000000000000000000000000000000000000000000000000000000000000000000000000000000000000000000000000000000000000000000000000000000000000000000000000000000000000000000000000000000000000000000000000000000000000000000000000000000000000000000000000000000000000000000000000000000000000000000000000000000000000 build_ms=1 send_ms=1 wait_lsn_ms=1 total_ms=1" +:+ nl.

(** A line whose millisecond total is the same number. *)
Definition huge_ms_line : string :=
  "ingest_metrics table=t mode=m op=o parse_ms=1 build_ms=1 send_ms=1 wait_lsn_ms=1 total_ms=200000000000000000000000000000000000000000000000000000000000000000000000000000000000000000000000000000000000000000000000000000000000000000000000000000000000000000000000000000000000000000000000000000000000000000000000000000000000000000000000000000000000000000000000000000000000000000000000000000000000000000000" +:+ nl.

(** A line whose table has a character that is not in ASCII, and its row. *)
Definition accent_line : string :=
  "ingest_metrics table=caf" +:+ String "233" "" +:+ " mode=batch op=insert parse_ms=1 build_ms=1 send_ms=1 wait_lsn_ms=1 total_ms=1" +:+ nl.

Definition accent_row : row :=
  Row ("caf" +:+ String "233" "") "batch" "insert" (float_of_Z 1)
    (float_of_Z 1) (float_of_Z 1) (float_of_Z 1) (float_of_Z 1).




(** Two lines of one key whose totals are 2^53 and 2^53 + 2, and their
    rows. *)
Definition big_line : string :=
  "ingest_metrics table=t mode=m op=o parse_ms=1 build_ms=1 send_ms=1 wait_lsn_ms=1 total_ms=9007199254740992" +:+ nl.

Definition big_line' : string :=
  "ingest_metrics table=t mode=m op=o parse_ms=1 build_ms=1 send_ms=1 wait_lsn_ms=1 total_ms=9007199254740994" +:+ nl.

Definition big_row : row :=
  Row "t" "m" "o" (float_of_Z 1) (float_of_Z 1) (float_of_Z 1) (float_of_Z 1)
    (float_of_Z 9007199254740992).

Definition big_row' : row :=
  Row "t" "m" "o" (float_of_Z 1) (float_of_Z 1) (float_of_Z 1) (float_of_Z 1)
    (float_of_Z 9007199254740994).

(** * Properties *)

(** ** Strings *)

Lemma app_assoc_s (a b c : string) : (a +:+ b) +:+ c = a +:+ b +:+ c.
Proof. induction a as [|x a IH]; simpl; [done|by rewrite IH]. Qed.

Lemma all_class_app c (a b : string) :
  all_class c (a +:+ b) = all_class c a && all_class c b.
Proof.
  induction a as [|x a IH]; simpl; [done|].
  rewrite IH. by destruct (c x).
Qed.

Lemma all_class_impl (p q : ascii → bool) s :
  (∀ c, p c = true → q c = true) → all_class p s = true → all_class q s = true.
Proof.
  intros Hpq. induction s as [|a s IH]; simpl; [done|].
  rewrite !andb_true_iff. naive_solver.
Qed.

Lemma lit_Some (p s rest : string) : lit p s = Some rest ↔ s = p +:+ rest.
Proof.
  revert s. induction p as [|a p IH]; intros s; simpl.
  - split; congruence.
  - destruct s as [|b s]; [split; congruence|].
    destruct (Ascii.eqb_spec a b) as [->|Hne].
    + rewrite IH. split; congruence.
    + split; congruence.
Qed.

Lemma lit_app (p rest : string) : lit p (p +:+ rest) = Some rest.
Proof. by apply lit_Some. Qed.

Lemma is_decimal_all s : is_decimal s = true → all_class class_d s = true.
Proof. by destruct s. Qed.

(** ** The matcher is sound and complete for [matches] *)

Section MatcherCorrect.
Context {A : Type}.

Lemma star_class_sound c s (k : string → string → option A) x :
  star_class c s k = Some x →
  ∃ m rest, s = m +:+ rest ∧ all_class c m = true ∧ k m rest = Some x.
Proof.
  revert k. induction s as [|a s IH]; intros k; simpl.
  - intros Hk. by exists "", "".
  - destruct (c a) eqn:Hca.
    + destruct (star_class c s _) as [y|] eqn:Hs.
      * intros [= ->]. apply IH in Hs as (m & rest & -> & Hm & Hk).
        exists (String a m), rest. simpl. by rewrite Hca, Hm.
      * intros Hk. by exists "", (String a s).
    + intros Hk. by exists "", (String a s).
Qed.

Lemma star_class_complete c m rest (k : string → string → option A) :
  all_class c m = true → is_Some (k m rest) →
  is_Some (star_class c (m +:+ rest) k).
Proof.
  revert k. induction m as [|a m IH]; intros k; simpl.
  - intros _ Hk. destruct rest as [|b rest]; simpl; [done|].
    destruct (c b); [|done]. by destruct (star_class c rest _).
  - destruct (c a) eqn:Hca; [|done]. simpl. intros Hm Hk.
    destruct (IH (fun m0 r0 => k (String a m0) r0) Hm Hk) as [y ->]. eauto.
Qed.

Lemma bt_sound r s g (k : string → string → gmap string string → option A) x :
  bt r s g k = Some x →
  ∃ m rest g', s = m +:+ rest ∧ matches r g m g' ∧ k m rest g' = Some x.
Proof.
  revert s g k.
  induction r as [p|c|r1 IH1 r2 IH2|r1 IH1 r2 IH2|n r IH]; intros s g k; simpl.
  - destruct (lit p s) as [rest|] eqn:Hl; [|done].
    apply lit_Some in Hl as ->. intros Hk.
    exists p, rest, g. split_and!; [done|constructor|done].
  - destruct s as [|a s]; [done|]. destruct (c a) eqn:Hca; [|done].
    intros (m & rest & -> & Hm & Hk)%star_class_sound.
    exists (String a m), rest, g. split_and!; [done|by constructor|done].
  - intros (m1 & s1 & g1 & -> & H1 & Hk)%IH1.
    apply IH2 in Hk as (m2 & s2 & g2 & -> & H2 & Hk).
    exists (m1 +:+ m2), s2, g2. rewrite app_assoc_s.
    split_and!; [done|by econstructor|done].
  - destruct (bt r1 s g k) as [y|] eqn:Hl.
    + intros [= ->]. apply IH1 in Hl as (m & rest & g' & -> & H1 & Hk).
      exists m, rest, g'. split_and!; [done|by apply matches_alt_l|done].
    + intros (m & rest & g' & -> & H2 & Hk)%IH2.
      exists m, rest, g'. split_and!; [done|by apply matches_alt_r|done].
  - intros (m & rest & g' & -> & H1 & Hk)%IH.
    exists m, rest, (<[n := m]> g'). split_and!; [done|by constructor|done].
Qed.

Lemma bt_complete r g m g' :
  matches r g m g' →
  ∀ rest (k : string → string → gmap string string → option A),
    is_Some (k m rest g') → is_Some (bt r (m +:+ rest) g k).
Proof.
  induction 1 as [p g|c a m g Hca Hm|r1 r2 g g1 g2 m1 m2 _ IH1 _ IH2
                 |r1 r2 g g' m _ IH|r1 r2 g g' m _ IH|n r g g' m _ IH];
    intros rest k Hk; simpl.
  - by rewrite lit_app.
  - rewrite Hca. by apply star_class_complete.
  - rewrite app_assoc_s. apply IH1, IH2. done.
  - destruct (IH rest k Hk) as [y ->]. eauto.
  - destruct (bt r1 _ g k); [eauto|]. by apply IH.
  - by apply IH.
Qed.
End MatcherCorrect.

Lemma match_here_sound r s m g :
  match_here r s = Some (m, g) → ∃ rest, s = m +:+ rest ∧ matches r ∅ m g.
Proof.
  unfold match_here.
  intros (m' & rest & g' & -> & Hm & [= -> ->])%bt_sound. eauto.
Qed.

Lemma match_here_complete r m g rest :
  matches r ∅ m g → is_Some (match_here r (m +:+ rest)).
Proof. intros Hm. unfold match_here. by eapply bt_complete. Qed.

(** [search] finds a match exactly when some substring is one; the match it
    returns starts at the leftmost position where a match starts. *)
Lemma search_Some r s g :
  search r s = Some g →
  ∃ pre m post,
    s = pre +:+ m +:+ post ∧ match_here r (m +:+ post) = Some (m, g) ∧
    matches r ∅ m g ∧
    ∀ pre' m' post' g',
      s = pre' +:+ m' +:+ post' → matches r ∅ m' g' →
      (String.length pre ≤ String.length pre')%nat.
Proof.
  induction s as [|a s IH]; simpl.
  - destruct (match_here r "") as [[m g0]|] eqn:Hm; [|done].
    intros [= ->]. destruct (match_here_sound _ _ _ _ Hm) as (rest & Hs & Hmt).
    exists "", m, rest. rewrite <- Hs. split_and!; [done..|]. simpl. lia.
  - destruct (match_here r (String a s)) as [[m g0]|] eqn:Hm.
    + intros [= ->]. destruct (match_here_sound _ _ _ _ Hm) as (rest & Hs & Hmt).
      exists "", m, rest. simpl. rewrite <- Hs. split_and!; [done..|]. lia.
    + intros (pre & m & post & -> & Hh & Hmt & Hleft)%IH.
      exists (String a pre), m, post. split_and!; [done..|].
      intros [|b pre'] m' post' g' Heq Hm'; simpl in *.
      * subst. destruct (match_here_complete r m' g' post' Hm') as [? Hs].
        rewrite <- Heq in Hs. congruence.
      * injection Heq as -> Heq. apply le_n_S. eauto.
Qed.

Lemma search_None r s :
  search r s = None ↔
  ∀ pre m post g, s = pre +:+ m +:+ post → ¬ matches r ∅ m g.
Proof.
  split.
  - induction s as [|a s IH]; simpl.
    + destruct (match_here r "") as [[m0 g0]|] eqn:Hm; [done|]. intros _.
      intros [|??] m post g Heq Hmt; [|done]. simpl in Heq.
      destruct (match_here_complete r m g post Hmt) as [? Hs].
      rewrite <- Heq in Hs. congruence.
    + destruct (match_here r (String a s)) as [[m0 g0]|] eqn:Hm; [done|].
      intros Hs [|b pre] m post g Heq Hmt; simpl in Heq.
      * destruct (match_here_complete r m g post Hmt) as [? Hs'].
        rewrite <- Heq in Hs'. congruence.
      * injection Heq as -> Heq. by eapply IH.
  - intros Hno. destruct (search r s) as [g|] eqn:Hs; [|done].
    apply search_Some in Hs as (pre & m & post & -> & _ & Hmt & _).
    by destruct (Hno pre m post g).
Qed.

(** ** What the pattern matches *)

Lemma matches_plus_inv c g m g' :
  matches (ClassPlus c) g m g' ↔
  g' = g ∧ ∃ a m', m = String a m' ∧ c a = true ∧ all_class c m' = true.
Proof.
  split.
  - inversion 1; subst. eauto 6.
  - intros (-> & a & m' & -> & ? & ?). by constructor.
Qed.

Lemma matches_timing_inv k_ms g_ms k_us g_us g m g' :
  matches (timing k_ms g_ms k_us g_us) g m g' ↔
  ∃ c : capture, is_decimal c.2 = true ∧ m = field_text k_ms k_us c ∧
    g' = <[field_group g_ms g_us c := c.2]> g.
Proof.
  unfold timing, field_text, field_group. split.
  - intros H.
    inversion H as [| | |? ? ? ? ? H1|? ? ? ? ? H1|]; subst; clear H;
      inversion H1 as [| |? ? ? ? ? ? ? Hl Hg| | |]; subst; clear H1;
      inversion Hl; subst; clear Hl;
      inversion Hg as [| | | | |? ? ? ? ? Hd]; subst; clear Hg;
      apply matches_plus_inv in Hd as (-> & a & m' & -> & Ha & Hm).
    + exists (false, String a m'). simpl. by rewrite Ha, Hm.
    + exists (true, String a m'). simpl. by rewrite Ha, Hm.
  - intros ([u v] & Hv & -> & ->). simpl in *.
    destruct v as [|a v]; [done|]. simpl in Hv.
    apply andb_true_iff in Hv as [Ha Hv].
    destruct u.
    + apply matches_alt_r. eapply matches_cat; repeat constructor; done.
    + apply matches_alt_l. eapply matches_cat; repeat constructor; done.
Qed.

Lemma matches_token_inv n g m g' :
  matches (Group n (ClassPlus class_S)) g m g' ↔
  is_token m = true ∧ g' = <[n := m]> g.
Proof.
  split.
  - inversion 1 as [| | | | |? ? ? ? ? Hd]; subst.
    apply matches_plus_inv in Hd as (-> & a & m' & -> & Ha & Hm).
    simpl. by rewrite Ha, Hm.
  - intros [Hm ->]. destruct m as [|a m]; [done|]. simpl in Hm.
    apply andb_true_iff in Hm as [Ha Hm]. by repeat constructor.
Qed.

Lemma matches_cat_inv r1 r2 g m g' :
  matches (Cat r1 r2) g m g' ↔
  ∃ m1 m2 g1, m = m1 +:+ m2 ∧ matches r1 g m1 g1 ∧ matches r2 g1 m2 g'.
Proof.
  split.
  - inversion 1; subst. eauto 7.
  - intros (m1 & m2 & g1 & -> & ? & ?). by econstructor.
Qed.

Lemma matches_lit_cat_inv p r g m g' :
  matches (Cat (Lit p) r) g m g' ↔ ∃ m', m = p +:+ m' ∧ matches r g m' g'.
Proof.
  rewrite matches_cat_inv. split.
  - intros (m1 & m2 & g1 & -> & Hl & Hr). inversion Hl; subst. eauto.
  - intros (m' & -> & Hr). exists p, m', g. split_and!; [done|constructor|done].
Qed.

Lemma matches_pattern m g : matches pattern ∅ m g ↔ schema_match m g.
Proof.
  unfold pattern. split.
  - intros H.
    repeat first
      [ apply matches_lit_cat_inv in H as (? & -> & H)
      | apply matches_cat_inv in H as (? & ? & ? & -> & ?%matches_token_inv & H)
      | apply matches_cat_inv in H as (? & ? & ? & -> & ?%matches_timing_inv & H) ].
    apply matches_timing_inv in H.
    destruct_and!. destruct H as (tt & ? & -> & ->).
    repeat match goal with H : ∃ c : capture, _ |- _ =>
      destruct H as (? & ? & -> & ->) end.
    subst. by constructor.
  - intros [t mo o p b s w tt ? ? ? ? ? ? ? ?].
    unfold schema_text, schema_groups.
    repeat first
      [ apply matches_lit_cat_inv; eexists; split; [reflexivity|]
      | apply matches_cat_inv; eexists _, _, _; split; [reflexivity|split];
        [ first [ by apply matches_token_inv
                | apply matches_timing_inv; eexists;
                  split_and!; [|reflexivity..]; assumption ] |] ].
    apply matches_timing_inv; eexists; split_and!; [|reflexivity..]; assumption.
Qed.

Lemma search_None_holds line : search pattern line = None ↔ ¬ holds_record line.
Proof.
  rewrite search_None. split.
  - intros Hno (pre & post & t & mo & o & p & b & s & w & tt & ? & ? & ? & ?
                & ? & ? & ? & ? & ->).
    eapply Hno; [done|]. apply matches_pattern. by constructor.
  - intros Hno pre m post g -> Hm%matches_pattern.
    destruct Hm as [t mo o p b s w tt]. apply Hno.
    exists pre, post, t, mo, o, p, b, s, w, tt. by split_and!.
Qed.

(** ** From a match to a row *)

Lemma schema_groups_keys t mo o p b s w tt :
  let d := schema_groups t mo o p b s w tt in
  d !! "table" = Some t ∧ d !! "mode" = Some mo ∧ d !! "op" = Some o.
Proof.
  destruct p as [[] ?], b as [[] ?], s as [[] ?], w as [[] ?], tt as [[] ?];
    done.
Qed.

Lemma schema_groups_fields t mo o (p b s w tt : capture) :
  let d := schema_groups t mo o p b s w tt in
  let us (c : capture) := if c.1 then Some c.2 else None in
  let ms (c : capture) := if c.1 then None else Some c.2 in
  (d !! "parse_us" = us p ∧ d !! "parse_ms" = ms p) ∧
  (d !! "build_us" = us b ∧ d !! "build_ms" = ms b) ∧
  (d !! "send_us" = us s ∧ d !! "send_ms" = ms s) ∧
  (d !! "wait_us" = us w ∧ d !! "wait_ms" = ms w) ∧
  (d !! "total_us" = us tt ∧ d !! "total_ms" = ms tt).
Proof.
  destruct p as [[] ?], b as [[] ?], s as [[] ?], w as [[] ?], tt as [[] ?];
    done.
Qed.

Lemma pick_ms_capture d k_ms k_us (c : capture) :
  is_decimal c.2 = true →
  d !! k_us = (if c.1 then Some c.2 else None) →
  d !! k_ms = (if c.1 then None else Some c.2) →
  pick_ms d k_ms k_us = convert c.
Proof.
  destruct c as [u [|a v]]; [done|]. simpl. intros _ Hus Hms.
  unfold pick_ms, convert. rewrite Hus, Hms. by destruct u.
Qed.

Lemma make_row_schema t mo o p b s w tt :
  is_decimal p.2 = true → is_decimal b.2 = true → is_decimal s.2 = true →
  is_decimal w.2 = true → is_decimal tt.2 = true →
  make_row (schema_groups t mo o p b s w tt) =
    (p' ← convert p; b' ← convert b; s' ← convert s; w' ← convert w;
     tt' ← convert tt; Ok (Row t mo o p' b' s' w' tt')).
Proof.
  intros Hp Hb Hs Hw Ht. unfold make_row, subscript.
  destruct (schema_groups_keys t mo o p b s w tt) as (-> & -> & ->).
  destruct (schema_groups_fields t mo o p b s w tt)
    as ([??] & [??] & [??] & [??] & [??]).
  simpl.
  rewrite (pick_ms_capture _ "parse_ms" "parse_us" p),
    (pick_ms_capture _ "build_ms" "build_us" b),
    (pick_ms_capture _ "send_ms" "send_us" s),
    (pick_ms_capture _ "wait_ms" "wait_us" w),
    (pick_ms_capture _ "total_ms" "total_us" tt) by done.
  done.
Qed.

Lemma bind_Ok {A B} (m : result A) (f : A → result B) b :
  m ≫= f = Ok b ↔ ∃ a, m = Ok a ∧ f a = Ok b.
Proof.
  destruct m as [a|e]; simpl.
  - split; [eauto|]. by intros (? & [= ->] & ?).
  - split; [done|]. by intros (? & ? & ?).
Qed.

Lemma search_make_row line d r :
  search pattern line = Some d → make_row d = Ok r → row_of_line line d r.
Proof.
  intros (pre & m & post & -> & _ & Hm & _)%search_Some Hr.
  apply matches_pattern in Hm.
  destruct Hm as [t mo o p b s w tt Ht Hmo Ho Hp Hb Hs Hw Htt].
  rewrite make_row_schema in Hr by done.
  apply bind_Ok in Hr as (p' & Hp' & Hr).
  apply bind_Ok in Hr as (b' & Hb' & Hr).
  apply bind_Ok in Hr as (s' & Hs' & Hr).
  apply bind_Ok in Hr as (w' & Hw' & Hr).
  apply bind_Ok in Hr as (tt' & Htt' & [= <-]).
  by econstructor.
Qed.

Lemma parse_lines_parsed lines acc rows :
  parse_lines lines acc = Ok rows ↔
  ∃ new, rows = acc ++ new ∧ parsed lines new.
Proof.
  revert acc rows. induction lines as [|line lines IH]; intros acc rows; simpl.
  - split.
    + intros [= ->]. exists []. by rewrite app_nil_r; split; [|constructor].
    + intros (new & -> & Hp). inversion Hp. by rewrite app_nil_r.
  - destruct (search pattern line) as [d|] eqn:Hs.
    + rewrite bind_Ok. split.
      * intros (r & Hr & (new & -> & Hp)%IH). exists (r :: new).
        rewrite <- app_assoc. split; [done|]. by econstructor.
      * intros (new & -> & Hp).
        inversion Hp as [|? ? ? Hs'|? ? d' r new' Hs' Hr Hp']; subst;
          [congruence|].
        assert (d' = d) as -> by congruence.
        exists r. split; [done|]. apply IH. exists new'.
        by rewrite <- app_assoc.
    + rewrite IH. split; intros (new & -> & Hp); exists new; split; try done.
      * by constructor.
      * inversion Hp; subst; [done|congruence].
Qed.

Lemma parsed_In_row lines rows r :
  parsed lines rows → In r rows →
  ∃ line d, In line lines ∧ search pattern line = Some d ∧ make_row d = Ok r.
Proof.
  induction 1 as [|line lines rows Hs _ IH|line lines d r' rows Hs Hr _ IH];
    simpl; [done| |].
  - intros (l & d & ? & ?)%IH. eauto.
  - intros [->|(l & d' & ? & ?)%IH]; eauto 6.
Qed.

Lemma parsed_In_line lines rows line d :
  parsed lines rows → In line lines → search pattern line = Some d →
  ∃ r, In r rows ∧ make_row d = Ok r.
Proof.
  induction 1 as [|l lines rows Hs _ IH|l lines d' r' rows Hs Hr _ IH];
    simpl; [done| |].
  - intros [->|Hin] Hd; [congruence|]. eauto.
  - intros [->|Hin] Hd.
    + assert (d' = d) as -> by congruence. eauto.
    + destruct (IH Hin Hd) as (r & ? & ?). eauto.
Qed.

Lemma parsed_length lines rows :
  parsed lines rows → (length rows ≤ length lines)%nat.
Proof. induction 1; simpl; lia. Qed.

(** ** When the conversions succeed *)

Lemma is_Ok_bind {A B} (m : result A) (f : A → result B) :
  is_Ok (m ≫= f) = match m with Ok a => is_Ok (f a) | Raise _ => false end.
Proof. by destruct m. Qed.

Lemma convert_is_Ok (c : capture) :
  is_decimal c.2 = true →
  is_Ok (convert c) = if c.1 then us_value_ok c.2 else true.
Proof.
  destruct c as [[] v]; simpl; intros Hv; unfold convert; simpl.
  - unfold int_of_str, us_value_ok, int_truediv_float. rewrite Hv.
    rewrite Nat.ltb_antisym.
    destruct (String.length v <=? int_max_str_digits)%nat; simpl; [|done].
    by destruct (float_of_Z _).
  - unfold float_of_str. by rewrite Hv.
Qed.

Lemma make_row_is_Ok m d :
  schema_match m d →
  is_Ok (make_row d) =
    us_ok d "parse_us" && us_ok d "build_us" && us_ok d "send_us"
    && us_ok d "wait_us" && us_ok d "total_us".
Proof.
  intros [t mo o p b s w tt _ _ _ Hp Hb Hs Hw Ht].
  rewrite make_row_schema by done. unfold us_ok.
  destruct (schema_groups_fields t mo o p b s w tt)
    as ([-> _] & [-> _] & [-> _] & [-> _] & [-> _]).
  pose proof (convert_is_Ok p Hp) as Ep. pose proof (convert_is_Ok b Hb) as Eb.
  pose proof (convert_is_Ok s Hs) as Es. pose proof (convert_is_Ok w Hw) as Ew.
  pose proof (convert_is_Ok tt Ht) as Et.
  destruct (convert p), (convert b), (convert s), (convert w), (convert tt);
    simpl in *;
    destruct p.1, b.1, s.1, w.1, tt.1; simpl; by rewrite <- ?Ep, <- ?Eb, <- ?Es, <- ?Ew, <- ?Et.
Qed.

Lemma parse_lines_is_Ok lines acc :
  is_Ok (parse_lines lines acc) = forallb line_ok lines.
Proof.
  revert acc. induction lines as [|line lines IH]; intros acc; simpl; [done|].
  unfold line_ok at 1. destruct (search pattern line) as [d|] eqn:Hs; [|done].
  destruct (search_Some _ _ _ Hs) as (_ & m & _ & _ & _ & Hm%matches_pattern & _).
  rewrite <- (make_row_is_Ok m d Hm), is_Ok_bind.
  destruct (make_row d); [apply IH|done].
Qed.

(** ** Keys: equality and order *)

Lemma key_eqb_eq (a b : group_key) : key_eqb a b = true ↔ a = b.
Proof.
  destruct a as [[a1 a2] a3], b as [[b1 b2] b3]. unfold key_eqb.
  rewrite !andb_true_iff, !String.eqb_eq. naive_solver.
Qed.

Lemma key_eqb_refl (a : group_key) : key_eqb a a = true.
Proof. by apply key_eqb_eq. Qed.

Lemma key_eqb_neq (a b : group_key) : key_eqb a b = false ↔ a ≠ b.
Proof.
  rewrite <- key_eqb_eq. destruct (key_eqb a b); naive_solver.
Qed.

Lemma compare_Lt_trans (a b c : string) :
  String.compare a b = Lt → String.compare b c = Lt → String.compare a c = Lt.
Proof.
  change String.compare with OrderedTypeEx.String_as_OT.cmp.
  rewrite !OrderedTypeEx.String_as_OT.cmp_lt.
  apply OrderedTypeEx.String_as_OT.lt_trans.
Qed.

Lemma compare_refl (a : string) : String.compare a a = Eq.
Proof. by apply OrderedTypeEx.String_as_OT.cmp_eq. Qed.

Lemma compare_Gt_Lt (a b : string) :
  String.compare a b = Gt ↔ String.compare b a = Lt.
Proof.
  rewrite (String.compare_antisym b a).
  destruct (String.compare a b); simpl; naive_solver.
Qed.

Ltac case_compare a b :=
  let E := fresh "E" in
  destruct (String.compare a b) eqn:E;
  [apply String.compare_eq_iff in E; subst| |]; try done.

Lemma key_lt_trans (a b c : group_key) : key_lt a b → key_lt b c → key_lt a c.
Proof.
  destruct a as [[a1 a2] a3], b as [[b1 b2] b3], c as [[c1 c2] c3].
  unfold key_lt, key_ltb, String.ltb.
  case_compare a1 b1.
  - case_compare b1 c1. case_compare a2 b2.
    + case_compare b2 c2. case_compare a3 b3. case_compare b3 c3.
      by rewrite (compare_Lt_trans _ _ _ E E0).
    + case_compare b2 c2; [by rewrite E|].
      by rewrite (compare_Lt_trans _ _ _ E E0).
  - case_compare b1 c1; [by rewrite E|].
    by rewrite (compare_Lt_trans _ _ _ E E0).
Qed.

Lemma key_lt_total (a b : group_key) : a ≠ b → ¬ key_lt a b → key_lt b a.
Proof.
  destruct a as [[a1 a2] a3], b as [[b1 b2] b3].
  unfold key_lt, key_ltb, String.ltb. intros Hne.
  case_compare a1 b1.
  - rewrite compare_refl. case_compare a2 b2.
    + rewrite compare_refl. case_compare a3 b3.
      apply compare_Gt_Lt in E. by rewrite E.
    + apply compare_Gt_Lt in E. by rewrite E.
  - apply compare_Gt_Lt in E. by rewrite E.
Qed.

Lemma compare_Eq_iff (a b : string) : String.compare a b = Eq ↔ a = b.
Proof. apply OrderedTypeEx.String_as_OT.cmp_eq. Qed.

Lemma key_lt_lex (a b : group_key) : key_lt a b ↔ lex_lt a b.
Proof.
  destruct a as [[a1 a2] a3], b as [[b1 b2] b3].
  unfold key_lt, key_ltb, lex_lt, str_lt, String.ltb. simpl.
  pose proof (compare_Eq_iff a1 b1) as H1.
  pose proof (compare_Eq_iff a2 b2) as H2.
  destruct (String.compare a1 b1), (String.compare a2 b2),
    (String.compare a3 b3); naive_solver.
Qed.

(** ** Grouping *)

Lemma setdefault_append_keys key r by_key k :
  In k (map fst (setdefault_append key r by_key)) ↔
  k = key ∨ In k (map fst by_key).
Proof.
  induction by_key as [|[k' its] rest IH]; simpl; [naive_solver|].
  destruct (key_eqb k' key) eqn:E; simpl.
  - apply key_eqb_eq in E as ->. naive_solver.
  - rewrite IH. naive_solver.
Qed.

Lemma setdefault_append_NoDup key r by_key :
  NoDup (map fst by_key) → NoDup (map fst (setdefault_append key r by_key)).
Proof.
  induction by_key as [|[k' its] rest IH]; simpl.
  - intros _. apply NoDup_cons_2; [apply not_elem_of_nil|constructor].
  - intros [Hk Hnd]%NoDup_cons. destruct (key_eqb k' key) eqn:E; simpl.
    + by apply NoDup_cons_2.
    + apply NoDup_cons_2; [|by apply IH].
      rewrite list_elem_of_In, setdefault_append_keys, <- list_elem_of_In.
      apply key_eqb_neq in E. naive_solver.
Qed.

Lemma setdefault_append_lookup key r by_key k :
  lookup_key k (setdefault_append key r by_key) =
  if key_eqb key k then lookup_key k by_key ++ [r] else lookup_key k by_key.
Proof.
  induction by_key as [|[k' its] rest IH]; simpl.
  - by destruct (key_eqb key k).
  - destruct (key_eqb k' key) eqn:E; simpl.
    + apply key_eqb_eq in E as ->. by destruct (key_eqb key k).
    + destruct (key_eqb k' k) eqn:E'; [|done].
      apply key_eqb_eq in E' as ->. apply key_eqb_neq in E.
      by assert (key_eqb key k = false) as -> by by apply key_eqb_neq.
Qed.

Lemma lookup_key_In by_key k its :
  NoDup (map fst by_key) → In (k, its) by_key → lookup_key k by_key = its.
Proof.
  induction by_key as [|[k' its'] rest IH]; simpl; [done|].
  intros [Hk Hnd]%NoDup_cons [[= -> ->]|Hin].
  - by rewrite key_eqb_refl.
  - destruct (key_eqb k' k) eqn:E; [|by apply IH].
    apply key_eqb_eq in E as ->. destruct Hk.
    apply list_elem_of_In, in_map_iff. by exists (k, its).
Qed.

Lemma members_snoc k rows r :
  members k (rows ++ [r]) =
  if key_eqb (key_of r) k then members k rows ++ [r] else members k rows.
Proof.
  unfold members. rewrite List.filter_app. cbn [List.filter].
  destruct (key_eqb (key_of r) k); [done|]. by rewrite app_nil_r.
Qed.

Lemma grouped_step by_key done r :
  grouped by_key done →
  grouped (setdefault_append (key_of r) r by_key) (done ++ [r]).
Proof.
  intros (Hnd & Hkeys & Hlook). split_and!.
  - by apply setdefault_append_NoDup.
  - intros k. rewrite setdefault_append_keys, Hkeys.
    setoid_rewrite in_app_iff. simpl. naive_solver.
  - intros k. by rewrite setdefault_append_lookup, members_snoc, Hlook.
Qed.

Lemma group_rows_grouped rows : grouped (group_rows rows) rows.
Proof.
  unfold group_rows.
  enough (∀ by_key done, grouped by_key done →
    grouped (fold_left (fun by_key r => setdefault_append (key_of r) r by_key)
               rows by_key) (done ++ rows)) as H.
  { apply (H [] []). split_and!; [constructor|simpl; naive_solver|done]. }
  induction rows as [|r rows IH]; intros by_key done Hg; simpl.
  - by rewrite app_nil_r.
  - replace (done ++ r :: rows) with ((done ++ [r]) ++ rows)
      by (by rewrite <- app_assoc).
    by apply IH, grouped_step.
Qed.

Lemma group_rows_item rows k its :
  In (k, its) (group_rows rows) → its = members k rows ∧ its ≠ [].
Proof.
  destruct (group_rows_grouped rows) as (Hnd & Hkeys & Hlook). intros Hin.
  rewrite <- Hlook, (lookup_key_In _ _ _ Hnd Hin). split; [done|].
  assert (In k (map fst (group_rows rows))) as (r & Hr & Hk)%Hkeys.
  { apply in_map_iff. by exists (k, its). }
  rewrite <- (lookup_key_In _ _ _ Hnd Hin), Hlook. unfold members.
  intros Hnil. assert (In r []) as []. rewrite <- Hnil.
  apply List.filter_In. split; [done|]. by apply key_eqb_eq.
Qed.

(** ** Sorting the groups *)

Lemma insert_item_perm x l : insert_item x l ≡ₚ x :: l.
Proof.
  induction l as [|y l IH]; simpl; [done|].
  destruct (key_ltb (fst x) (fst y)); [done|].
  rewrite IH. apply perm_swap.
Qed.

Lemma sorted_perm l : sorted l ≡ₚ l.
Proof.
  unfold sorted.
  enough (∀ acc, fold_left (fun acc x => insert_item x acc) l acc ≡ₚ acc ++ l)
    as H by apply (H []).
  induction l as [|x l IH]; intros acc; simpl.
  - by rewrite app_nil_r.
  - rewrite IH, insert_item_perm. simpl. apply Permutation_middle.
Qed.

Lemma insert_item_sorted x l :
  StronglySorted key_lt (map fst l) → ¬ In (fst x) (map fst l) →
  StronglySorted key_lt (map fst (insert_item x l)).
Proof.
  induction l as [|y l IH]; simpl.
  - intros _ _. by repeat constructor.
  - intros [Hs Hall]%StronglySorted_inv Hnin.
    destruct (key_ltb (fst x) (fst y)) eqn:E; simpl.
    + constructor; [by constructor|]. constructor; [done|].
      eapply Forall_impl; [done|]. intros z Hz. by eapply key_lt_trans.
    + constructor; [apply IH; [done|tauto]|].
      rewrite (fmap_Permutation fst _ _ (insert_item_perm x l)).
      constructor; [|done]. apply key_lt_total; [naive_solver|].
      unfold key_lt. by rewrite E.
Qed.

Lemma sorted_sorted l :
  NoDup (map fst l) → StronglySorted key_lt (map fst (sorted l)).
Proof.
  unfold sorted.
  enough (∀ acc, NoDup (map fst acc ++ map fst l) →
    StronglySorted key_lt (map fst acc) →
    StronglySorted key_lt
      (map fst (fold_left (fun acc x => insert_item x acc) l acc))) as H.
  { intros Hnd. apply (H []); [done|constructor]. }
  induction l as [|x l IH]; intros acc Hnd Hs; simpl; [done|].
  simpl in Hnd. apply NoDup_app in Hnd as (Hacc & Hdisj & [Hx Hl]%NoDup_cons).
  apply IH.
  - rewrite (fmap_Permutation fst _ _ (insert_item_perm x acc)). simpl.
    apply NoDup_cons_2.
    + rewrite elem_of_app. intros [Hin|Hin]; [|done].
      apply (Hdisj _ Hin). by left.
    + apply NoDup_app. split_and!; [done| |done].
      intros z Hz Hz'. apply (Hdisj _ Hz). by right.
  - apply insert_item_sorted; [done|]. rewrite <- list_elem_of_In.
    intros Hin. apply (Hdisj _ Hin). by left.
Qed.

Lemma report_items_In rows k its :
  In (k, its) (report_items rows) ↔ In (k, its) (group_rows rows).
Proof.
  unfold report_items. rewrite <- !list_elem_of_In. by rewrite sorted_perm.
Qed.

Lemma report_items_keys rows k :
  In k (map fst (report_items rows)) ↔ ∃ r, In r rows ∧ key_of r = k.
Proof.
  destruct (group_rows_grouped rows) as (_ & Hkeys & _). rewrite <- Hkeys.
  unfold report_items. rewrite <- !list_elem_of_In.
  by rewrite (fmap_Permutation fst _ _ (sorted_perm _)).
Qed.

Lemma report_items_NoDup rows : NoDup (map fst (report_items rows)).
Proof.
  destruct (group_rows_grouped rows) as (Hnd & _ & _).
  unfold report_items.
  by rewrite (fmap_Permutation fst _ _ (sorted_perm _)).
Qed.

Lemma report_items_sorted rows :
  StronglySorted key_lt (map fst (report_items rows)).
Proof.
  apply sorted_sorted. by destruct (group_rows_grouped rows) as (Hnd & _ & _).
Qed.

Lemma report_items_members rows k its :
  In (k, its) (report_items rows) → its = members k rows ∧ its ≠ [].
Proof. rewrite report_items_In. apply group_rows_item. Qed.

Lemma key_lt_irrefl k : ¬ key_lt k k.
Proof.
  destruct k as [[a b] c]. unfold key_lt, key_ltb.
  rewrite !compare_refl. unfold String.ltb. by rewrite compare_refl.
Qed.

Lemma sorted_keys_unique (l l' : list group_key) :
  StronglySorted key_lt l → StronglySorted key_lt l' →
  (∀ k, In k l ↔ In k l') → l = l'.
Proof.
  revert l'. induction l as [|x xs IH]; intros [|y ys] Hs Hs' Hin.
  - done.
  - destruct (proj2 (Hin y)). by left.
  - destruct (proj1 (Hin x)). by left.
  - apply StronglySorted_inv in Hs as [Hs Hx].
    apply StronglySorted_inv in Hs' as [Hs' Hy].
    rewrite List.Forall_forall in Hx, Hy.
    assert (x = y) as ->.
    { destruct (proj1 (Hin x)) as [|Hxy]; [by left|done|].
      destruct (proj2 (Hin y)) as [|Hyx]; [by left|done|].
      destruct (key_lt_irrefl x). apply (key_lt_trans x y x); auto. }
    f_equal. apply IH; try done.
    intros k. split; intros Hk.
    + destruct (proj1 (Hin k)) as [<-|]; [by right| |done].
      destruct (key_lt_irrefl y). auto.
    + destruct (proj2 (Hin k)) as [<-|]; [by right| |done].
      destruct (key_lt_irrefl y). auto.
Qed.

(** ** Printing *)

Lemma mean_Ok xs : xs ≠ [] → ∃ v, mean xs = Ok v.
Proof.
  destruct xs as [|x xs]; [done|]. intros _. unfold mean.
  destruct (List.filter _ _); [|eauto]. destruct (exact_sum _). eauto.
Qed.

Lemma format_item_Ok key its :
  its ≠ [] → ∃ line, format_item key its = Ok line.
Proof.
  intros Hne. unfold format_item.
  assert (∀ f : row → float, ∃ v, mean (map f its) = Ok v) as Hmean.
  { intros f. apply mean_Ok. by destruct its. }
  destruct (Hmean parse) as [? ->], (Hmean build) as [? ->],
    (Hmean send) as [? ->], (Hmean wait) as [? ->], (Hmean total) as [? ->].
  simpl. eauto.
Qed.

Lemma print_items_Ok items out :
  (∀ k its, In (k, its) items → its ≠ []) →
  ∃ lines, print_items items out = (out ++ lines, Ok ()) ∧
    Forall2 (fun item line => format_item item.1 item.2 = Ok line)
      items lines.
Proof.
  revert out. induction items as [|[k its] items IH]; intros out Hne; simpl.
  - exists []. by rewrite app_nil_r.
  - destruct (format_item_Ok k its) as [line Hline]; [by eapply Hne; left|].
    rewrite Hline.
    destruct (IH (out ++ [line])) as (lines & -> & Hall).
    { intros k' its' Hin. eapply Hne. by right. }
    exists (line :: lines). rewrite <- app_assoc. split; [done|].
    by constructor.
Qed.

(** What a run with at least one record prints: the title, the header and
    one line for each group, in the order of [report_items]. *)
Lemma summarize_rows rows :
  rows ≠ [] →
  ∃ lines,
    summarize rows =
      ("Averages by (table, mode, op):" :: header :: lines, Ok ()) ∧
    Forall2 (fun item line => format_item item.1 item.2 = Ok line)
      (report_items rows) lines.
Proof.
  destruct rows as [|r rows]; [done|]. intros _. unfold summarize.
  apply print_items_Ok. intros k its Hin.
  by apply (report_items_members (r :: rows)) in Hin as [_ ?].
Qed.

(** ** The printed line, field by field *)

Lemma split_on_free sep s :
  all_class (fun c => negb (Ascii.eqb c sep)) s = true → split_on sep s = [s].
Proof.
  induction s as [|a s IH]; simpl; [done|].
  intros [Ha Hs]%andb_true_iff. apply negb_true_iff in Ha. rewrite Ha.
  by rewrite IH.
Qed.

Lemma split_on_app sep a rest :
  all_class (fun c => negb (Ascii.eqb c sep)) a = true →
  split_on sep (a +:+ String sep rest) = a :: split_on sep rest.
Proof.
  induction a as [|x a IH]; simpl.
  - intros _. by rewrite Ascii.eqb_refl.
  - intros [Ha Hs]%andb_true_iff. apply negb_true_iff in Ha. rewrite Ha.
    by rewrite IH.
Qed.

Lemma class_S_not_tab c : class_S c = true → negb (Ascii.eqb c "009") = true.
Proof. by destruct (Ascii.eqb_spec c "009") as [->|]. Qed.

Lemma class_d_not_tab c : class_d c = true → negb (Ascii.eqb c "009") = true.
Proof. by destruct (Ascii.eqb_spec c "009") as [->|]. Qed.

Lemma is_token_tab_free s : is_token s = true → tab_free s = true.
Proof.
  destruct s as [|a s]; [done|]. apply all_class_impl, class_S_not_tab.
Qed.

Lemma is_decimal_tab_free s : is_decimal s = true → tab_free s = true.
Proof.
  destruct s as [|a s]; [done|]. apply all_class_impl, class_d_not_tab.
Qed.

Lemma string_of_uint_digits d :
  all_class class_d (NilEmpty.string_of_uint d) = true.
Proof. induction d; simpl; done. Qed.

Lemma str_of_N_decimal n : is_decimal (str_of_N n) = true.
Proof.
  unfold str_of_N, NilZero.string_of_uint.
  destruct (N.to_uint n) eqn:E; try done;
    simpl; apply string_of_uint_digits.
Qed.

Lemma str_of_N_digit n :
  (n < 10)%N → ∃ d, str_of_N n = String d "" ∧ class_d d = true.
Proof.
  intros Hn.
  assert (n = 0 ∨ n = 1 ∨ n = 2 ∨ n = 3 ∨ n = 4 ∨ n = 5 ∨ n = 6 ∨ n = 7
          ∨ n = 8 ∨ n = 9)%N as H by lia.
  destruct_or!; subst; eexists; split; reflexivity.
Qed.

Lemma format_1f_tab_free x : tab_free (format_1f x) = true.
Proof.
  destruct x as [[]|[]| |s m e]; try done. unfold format_1f, tab_free.
  rewrite !all_class_app.
  pose proof (str_of_N_decimal (Z.to_N (tenths m e / 10))) as H1.
  pose proof (str_of_N_decimal (Z.to_N (tenths m e `mod` 10))) as H2.
  apply is_decimal_tab_free in H1, H2. unfold tab_free in H1, H2.
  rewrite H1, H2. by destruct s.
Qed.

Lemma digits_point_digit_app ip d :
  all_class class_d ip = true → class_d d = true →
  digits_point_digit (ip +:+ "." +:+ String d "") = true.
Proof.
  intros Hip Hd. induction ip as [|a ip IH]; simpl.
  - by rewrite Hd.
  - simpl in Hip. apply andb_true_iff in Hip as [-> Hip]. by apply IH.
Qed.

Lemma is_one_decimal_intro sgn ip d :
  is_decimal ip = true → class_d d = true →
  is_one_decimal (sign_str sgn +:+ ip +:+ "." +:+ String d "") = true.
Proof.
  destruct ip as [|a ip]; [done|]. intros Hip Hd.
  pose proof (digits_point_digit_app (String a ip) d Hip Hd) as Hdpd.
  simpl in Hip. apply andb_true_iff in Hip as [Ha _].
  change (String a ip +:+ "." +:+ String d "")
    with (String a (ip +:+ "." +:+ String d "")) in *.
  destruct sgn.
  - change (is_one_decimal _) with
      (class_d a && digits_point_digit (String a (ip +:+ "." +:+ String d ""))).
    by rewrite Ha, Hdpd.
  - unfold is_one_decimal, sign_str.
    change ("" +:+ String a ?s) with (String a s). cbv beta iota.
    assert (Ascii.eqb a "-" = false) as -> by (apply Ascii.eqb_neq; by intros ->).
    by rewrite Ha, Hdpd.
Qed.

Lemma format_1f_one_decimal x :
  is_finite x = true → is_one_decimal (format_1f x) = true.
Proof.
  destruct x as [[]|[]| |s m e]; try done. intros _. unfold format_1f.
  destruct (str_of_N_digit (Z.to_N (tenths m e `mod` 10))) as (d & -> & Hd).
  { pose proof (Z.mod_pos_bound (tenths m e) 10). lia. }
  apply is_one_decimal_intro; [apply str_of_N_decimal|done].
Qed.

(** The nine fields of the line printed for a group. *)
Lemma format_item_fields key its line :
  format_item key its = Ok line →
  tab_free key.1.1 = true → tab_free key.1.2 = true → tab_free key.2 = true →
  ∃ avg_parse avg_build avg_send avg_wait avg_total,
    mean (map parse its) = Ok avg_parse ∧
    mean (map build its) = Ok avg_build ∧
    mean (map send its) = Ok avg_send ∧
    mean (map wait its) = Ok avg_wait ∧
    mean (map total its) = Ok avg_total ∧
    split_on "009" line =
      [key.1.1; key.1.2; key.2; str_of_N (N.of_nat (length its));
       format_1f avg_parse; format_1f avg_build; format_1f avg_send;
       format_1f avg_wait; format_1f avg_total].
Proof.
  unfold format_item. intros Hline H1 H2 H3.
  apply bind_Ok in Hline as (ap & Hap & Hline).
  apply bind_Ok in Hline as (ab & Hab & Hline).
  apply bind_Ok in Hline as (a_s & Has & Hline).
  apply bind_Ok in Hline as (aw & Haw & Hline).
  apply bind_Ok in Hline as (at' & Hat & [= <-]).
  exists ap, ab, a_s, aw, at'. split_and!; try done.
  unfold tab. simpl.
  rewrite !split_on_app;
    try first [done | apply format_1f_tab_free
              | apply is_decimal_tab_free, str_of_N_decimal].
  rewrite split_on_free; [done|apply format_1f_tab_free].
Qed.

Lemma parsed_tokens lines rows r :
  parsed lines rows → In r rows →
  tab_free (table r) = true ∧ tab_free (mode r) = true ∧
  tab_free (op r) = true.
Proof.
  intros Hp (line & d & _ & Hs & Hr)%(parsed_In_row _ _ _ Hp).
  destruct (search_make_row _ _ _ Hs Hr)
    as [pre post t mo o p b s w tt _ _ Ht Hmo Ho _ _ _ _ _ <- <- <- _ _ _ _ _].
  by split_and!; apply is_token_tab_free.
Qed.

Lemma report_lines lines rows :
  parse_lines lines [] = Ok rows → rows ≠ [] →
  ∃ body,
    summarize rows =
      ("Averages by (table, mode, op):" :: header :: body, Ok ()) ∧
    Forall2 group_line (report_items rows) body.
Proof.
  intros (new & -> & Hp)%parse_lines_parsed Hne. simpl in *.
  destruct (summarize_rows new Hne) as (body & Hsum & Hall).
  exists body. split; [done|].
  assert (Forall (fun item : group_key * list row =>
            tab_free item.1.1.1 = true ∧ tab_free item.1.1.2 = true ∧
            tab_free item.1.2 = true) (report_items new)) as Htok.
  { apply Forall_forall. intros [k its] Hin%list_elem_of_In.
    assert (In k (map fst (report_items new))) as (r & Hr & <-)%report_items_keys.
    { apply in_map_iff. by exists (k, its). }
    by apply (parsed_tokens lines new). }
  clear Hsum. revert Htok.
  induction Hall as [|item line items body' Hline _ IH]; intros Htok;
    [constructor|].
  apply Forall_cons in Htok as [(H1 & H2 & H3) Htok].
  constructor; [|by apply IH].
  destruct (format_item_fields _ _ _ Hline H1 H2 H3)
    as (ap & ab & a_s & aw & at' & ? & ? & ? & ? & ? & Hsplit).
  exists [ap; ab; a_s; aw; at']. split; [by repeat constructor|done].
Qed.

Lemma group_line_keys items body :
  Forall2 group_line items body →
  map (fun l => take 3 (split_on "009" l)) body = map key_fields (map fst items).
Proof.
  induction 1 as [|item line items body (avgs & _ & Hsplit) _ IH]; [done|].
  simpl. by rewrite IH, Hsplit.
Qed.

(** ** Values: the number printed for a float, and the mean *)

Lemma round_half_even_close p q :
  0 < q → 2 * Z.abs (round_half_even p q * q - p) ≤ q.
Proof.
  intros Hq. unfold round_half_even.
  pose proof (Z.div_mod p q ltac:(lia)) as Hdm.
  pose proof (Z.mod_pos_bound p q Hq) as Hr.
  destruct (Z.compare_spec (2 * (p `mod` q)) q) as [E|E|E];
    [destruct (Z.even (p / q))| |]; nia.
Qed.

Lemma Qpower_2_pos (k : positive) : (2 ^ Zpos k == inject_Z (Zpos (2 ^ k)))%Q.
Proof.
  rewrite Pos2Z.inj_pow. rewrite Zpower_Qpower by lia. reflexivity.
Qed.

Lemma tenths_close m e :
  (Qabs ((tenths m e # 10) - inject_Z (Zpos m) * 2 ^ e) <= 1 # 20)%Q.
Proof.
  apply Qabs_Qle_condition.
  destruct e as [|k|k]; unfold tenths.
  - unfold Qle, Qminus, Qplus, Qopp, Qmult, Qinv, inject_Z. simpl. lia.
  - rewrite Qpower_2_pos, <- Pos2Z.inj_pow.
    unfold Qle, Qminus, Qplus, Qopp, Qmult, Qinv, inject_Z. simpl. lia.
  - change (2 ^ Z.neg k)%Q with (/ (2 ^ Z.pos k))%Q. rewrite Qpower_2_pos.
    pose proof (round_half_even_close (10 * Z.pos m) (2 ^ Z.pos k) ltac:(lia)) as H.
    rewrite <- Pos2Z.inj_pow in *.
    set (t := round_half_even _ _) in *. set (P := (2 ^ k)%positive) in *.
    unfold Qle, Qminus, Qplus, Qopp, Qmult, Qinv, inject_Z. simpl.
    split; lia.
Qed.

Lemma printed_close x : (Qabs (printed_Q x - float_Q x) <= 1 # 20)%Q.
Proof.
  destruct x as [| | |s m e]; try done. unfold printed_Q, float_Q.
  pose proof (tenths_close m e) as H. destruct s.
  - rewrite <- Qabs_opp.
    assert (- (-1 * (tenths m e # 10) - -1 * (inject_Z (Z.pos m) * 2 ^ e)) ==
            (tenths m e # 10) - inject_Z (Z.pos m) * 2 ^ e)%Q as -> by ring.
    done.
  - assert (1 * (tenths m e # 10) - 1 * (inject_Z (Z.pos m) * 2 ^ e) ==
            (tenths m e # 10) - inject_Z (Z.pos m) * 2 ^ e)%Q as -> by ring.
    done.
Qed.

Lemma Qpower_2_split (a b : Z) : a ≤ b → (2 ^ b == inject_Z (2 ^ (b - a)) * 2 ^ a)%Q.
Proof.
  intros Hab. rewrite Zpower_Qpower by lia. rewrite <- Qpower_plus by done.
  by replace (b - a + a) with b by lia.
Qed.

Lemma exact_add_Q acc x : (pair_Q (exact_add acc x) == pair_Q acc + float_Q x)%Q.
Proof.
  destruct acc as [m e].
  destruct x as [| | |s mx ex]; cbn [exact_add float_Q]; try ring.
  unfold pair_Q. cbn [fst snd].
  rewrite (Qpower_2_split (Z.min e ex) e), (Qpower_2_split (Z.min e ex) ex) by lia.
  rewrite inject_Z_plus, !inject_Z_mult.
  generalize (2 ^ (e `min` ex))%Q (inject_Z (2 ^ (e - e `min` ex)))
    (inject_Z (2 ^ (ex - e `min` ex))). intros u v w.
  destruct s; cbn [cond_Zopp]; [rewrite inject_Z_opp|]; ring.
Qed.

Lemma exact_sum_Q xs : (pair_Q (exact_sum xs) == sum_Q xs)%Q.
Proof.
  unfold exact_sum.
  enough (∀ acc, pair_Q (fold_left exact_add xs acc) == pair_Q acc + sum_Q xs)%Q as H.
  { rewrite H. unfold pair_Q. simpl. ring. }
  induction xs as [|x xs IH]; intros acc; simpl.
  - ring.
  - rewrite IH, exact_add_Q. ring.
Qed.

Lemma filter_not_finite xs :
  forallb is_finite xs = true →
  List.filter (fun x => negb (is_finite x)) xs = [].
Proof.
  induction xs as [|y ys IH]; simpl; [done|].
  intros [-> ?]%andb_true_iff. simpl. by apply IH.
Qed.

Lemma mean_finite xs v :
  mean xs = Ok v → forallb is_finite xs = true →
  v = float_of_ratio (exact_sum xs).1 (exact_sum xs).2
        (Pos.of_nat (length xs)).
Proof.
  unfold mean. destruct xs as [|x xs]; [done|]. intros Hm Hfin.
  rewrite (filter_not_finite _ Hfin) in Hm.
  destruct (exact_sum (x :: xs)). by injection Hm as <-.
Qed.

Lemma digits_value_acc d acc :
  digits_value (Zpos acc) (NilEmpty.string_of_uint d) =
  Zpos (Pos.of_uint_acc d acc).
Proof.
  revert acc. induction d; intros acc; simpl; try done;
    unfold digit_value; simpl; rewrite <- IHd; f_equal; lia.
Qed.

Lemma digits_value_uint d :
  digits_value 0 (NilEmpty.string_of_uint d) = Z.of_N (Pos.of_uint d).
Proof.
  induction d; simpl; try done; apply digits_value_acc.
Qed.

Lemma digits_value_str_of_N n : digits_value 0 (str_of_N n) = Z.of_N n.
Proof.
  unfold str_of_N, NilZero.string_of_uint.
  rewrite <- (DecimalN.Unsigned.of_to n) at 2. unfold N.of_uint.
  destruct (N.to_uint n) eqn:E; try apply digits_value_uint. done.
Qed.

Lemma digit_value_nonneg c : class_d c = true → 0 ≤ digit_value c.
Proof.
  unfold class_d, digit_value. intros [H _]%andb_true_iff.
  apply N.leb_le in H. lia.
Qed.

Lemma digits_value_nonneg s acc :
  all_class class_d s = true → 0 ≤ acc → 0 ≤ digits_value acc s.
Proof.
  revert acc. induction s as [|c s IH]; intros acc; simpl; [done|].
  intros [Hc Hs]%andb_true_iff Hacc. apply IH; [done|].
  pose proof (digit_value_nonneg c Hc). lia.
Qed.

(** A text of digits reads as the integer that [int] and [float] take it
    for. *)
Lemma is_decimal_uint s :
  all_class class_d s = true → ∃ d, NilEmpty.uint_of_string s = Some d.
Proof.
  induction s as [|a s IH]; simpl; [by eexists|].
  intros [Ha Hs]%andb_true_iff. destruct (IH Hs) as (d & ->).
  destruct a as [[] [] [] [] [] [] [] []]; try discriminate Ha;
    simpl; by eexists.
Qed.

Lemma decimal_value_digits s :
  all_class class_d s = true → decimal_value s = Some (digits_value 0 s).
Proof.
  intros H. destruct (is_decimal_uint s H) as (d & Hd).
  unfold decimal_value. rewrite Hd. f_equal.
  pose proof (NilEmpty.sus s) as Hs. rewrite Hd in Hs.
  rewrite <- (Hs d eq_refl). by rewrite digits_value_uint.
Qed.

Lemma decimal_value_str_of_N n : decimal_value (str_of_N n) = Some (Z.of_N n).
Proof.
  rewrite decimal_value_digits by apply is_decimal_all, str_of_N_decimal.
  by rewrite digits_value_str_of_N.
Qed.

Lemma tenths_nonneg m e : 0 ≤ tenths m e.
Proof.
  destruct e as [|k|k]; unfold tenths; [lia|lia|]. unfold round_half_even.
  assert (0 ≤ 10 * Z.pos m / 2 ^ Z.pos k) by (apply Z.div_pos; lia).
  destruct (_ ?= _); [destruct (Z.even _)| |]; lia.
Qed.

Lemma class_d_not_point c : class_d c = true → negb (Ascii.eqb c ".") = true.
Proof. by destruct (Ascii.eqb_spec c ".") as [->|]. Qed.

Lemma decimal_Q_intro (sgn : bool) ip d :
  is_decimal ip = true → class_d d = true →
  decimal_Q (sign_str sgn +:+ ip +:+ "." +:+ String d "") =
  Some (Qmake ((if sgn then -1 else 1)
               * (10 * digits_value 0 ip + digit_value d)) 10).
Proof.
  intros Hip Hd.
  assert (split_on "." (ip +:+ "." +:+ String d "") = [ip; String d ""]) as Hs.
  { change ("." +:+ String d "") with (String "." (String d "")).
    rewrite split_on_app.
    - rewrite split_on_free; [done|]. simpl.
      by rewrite (class_d_not_point _ Hd).
    - destruct ip; [done|]. eapply all_class_impl, Hip. apply class_d_not_point. }
  pose proof (decimal_value_digits ip (is_decimal_all _ Hip)) as Hvi.
  assert (decimal_value (String d "") = Some (digit_value d)) as Hvd.
  { rewrite decimal_value_digits by (simpl; by rewrite Hd). done. }
  destruct sgn.
  - change (decimal_Q _) with
      (match split_on "." (ip +:+ "." +:+ String d "") with
       | [ip; String d EmptyString] =>
           match decimal_value ip, decimal_value (String d EmptyString) with
           | Some i, Some f => Some (Qmake (-1 * (10 * i + f)) 10)
           | _, _ => None
           end
       | _ => None
       end).
    by rewrite Hs, Hvi, Hvd.
  - destruct ip as [|a ip]; [done|]. unfold decimal_Q, sign_str.
    change ("" +:+ String a ip +:+ ?s) with (String a (ip +:+ s)).
    cbv beta iota.
    assert (Ascii.eqb a "-" = false) as ->.
    { apply Ascii.eqb_neq. intros ->. simpl in Hip. done. }
    change (String a (ip +:+ ?s)) with (String a ip +:+ s).
    by rewrite Hs, Hvi, Hvd.
Qed.

(** The text printed for a finite float reads back as a number within half a
    tenth of the float. *)
Lemma format_1f_close x :
  is_finite x = true →
  ∃ q, decimal_Q (format_1f x) = Some q ∧
    (Qabs (q - float_Q x) <= 1 # 20)%Q.
Proof.
  destruct x as [[]| | |s m e]; try done; intros _.
  - eexists. split; [reflexivity|done].
  - eexists. split; [reflexivity|done].
  - unfold format_1f.
    pose proof (tenths_nonneg m e) as Hnn.
    pose proof (Z.mod_pos_bound (tenths m e) 10 ltac:(lia)) as Hmod.
    destruct (str_of_N_digit (Z.to_N (tenths m e `mod` 10))) as (d & Hd & Hcd);
      [lia|].
    pose proof (digits_value_str_of_N (Z.to_N (tenths m e `mod` 10))) as Hv.
    rewrite Hd in *. simpl in Hv. 
    rewrite decimal_Q_intro by (done || apply str_of_N_decimal).
    eexists. split; [reflexivity|].
    rewrite digits_value_str_of_N.
    pose proof (printed_close (S754_finite s m e)) as Hc.
    assert (Qmake ((if s then -1 else 1) * (10 * Z.of_N (Z.to_N (tenths m e / 10)) + digit_value d)) 10
            == printed_Q (S754_finite s m e))%Q as ->; [|done].
    unfold printed_Q. rewrite Z2N.id by (apply Z.div_pos; lia).
    assert (digit_value d = tenths m e `mod` 10) as -> by lia.
    rewrite <- (Z.div_mod (tenths m e) 10) by lia.
    destruct s; unfold Qeq, Qmult; simpl; lia.
Qed.

(** ** Rounding: binary64 against the rationals

    [binary_round_aux] rounds to nearest, ties to even: the float it yields
    for a number is within half a unit in the last place of the number, and
    is the infinity only from [overflow_threshold] on.  The conversion of an
    integer and the division are instances. *)

(** The number of binary digits of a positive integer. *)
Lemma digits2_pos_bounds p :
  2 ^ (Zpos (digits2_pos p) - 1) ≤ Zpos p < 2 ^ Zpos (digits2_pos p).
Proof.
  induction p as [p IH|p IH|]; simpl digits2_pos.
  - rewrite Pos2Z.inj_succ, (Pos2Z.inj_xI p).
    replace (Z.succ (Zpos (digits2_pos p)) - 1)
      with (Z.succ (Zpos (digits2_pos p) - 1)) by lia.
    rewrite !Z.pow_succ_r by lia.
    revert IH. generalize (2 ^ (Zpos (digits2_pos p) - 1)) (2 ^ Zpos (digits2_pos p)).
    lia.
  - rewrite Pos2Z.inj_succ, (Pos2Z.inj_xO p).
    replace (Z.succ (Zpos (digits2_pos p)) - 1)
      with (Z.succ (Zpos (digits2_pos p) - 1)) by lia.
    rewrite !Z.pow_succ_r by lia.
    revert IH. generalize (2 ^ (Zpos (digits2_pos p) - 1)) (2 ^ Zpos (digits2_pos p)).
    lia.
  - done.
Qed.

Lemma Zdigits2_bounds m :
  0 < m → 2 ^ (Zdigits2 m - 1) ≤ m < 2 ^ Zdigits2 m.
Proof. destruct m as [|p|p]; [lia| |lia]. intros _. apply digits2_pos_bounds. Qed.

Lemma Zdigits2_nonneg m : 0 ≤ Zdigits2 m.
Proof. by destruct m. Qed.

Lemma Zdigits2_pos m : 0 < m → 0 < Zdigits2 m.
Proof. destruct m; simpl; lia. Qed.

Lemma Zdigits2_unique m d :
  0 < d → 2 ^ (d - 1) ≤ m < 2 ^ d → Zdigits2 m = d.
Proof.
  intros Hd [H1 H2].
  assert (0 < m) as Hm by (pose proof (Z.pow_pos_nonneg 2 (d - 1)); lia).
  pose proof (Zdigits2_bounds m Hm) as [B1 B2].
  pose proof (Zdigits2_pos m Hm) as Hp.
  assert (Zdigits2 m - 1 < d) as L1.
  { apply (Z.pow_lt_mono_r_iff 2); lia. }
  assert (d - 1 < Zdigits2 m) as L2.
  { apply (Z.pow_lt_mono_r_iff 2); lia. }
  lia.
Qed.

Lemma Zdigits2_le m k : 0 ≤ m → 0 ≤ k → m < 2 ^ k → Zdigits2 m ≤ k.
Proof.
  intros Hm Hk H. destruct (Z.eq_dec m 0) as [->|Hne]; [simpl; lia|].
  pose proof (Zdigits2_bounds m ltac:(lia)) as [B1 _].
  pose proof (Zdigits2_pos m ltac:(lia)) as Hp.
  assert (Zdigits2 m - 1 < k); [|lia].
  apply (Z.pow_lt_mono_r_iff 2); lia.
Qed.

Lemma Zdigits2_ge m k : 0 ≤ k → 2 ^ k ≤ m → k < Zdigits2 m.
Proof.
  intros Hk H.
  assert (0 < m) as Hm by (pose proof (Z.pow_pos_nonneg 2 k); lia).
  pose proof (Zdigits2_bounds m Hm) as [_ B2].
  apply (Z.pow_lt_mono_r_iff 2); [lia|apply Zdigits2_nonneg|lia].
Qed.

(** One step to the right *)
Lemma shr_1_inbetween mrs N D :
  0 < D → 0 ≤ shr_m mrs →
  inbetween (shr_m mrs) (loc_of_shr_record mrs) N D →
  0 ≤ shr_m (shr_1 mrs) ∧
  2 * shr_m (shr_1 mrs) ≤ shr_m mrs < 2 * shr_m (shr_1 mrs) + 2 ∧
  inbetween (shr_m (shr_1 mrs)) (loc_of_shr_record (shr_1 mrs)) N (2 * D).
Proof.
  destruct mrs as [[|[p|p|]|p] [] []]; simpl; unfold inbetween;
    rewrite ?(Pos2Z.inj_xI p), ?(Pos2Z.inj_xO p); lia.
Qed.

(** And any number of steps. *)
Lemma iter_shr_1_inbetween p mrs N D :
  0 < D → 0 ≤ shr_m mrs →
  inbetween (shr_m mrs) (loc_of_shr_record mrs) N D →
  let mrs' := SpecFloat.iter_pos shr_1 p mrs in
  0 ≤ shr_m mrs' ∧
  shr_m mrs' * 2 ^ Zpos p ≤ shr_m mrs < (shr_m mrs' + 1) * 2 ^ Zpos p ∧
  inbetween (shr_m mrs') (loc_of_shr_record mrs') N (D * 2 ^ Zpos p).
Proof.
  revert mrs D. induction p as [p IH|p IH|]; intros mrs D HD Hm Hin; simpl.
  - destruct (shr_1_inbetween mrs N D HD Hm Hin) as (H0 & H1 & H2).
    pose proof (Z.pow_pos_nonneg 2 (Zpos p) ltac:(lia) ltac:(lia)) as HP.
    destruct (IH _ (2 * D) ltac:(lia) H0 H2) as (H3 & H4 & H5).
    destruct (IH _ (2 * D * 2 ^ Zpos p) ltac:(nia) H3 H5) as (H6 & H7 & H8).
    rewrite (Pos2Z.inj_xI p).
    replace (2 * Zpos p + 1) with (Z.succ (Zpos p + Zpos p)) by lia.
    rewrite Z.pow_succ_r, Z.pow_add_r by lia.
    set (P := 2 ^ Zpos p) in *.
    split; [done|]. split; [nia|].
    replace (D * (2 * (P * P))) with (2 * D * P * P) by ring. done.
  - pose proof (Z.pow_pos_nonneg 2 (Zpos p) ltac:(lia) ltac:(lia)) as HP.
    destruct (IH _ D HD Hm Hin) as (H3 & H4 & H5).
    destruct (IH _ (D * 2 ^ Zpos p) ltac:(nia) H3 H5) as (H6 & H7 & H8).
    rewrite (Pos2Z.inj_xO p).
    replace (2 * Zpos p) with (Zpos p + Zpos p) by lia.
    rewrite Z.pow_add_r by lia.
    set (P := 2 ^ Zpos p) in *.
    split; [done|]. split; [nia|].
    replace (D * (P * P)) with (D * P * P) by ring. done.
  - destruct (shr_1_inbetween mrs N D HD Hm Hin) as (H0 & H1 & H2).
    change (2 ^ 1) with 2. split; [done|]. split; [lia|].
    by replace (D * 2) with (2 * D) by ring.
Qed.

Lemma loc_of_record_of_loc m l :
  loc_of_shr_record (shr_record_of_loc m l) = l ∧
  shr_m (shr_record_of_loc m l) = m.
Proof. by destruct l as [|[]]. Qed.

(** Shifting a mantissa to the exponent of the format keeps track of where
    the number lies. *)
Lemma shr_fexp_spec m e l N D :
  0 < D → 0 ≤ m → inbetween m l N D →
  e ≤ fexp prec emax (Zdigits2 m + e) →
  ∃ mrs,
    shr_fexp prec emax m e l = (mrs, fexp prec emax (Zdigits2 m + e)) ∧
    0 ≤ shr_m mrs ∧
    shr_m mrs * 2 ^ (fexp prec emax (Zdigits2 m + e) - e) ≤ m
      < (shr_m mrs + 1) * 2 ^ (fexp prec emax (Zdigits2 m + e) - e) ∧
    inbetween (shr_m mrs) (loc_of_shr_record mrs) N
      (D * 2 ^ (fexp prec emax (Zdigits2 m + e) - e)).
Proof.
  intros HD Hm Hin HE. unfold shr_fexp, shr.
  set (E := fexp prec emax (Zdigits2 m + e)) in *.
  destruct (loc_of_record_of_loc m l) as [Hl Hm'].
  destruct (E - e) as [|p|p] eqn:Hn; [| |lia].
  - exists (shr_record_of_loc m l). rewrite Hl, Hm'.
    replace e with E by lia. rewrite Z.pow_0_r, !Z.mul_1_r.
    split_and!; try done; lia.
  - destruct (iter_shr_1_inbetween p (shr_record_of_loc m l) N D)
      as (H0 & H1 & H2); [done|by rewrite Hm'|by rewrite Hl, Hm'|].
    rewrite Hm' in H1.
    eexists. split; [f_equal; lia|]. done.
Qed.

(** Rounding to nearest, ties to even, moves by half a unit at most. *)
Lemma round_nearest_even_spec m l N D :
  0 < D → inbetween m l N D →
  m ≤ round_nearest_even m l ≤ m + 1 ∧
  - D ≤ 2 * (round_nearest_even m l * D - N) ≤ D.
Proof.
  intros HD. destruct l as [|[]]; simpl; unfold inbetween;
    try destruct (Z.even m); lia.
Qed.

(** The two roundings of [binary_round_aux], in integers: the mantissa [m1]
    at the exponent [E] of the format is within half a unit of [N / D * 2^e],
    and the float is the one of [m1] and [E]. *)
Lemma binary_round_aux_spec m e l N D :
  0 < D → 0 ≤ m → inbetween m l N D →
  e ≤ fexp prec emax (Zdigits2 m + e) →
  ∃ m1,
    0 ≤ m1 ∧
    - (D * 2 ^ (fexp prec emax (Zdigits2 m + e) - e))
      ≤ 2 * (m1 * (D * 2 ^ (fexp prec emax (Zdigits2 m + e) - e)) - N)
      ≤ D * 2 ^ (fexp prec emax (Zdigits2 m + e) - e) ∧
    (971 ≤ fexp prec emax (Zdigits2 m + e) →
     2 ^ 52 * (D * 2 ^ (fexp prec emax (Zdigits2 m + e) - e)) ≤ N) ∧
    rounded m1 (fexp prec emax (Zdigits2 m + e))
      (binary_round_aux prec emax false m e l).
Proof.
  intros HD Hm Hin HE.
  destruct (shr_fexp_spec m e l N D HD Hm Hin HE)
    as (mrs & Hshr & Hm0 & Hfloor & Hin0).
  set (E := fexp prec emax (Zdigits2 m + e)) in *.
  assert (0 < 2 ^ (E - e)) as HP by (apply Z.pow_pos_nonneg; lia).
  set (P := 2 ^ (E - e)) in *.
  destruct (round_nearest_even_spec _ _ N (D * P) ltac:(nia) Hin0)
    as (Hm1 & Herr).
  set (m0 := shr_m mrs) in *.
  set (m1 := round_nearest_even m0 (loc_of_shr_record mrs)) in *.
  exists m1. split; [lia|]. split; [done|].
  assert (- 1074 ≤ E) as HEmin.
  { unfold E, fexp, SpecFloat.emin, prec, emax. lia. }
  assert (m0 * (D * P) ≤ N) as Hlow.
  { revert Hin0. fold m0. unfold inbetween.
    destruct (loc_of_shr_record mrs) as [|[]]; nia. }
  unfold binary_round_aux. rewrite Hshr. fold m0 m1.
  destruct (Z_lt_le_dec (Zdigits2 m + e - 53) (- 1074)) as [Hsub|Hnorm].
  - (* the exponent is the least one: the mantissa is below 2^52 *)
    assert (E = - 1074) as HEeq.
    { unfold E, fexp, SpecFloat.emin, prec, emax. lia. }
    assert (m0 < 2 ^ 52) as Hsmall.
    { destruct (Z.eq_dec m 0) as [->|Hne]; [nia|].
      pose proof (Zdigits2_bounds m ltac:(lia)) as [_ B].
      assert (2 ^ Zdigits2 m ≤ 2 ^ 52 * P); [|nia].
      unfold P. rewrite <- Z.pow_add_r by lia.
      apply Z.pow_le_mono_r; lia. }
    assert (Zdigits2 m1 ≤ 53) as Hd1.
    { apply Zdigits2_le; lia. }
    pose proof (Zdigits2_nonneg m1) as Hd0.
    unfold shr_fexp, shr.
    assert (fexp prec emax (Zdigits2 m1 + E) - E = 0) as ->.
    { unfold fexp, SpecFloat.emin, prec, emax. lia. }
    split; [lia|].
    simpl. destruct m1 as [|p|p] eqn:E1; [by left| |lia].
    right. left. rewrite HEeq. simpl. split_and!; try done; lia.
  - assert (0 < m) as Hpos.
    { destruct (Z.eq_dec m 0) as [->|Hne]; [|lia]. simpl in *.
      unfold E, fexp, SpecFloat.emin, prec, emax in HE. simpl in HE. lia. }
    assert (E = Zdigits2 m + e - 53) as HEeq.
    { unfold E, fexp, SpecFloat.emin, prec, emax. lia. }
    pose proof (Zdigits2_bounds m Hpos) as [B1 B2].
    assert (2 ^ 52 ≤ m0 < 2 ^ 53) as Hrange.
    { assert (2 ^ Zdigits2 m = 2 ^ 53 * P) as EP.
      { unfold P. rewrite <- Z.pow_add_r by lia. f_equal. lia. }
      assert (2 ^ (Zdigits2 m - 1) = 2 ^ 52 * P) as EP'.
      { unfold P. rewrite <- Z.pow_add_r by lia. f_equal. lia. }
      nia. }
    split; [intros _; nia|].
    destruct (Z.eq_dec m1 (2 ^ 53)) as [Htop|Hnottop].
    + rewrite Htop. unfold shr_fexp, shr.
      assert (Zdigits2 (2 ^ 53) = 54) as -> by done.
      assert (fexp prec emax (54 + E) - E = 1) as ->.
      { unfold fexp, SpecFloat.emin, prec, emax. lia. }
      simpl. destruct (Z.leb_spec (E + 1) (emax - prec)) as [Hle|Hgt];
        unfold emax, prec in *.
      * right. right. left. split_and!; try done; lia.
      * right. right. right. split_and!; try done; lia.
    + assert (Zdigits2 m1 = 53) as Hd1.
      { apply Zdigits2_unique; lia. }
      unfold shr_fexp, shr. rewrite Hd1.
      assert (fexp prec emax (53 + E) - E = 0) as ->.
      { unfold fexp, SpecFloat.emin, prec, emax. lia. }
      simpl. destruct m1 as [|p|p] eqn:E1; [lia| |lia].
      destruct (Z.leb_spec E (emax - prec)) as [Hle|Hgt];
        unfold emax, prec in *.
      * right. left. split_and!; try done; lia.
      * right. right. right. split_and!; try done; lia.
Qed.

Local Open Scope Q_scope.

Lemma Qpow2_pos (e : Z) : 0 < 2 ^ e.
Proof. apply Qpower_0_lt. reflexivity. Qed.

Lemma Qpow2_add (a b : Z) : 2 ^ (a + b) == 2 ^ a * 2 ^ b.
Proof. apply Qpower_plus. discriminate. Qed.

Lemma Qpow2_Z (k : Z) : (0 <= k)%Z → 2 ^ k == inject_Z (2 ^ k).
Proof. intros H. by rewrite Zpower_Qpower. Qed.

Lemma Qpow2_le (a b : Z) : (a <= b)%Z → 2 ^ a <= 2 ^ b.
Proof.
  intros H. rewrite (Qpower_2_split a b H).
  assert (1 <= inject_Z (2 ^ (b - a))) as H1.
  { change 1 with (inject_Z 1). rewrite <- Zle_Qle. pose proof (Z.pow_pos_nonneg 2 (b - a)). lia. }
  pose proof (Qpow2_pos a). nra.
Qed.

Lemma Qpow2_succ (a : Z) : 2 ^ (a + 1) == 2 * 2 ^ a.
Proof. rewrite Qpow2_add. change (2 ^ 1) with 2. ring. Qed.

Lemma max_float_eq : max_float == inject_Z (2 ^ 53 - 1) * 2 ^ 971.
Proof. unfold max_float. rewrite inject_Z_mult, (Qpow2_Z 971); [reflexivity|done]. Qed.

(** The value of the float that rounding yields. *)
Lemma rounded_value m1 E r :
  (0 <= m1)%Z → rounded m1 E r →
  (r = S754_infinity false ∧ (2 ^ 52 <= m1)%Z ∧
   (971 < E ∨ (m1 = 2 ^ 53 ∧ E = 971))%Z) ∨
  (is_finite r = true ∧ nonneg r = true ∧ float_Q r <= max_float ∧
   float_Q r == inject_Z m1 * 2 ^ E).
Proof.
  intros Hm [[-> ->]|[(Hr & HE & ->)|[(-> & HE & ->)|(Hr & HE & ->)]]].
  - right. split_and!; try done; simpl; ring.
  - right. split_and!; try done; simpl; rewrite Z2Pos.id by lia; [|ring].
    rewrite max_float_eq.
    assert (inject_Z m1 <= inject_Z (2 ^ 53 - 1)) as H1
      by (rewrite <- Zle_Qle; lia).
    assert (0 <= inject_Z m1) as H0
      by (change 0 with (inject_Z 0); rewrite <- Zle_Qle; lia).
    pose proof (Qpow2_le E 971 HE). pose proof (Qpow2_pos E). nra.
  - right. split_and!; try done; cbn [float_Q].
    + rewrite max_float_eq.
      pose proof (Qpow2_le (E + 1) 971 ltac:(lia)).
      pose proof (Qpow2_pos (E + 1)).
      change (inject_Z (2 ^ 53 - 1)) with (9007199254740991 # 1).
      change (inject_Z 4503599627370496) with (4503599627370496 # 1). nra.
    + rewrite Qpow2_succ.
      change (inject_Z (2 ^ 53)) with (9007199254740992 # 1).
      change (inject_Z 4503599627370496) with (4503599627370496 # 1). ring.
  - left. done.
Qed.

Lemma inject_Z_sub (a b : Z) : inject_Z (a - b) == inject_Z a - inject_Z b.
Proof. unfold Z.sub. by rewrite inject_Z_plus, inject_Z_opp. Qed.

Lemma round_error_Q (m1 N D P : Z) (u : Q) :
  (0 < D)%Z → (0 < P)%Z → 0 < u →
  (- (D * P) <= 2 * (m1 * (D * P) - N) <= D * P)%Z →
  Qabs (inject_Z m1 * (inject_Z P * u) - inject_Z N / inject_Z D * u)
    <= (1 # 2) * (inject_Z P * u).
Proof.
  intros HD HP Hu [H1 H2].
  rewrite Zle_Qle in H1, H2.
  rewrite inject_Z_mult, inject_Z_opp, inject_Z_sub, !inject_Z_mult in H1.
  rewrite inject_Z_mult, inject_Z_sub, !inject_Z_mult in H2.
  assert (0 < inject_Z D) as HD'
    by (change 0 with (inject_Z 0); rewrite <- Zlt_Qlt; lia).
  assert (0 < inject_Z P) as HP'
    by (change 0 with (inject_Z 0); rewrite <- Zlt_Qlt; lia).
  change (inject_Z 2) with 2 in *.
  set (a := inject_Z m1) in *. set (n := inject_Z N) in *.
  set (d := inject_Z D) in *. set (p := inject_Z P) in *.
  assert (n / d * d == n) as Hq by (field; lra).
  set (q := n / d) in *.
  assert (q * u * d == n * u) as Hq' by (rewrite <- Hq; ring).
  assert (0 <= u * (2 * (a * (d * p) - n) + d * p)) as G1
    by (apply Qmult_le_0_compat; lra).
  assert (0 <= u * (d * p - 2 * (a * (d * p) - n))) as G2
    by (apply Qmult_le_0_compat; lra).
  apply Qabs_Qle_condition. split.
  - apply (Qmult_le_r _ _ d HD'). nra.
  - apply (Qmult_le_r _ _ d HD'). nra.
Qed.

Lemma overflow_threshold_eq :
  overflow_threshold == inject_Z (2 ^ 54 - 1) * 2 ^ 970.
Proof.
  unfold overflow_threshold. rewrite (Qpow2_Z 970), <- inject_Z_mult by done.
  by vm_compute.
Qed.

Lemma inject_Z_pos (a : Z) : (0 < a)%Z → 0 < inject_Z a.
Proof. intros H. change 0 with (inject_Z 0). by rewrite <- Zlt_Qlt. Qed.

Lemma inject_Z_nonneg (a : Z) : (0 <= a)%Z → 0 <= inject_Z a.
Proof. intros H. change 0 with (inject_Z 0). by rewrite <- Zle_Qle. Qed.

(** The exact quotient [N / D] lies above what the integers say. *)
Lemma quotient_ge (c N D : Z) :
  (0 < D)%Z → (c * D <= N)%Z → inject_Z c <= inject_Z N / inject_Z D.
Proof.
  intros HD H. pose proof (inject_Z_pos D HD) as Hd.
  rewrite Zle_Qle, inject_Z_mult in H.
  apply (Qmult_le_r _ _ (inject_Z D) Hd).
  assert (inject_Z N / inject_Z D * inject_Z D == inject_Z N) as ->
    by (field; lra).
  done.
Qed.

(** [binary_round_aux] in the rationals: the infinity from
    [overflow_threshold] on, else a finite float within half a unit in the
    last place. *)
Lemma binary_round_aux_error m e l N D :
  (0 < D)%Z → (0 <= m)%Z → inbetween m l N D →
  (e <= fexp prec emax (Zdigits2 m + e))%Z →
  let x := inject_Z N / inject_Z D * 2 ^ e in
  let r := binary_round_aux prec emax false m e l in
  (r = S754_infinity false ∧ overflow_threshold <= x) ∨
  (is_finite r = true ∧ nonneg r = true ∧ float_Q r <= max_float ∧
   Qabs (float_Q r - x) <= (1 # 2) * 2 ^ fexp prec emax (Zdigits2 m + e)).
Proof.
  intros HD Hm Hin HE x r.
  destruct (binary_round_aux_spec m e l N D HD Hm Hin HE)
    as (m1 & Hm1 & Herr & Hbig & Hr).
  fold r in Hr.
  set (E := fexp prec emax (Zdigits2 m + e)) in *.
  assert (0 < 2 ^ (E - e))%Z as HP by (apply Z.pow_pos_nonneg; lia).
  set (P := (2 ^ (E - e))%Z) in *.
  pose proof (Qpower_2_split e E HE) as HEQ. fold P in HEQ.
  pose proof (Qpow2_pos e) as Hu.
  destruct (rounded_value m1 E r Hm1 Hr)
    as [(-> & Hm52 & Hcase)|(Hfin & Hnn & Hmax & Hval)].
  - left. split; [done|]. rewrite overflow_threshold_eq. unfold x.
    pose proof (inject_Z_pos P HP) as Hp.
    destruct Hcase as [HE'|[-> HE']].
    + pose proof (quotient_ge (2 ^ 52 * P) N D HD ltac:(specialize (Hbig ltac:(lia)); nia))
        as Hq.
      rewrite inject_Z_mult in Hq.
      pose proof (Qpow2_le 972 E ltac:(lia)) as H972.
      rewrite HEQ in H972.
      assert (2 ^ 972 == 4 * 2 ^ 970) as E972
        by (rewrite !Qpow2_Z by done; by vm_compute).
      rewrite E972 in H972. pose proof (Qpow2_pos 970) as H970.
      set (q := inject_Z N / inject_Z D) in *.
      change (inject_Z (2 ^ 52)) with (4503599627370496 # 1) in Hq.
      change (inject_Z (2 ^ 54 - 1)) with (18014398509481983 # 1).
      assert (4503599627370496 * (inject_Z P * 2 ^ e) <= q * 2 ^ e) as Hx
        by nra.
      nra.
    + assert ((2 ^ 54 - 1) * (D * P) <= 2 * N)%Z as Hlow by lia.
      pose proof (quotient_ge ((2 ^ 54 - 1) * P) (2 * N) D HD ltac:(nia))
        as Hq.
      rewrite !inject_Z_mult in Hq.
      assert (inject_Z 2 * inject_Z N / inject_Z D
              == 2 * (inject_Z N / inject_Z D)) as Hq2
        by (field; pose proof (inject_Z_pos D HD); lra).
      rewrite Hq2 in Hq.
      pose proof (Qpow2_succ 970) as E971. change (970 + 1)%Z with 971%Z in E971.
      rewrite HE' in HEQ. rewrite HEQ in E971.
      set (q := inject_Z N / inject_Z D) in *.
      change (inject_Z (2 ^ 54 - 1)) with (18014398509481983 # 1) in *.
      pose proof (Qpow2_pos 970) as H970.
      assert (18014398509481983 * (inject_Z P * 2 ^ e) <= 2 * q * 2 ^ e)
        as Hx by nra.
      nra.
  - right. split_and!; try done.
    rewrite Hval, HEQ. apply round_error_Q; done.
Qed.

(** Half a unit in the last place, against the value rounded. *)
Lemma half_ulp_bound m e N D :
  (0 < D)%Z → (0 <= m)%Z → (m * D <= N)%Z →
  (e <= fexp prec emax (Zdigits2 m + e))%Z →
  let x := inject_Z N / inject_Z D * 2 ^ e in
  (1 # 2) * 2 ^ fexp prec emax (Zdigits2 m + e)
    <= x * 2 ^ (-53) + 2 ^ (-1075) ∧
  ((-1074 <= Zdigits2 m + e - 53)%Z →
   (1 # 2) * 2 ^ fexp prec emax (Zdigits2 m + e) <= x * 2 ^ (-53)).
Proof.
  intros HD Hm Hlow HE x.
  pose proof (quotient_ge m N D HD Hlow) as Hq.
  pose proof (Qpow2_pos e) as Hu. pose proof (Qpow2_pos (-53)) as H53.
  pose proof (inject_Z_nonneg m Hm) as Hm'.
  assert (0 <= x) as Hx by (unfold x; nra).
  assert ((-1074 <= Zdigits2 m + e - 53)%Z →
          (1 # 2) * 2 ^ fexp prec emax (Zdigits2 m + e) <= x * 2 ^ (-53))
    as Hnormal.
  { intros Hn.
    assert (0 < m)%Z as Hpos.
    { destruct (Z.eq_dec m 0%Z) as [->|]; [|lia]. simpl in *.
      unfold fexp, SpecFloat.emin, prec, emax in HE. lia. }
    assert (fexp prec emax (Zdigits2 m + e) = Zdigits2 m + e - 53)%Z as ->
      by (unfold fexp, SpecFloat.emin, prec, emax; lia).
    pose proof (Zdigits2_bounds m Hpos) as [B _].
    pose proof (Zdigits2_pos m Hpos) as Hd.
    rewrite Zle_Qle, <- Qpow2_Z in B by lia.
    replace (Zdigits2 m + e - 53)%Z
      with ((Zdigits2 m - 1) + e + (-53) + 1)%Z by lia.
    rewrite Qpow2_succ, !Qpow2_add.
    pose proof (Qpow2_pos (Zdigits2 m - 1)) as Hd1.
    unfold x. set (q := inject_Z N / inject_Z D) in *.
    assert (2 ^ (Zdigits2 m - 1) * 2 ^ e <= q * 2 ^ e) by nra.
    nra. }
  split; [|done].
  destruct (Z_lt_le_dec (Zdigits2 m + e - 53)%Z (-1074)%Z) as [Hsub|Hn].
  - assert (fexp prec emax (Zdigits2 m + e) = -1074)%Z as ->
      by (unfold fexp, SpecFloat.emin, prec, emax; lia).
    pose proof (Qpow2_succ (-1075)) as Hs.
    change (-1075 + 1)%Z with (-1074)%Z in Hs. rewrite Hs. nra.
  - pose proof (Hnormal Hn). pose proof (Qpow2_pos (-1075)). lra.
Qed.

(** A mantissa that fits is not changed. *)
Lemma binary_round_aux_exact m e :
  (0 <= m)%Z → (e = fexp prec emax (Zdigits2 m + e))%Z → (e < 971)%Z →
  let r := binary_round_aux prec emax false m e loc_Exact in
  is_finite r = true ∧ nonneg r = true ∧ float_Q r <= max_float ∧
  float_Q r == inject_Z m * 2 ^ e.
Proof.
  intros Hm HE He r.
  destruct (binary_round_aux_spec m e loc_Exact m 1) as (m1 & Hm1 & Herr & _ & Hr);
    [lia|done|simpl; lia|lia|].
  fold r in Hr. rewrite <- HE in *. rewrite Z.sub_diag in Herr.
  change (2 ^ 0)%Z with 1%Z in Herr.
  assert (m1 = m) as -> by lia.
  destruct (rounded_value m e r Hm Hr) as [(_ & _ & H)|H]; [lia|done].
Qed.

Lemma iter_xO (p d : positive) :
  Zpos (Pos.iter xO p d) = (Zpos p * 2 ^ Zpos d)%Z.
Proof.
  induction d as [|d IH] using Pos.peano_ind.
  - simpl. lia.
  - rewrite Pos.iter_succ, Pos2Z.inj_succ, Z.pow_succ_r by lia.
    rewrite (Pos2Z.inj_xO (Pos.iter xO p d)), IH. ring.
Qed.

Lemma Zdigits2_shift (m k : Z) :
  (0 < m)%Z → (0 <= k)%Z → Zdigits2 (m * 2 ^ k) = (Zdigits2 m + k)%Z.
Proof.
  intros Hm Hk. pose proof (Zdigits2_bounds m Hm) as [B1 B2].
  pose proof (Zdigits2_pos m Hm) as Hd.
  pose proof (Z.pow_pos_nonneg 2 k ltac:(lia) Hk) as HP.
  apply Zdigits2_unique; [lia|].
  replace (Zdigits2 m + k - 1)%Z with ((Zdigits2 m - 1) + k)%Z by lia.
  rewrite !Z.pow_add_r by lia. nia.
Qed.

(** The conversion of an integer without sign to a float: the nearest
    float, which is the integer itself below 2^53. *)
Lemma float_of_Z_spec n :
  (0 <= n)%Z →
  (float_of_Z n = S754_infinity false ∧ overflow_threshold <= inject_Z n) ∨
  (is_finite (float_of_Z n) = true ∧ nonneg (float_of_Z n) = true ∧
   float_Q (float_of_Z n) <= max_float ∧
   Qabs (float_Q (float_of_Z n) - inject_Z n) <= inject_Z n * 2 ^ (-53) ∧
   ((n < 2 ^ 53)%Z → float_Q (float_of_Z n) == inject_Z n)).
Proof.
  intros Hn. unfold float_of_Z, binary_normalize.
  destruct n as [|p|p]; [|clear Hn|lia].
  { right. split_and!; try done. }
  unfold binary_round.
  pose proof (Zdigits2_bounds (Zpos p) ltac:(lia)) as [B1 B2].
  pose proof (Zdigits2_pos (Zpos p) ltac:(lia)) as Hd.
  change (Zdigits2 (Zpos p)) with (Zpos (digits2_pos p)) in *.
  set (d := Zpos (digits2_pos p)) in *.
  assert (fexp prec emax (d + 0) = d - 53)%Z as Hf
    by (unfold fexp, SpecFloat.emin, prec, emax; lia).
  rewrite Hf. unfold shl_align.
  destruct (d - 53 - 0)%Z as [|k|k] eqn:Hk.
  - (* 53 digits *)
    destruct (binary_round_aux_exact (Zpos p) 0) as (H1 & H2 & H3 & H4);
      [lia| |lia|].
    { change (Zdigits2 (Zpos p)) with d. rewrite Hf. lia. }
    right. split_and!; try done.
    + rewrite H4. change (2 ^ 0) with 1.
      assert (inject_Z (Zpos p) * 1 - inject_Z (Zpos p) == 0) as -> by ring.
      pose proof (Qpow2_pos (-53)).
      pose proof (inject_Z_pos (Zpos p) ltac:(lia)).
      change (Qabs 0) with 0. nra.
    + intros _. rewrite H4. change (2 ^ 0) with 1. ring.
  - (* more than 53 digits *)
    destruct (binary_round_aux_error (Zpos p) 0 loc_Exact (Zpos p) 1)
      as [(-> & Hov)|(H1 & H2 & H3 & H4)]; [lia|lia|simpl; lia| | |].
    { change (Zdigits2 (Zpos p)) with d. rewrite Hf. lia. }
    + left. split; [done|]. revert Hov. change (2 ^ 0) with 1.
      change (inject_Z 1) with 1.
      assert (inject_Z (Zpos p) / 1 * 1 == inject_Z (Zpos p)) as -> by field.
      done.
    + right. revert H4.
      change (2 ^ 0) with 1. change (inject_Z 1) with 1.
      assert (inject_Z (Zpos p) / 1 * 1 == inject_Z (Zpos p)) as Hx by field.
      rewrite Hx. intros H4.
      destruct (half_ulp_bound (Zpos p) 0 (Zpos p) 1) as [_ Hb];
        [lia|lia|lia| |].
      { change (Zdigits2 (Zpos p)) with d. rewrite Hf. lia. }
      specialize (Hb ltac:(change (Zdigits2 (Zpos p)) with d; lia)).
      revert Hb. change (2 ^ 0) with 1. change (inject_Z 1) with 1.
      rewrite Hx. intros Hb.
      split_and!; try done.
      * eapply Qle_trans; [exact H4|exact Hb].
      * intros Hlt. exfalso.
        assert (d <= 53)%Z; [|lia].
        apply (Zdigits2_le (Zpos p) 53); lia.
  - (* fewer than 53 digits: the mantissa is shifted to 53 *)
    assert (Zpos (Pos.iter xO p k) = Zpos p * 2 ^ Zpos k)%Z as Hmz
      by apply iter_xO.
    assert (Zdigits2 (Zpos (Pos.iter xO p k)) = 53)%Z as Hdz.
    { rewrite Hmz, Zdigits2_shift by lia.
      change (Zdigits2 (Zpos p)) with d. lia. }
    destruct (binary_round_aux_exact (Zpos (Pos.iter xO p k)) (d - 53))
      as (H1 & H2 & H3 & H4); [lia| |lia|].
    { rewrite Hdz. unfold fexp, SpecFloat.emin, prec, emax. lia. }
    assert (inject_Z (Zpos (Pos.iter xO p k)) * 2 ^ (d - 53)
            == inject_Z (Zpos p)) as Hval.
    { rewrite Hmz, inject_Z_mult, <- Qpow2_Z by lia.
      rewrite <- Qmult_assoc, <- Qpow2_add.
      replace (Zpos k + (d - 53))%Z with 0%Z by lia.
      change (2 ^ 0) with 1. ring. }
    rewrite Hval in H4.
    right. split_and!; try done.
    + rewrite H4.
      assert (inject_Z (Zpos p) - inject_Z (Zpos p) == 0) as -> by ring.
      pose proof (Qpow2_pos (-53)).
      pose proof (inject_Z_pos (Zpos p) ltac:(lia)).
      change (Qabs 0) with 0. nra.
Qed.

Local Open Scope Z_scope.

(** The division: the quotient of the mantissas and where the exact quotient
    lies. *)
Lemma new_location_inbetween q r my m' :
  0 < my → m' = my * q + r → 0 ≤ r < my →
  inbetween q (new_location my r) m' my.
Proof.
  intros Hmy -> Hr. unfold new_location, new_location_even, new_location_odd.
  destruct (Z.even my) eqn:Heven.
  - destruct (Z.eqb_spec r 0) as [->|Hne]; [simpl; lia|].
    destruct (Z.compare_spec (2 * r) my); simpl; lia.
  - destruct (Z.eqb_spec r 0) as [->|Hne]; [simpl; lia|].
    assert (Z.odd my = true) as Hodd by (rewrite <- Z.negb_even, Heven; done).
    apply Z.odd_spec in Hodd as [k Hk].
    destruct (Z.compare_spec (2 * r + 1) my); simpl; lia.
Qed.

Lemma SFdiv_core_spec mx ex my ey :
  ∃ q e' l s,
    SFdiv_core_binary prec emax (Zpos mx) ex (Zpos my) ey = (q, e', l) ∧
    0 ≤ s ∧ e' = ex - ey - s ∧ 0 ≤ q ∧ q * Zpos my ≤ Zpos mx * 2 ^ s ∧
    inbetween q l (Zpos mx * 2 ^ s) (Zpos my) ∧
    e' ≤ fexp prec emax (Zdigits2 q + e').
Proof.
  unfold SFdiv_core_binary. cbv zeta.
  set (d1 := Zdigits2 (Zpos mx)). set (d2 := Zdigits2 (Zpos my)).
  set (F0 := fexp prec emax (d1 + ex - (d2 + ey))).
  set (e' := Z.min F0 (ex - ey)).
  set (s := ex - ey - e').
  assert (0 ≤ s) as Hs by (unfold s, e'; lia).
  set (m' := match s with Z0 => Zpos mx | Zpos _ => Z.shiftl (Zpos mx) s
             | Zneg _ => 0 end).
  assert (m' = Zpos mx * 2 ^ s) as Hm'.
  { unfold m'. destruct s as [|k|k] eqn:Es; [simpl; lia| |lia].
    by rewrite Z.shiftl_mul_pow2. }
  pose proof (Z_div_mod m' (Zpos my) ltac:(lia)) as Hdiv.
  destruct (Z.div_eucl m' (Zpos my)) as [q r]. destruct Hdiv as [Hq Hr].
  pose proof (Z.pow_pos_nonneg 2 s ltac:(lia) Hs) as HP.
  assert (0 ≤ q) as Hq0 by nia.
  exists q, e', (new_location (Zpos my) r), s.
  split; [done|]. split; [done|]. split; [unfold s; lia|]. split; [done|].
  split; [nia|]. split.
  { rewrite <- Hm'. apply new_location_inbetween; [lia|done|done]. }
  destruct (Z_le_gt_dec e' (- 1074)) as [Hlow|Hhigh].
  { unfold fexp, SpecFloat.emin, prec, emax. lia. }
  assert (F0 = d1 + ex - (d2 + ey) - 53) as HF0.
  { assert (- 1074 < F0) by (unfold e' in Hhigh; lia).
    revert H. unfold F0, fexp, SpecFloat.emin, prec, emax. lia. }
  pose proof (Zdigits2_bounds (Zpos mx) ltac:(lia)) as [B1 _].
  pose proof (Zdigits2_bounds (Zpos my) ltac:(lia)) as [_ B2].
  fold d1 in B1. fold d2 in B2.
  pose proof (Zdigits2_pos (Zpos mx) ltac:(lia)) as Hd1. fold d1 in Hd1.
  pose proof (Zdigits2_pos (Zpos my) ltac:(lia)) as Hd2. fold d2 in Hd2.
  set (k := d1 - 1 + s - d2).
  assert (52 ≤ k) as Hk by (unfold k, s, e'; lia).
  assert (2 ^ k ≤ q) as Hqk.
  { assert (2 ^ (d1 - 1) * 2 ^ s = 2 ^ k * 2 ^ d2) as Hpow.
    { rewrite <- !Z.pow_add_r by lia. f_equal. unfold k. lia. }
    pose proof (Z.pow_pos_nonneg 2 k ltac:(lia) ltac:(lia)) as Hkp.
    pose proof (Z.pow_pos_nonneg 2 d2 ltac:(lia) ltac:(lia)) as Hd2p.
    assert (2 ^ k * Zpos my < (q + 1) * Zpos my); [nia|].
    nia. }
  pose proof (Zdigits2_ge q k ltac:(lia) Hqk) as Hdq.
  unfold fexp, SpecFloat.emin, prec, emax. unfold k, s in *. lia.
Qed.

Local Open Scope Q_scope.

Lemma Qpow2_sub (a b : Z) : 2 ^ (a - b) == 2 ^ a / 2 ^ b.
Proof.
  unfold Z.sub. rewrite Qpow2_add, Qpower_opp. reflexivity.
Qed.

(** The quotient of two positive finite floats is the exact quotient
    rounded once: the relative error is 2^-53 at most, above the subnormal
    numbers. *)
Lemma SFdiv_spec mx ex my ey :
  let x := (inject_Z (Zpos mx) * 2 ^ ex) / (inject_Z (Zpos my) * 2 ^ ey) in
  let r := SFdiv prec emax (S754_finite false mx ex)
             (S754_finite false my ey) in
  (r = S754_infinity false ∧ overflow_threshold <= x) ∨
  (is_finite r = true ∧ nonneg r = true ∧ float_Q r <= max_float ∧
   Qabs (float_Q r - x) <= x * 2 ^ (-53) + 2 ^ (-1075)).
Proof.
  intros x r. unfold r, SFdiv.
  destruct (SFdiv_core_spec mx ex my ey)
    as (q & e' & l & s & -> & Hs & He' & Hq & Hlow & Hin & HE).
  cbn [xorb].
  assert (inject_Z (Zpos mx * 2 ^ s) / inject_Z (Zpos my) * 2 ^ e' == x)
    as Hx.
  { unfold x. rewrite inject_Z_mult, <- (Qpow2_Z s) by done. rewrite He'.
    replace (ex - ey - s)%Z with (ex - (ey + s))%Z by lia.
    rewrite Qpow2_sub, Qpow2_add.
    pose proof (Qpow2_pos ex). pose proof (Qpow2_pos ey).
    pose proof (Qpow2_pos s).
    pose proof (inject_Z_pos (Zpos my) ltac:(lia)).
    field. split_and!; lra. }
  destruct (half_ulp_bound q e' (Zpos mx * 2 ^ s) (Zpos my)) as [Hb _];
    [lia|done|done|done|].
  destruct (binary_round_aux_error q e' l (Zpos mx * 2 ^ s) (Zpos my))
    as [(Hr & Hov)|(H1 & H2 & H3 & H4)]; [lia|done|done|done| |].
  - left. rewrite <- Hx. done.
  - right. rewrite <- Hx. split_and!; try done.
    eapply Qle_trans; [exact H4|exact Hb].
Qed.

(** ** Conversions and means, as numbers *)

Lemma pow2_m53 : 2 ^ (-53) == 1 # 9007199254740992.
Proof. reflexivity. Qed.

Lemma pow2_m51 : 2 ^ (-51) == 1 # 2251799813685248.
Proof. reflexivity. Qed.

Lemma pow2_m1075_small : 2 ^ (-1075) <= 1 # 9007199254740992000.
Proof. unfold Qle. vm_compute. discriminate. Qed.

Lemma pow2_m1075_pos : 0 < 2 ^ (-1075).
Proof. apply Qpow2_pos. Qed.

Lemma max_float_below_threshold : max_float < overflow_threshold.
Proof. unfold Qlt. vm_compute. reflexivity. Qed.

Lemma max_float_pos : 0 < max_float.
Proof. unfold Qlt. vm_compute. reflexivity. Qed.

Lemma float_1000_eq : float_1000 = S754_finite false 8796093022208000 (-43).
Proof. vm_compute. reflexivity. Qed.

Lemma float_1000_Q : inject_Z 8796093022208000 * 2 ^ (-43) == 1000.
Proof. reflexivity. Qed.

Lemma float_Q_finite_pos m e : 0 < float_Q (S754_finite false m e).
Proof.
  cbn [float_Q]. pose proof (Qpow2_pos e).
  assert (0 < inject_Z (Zpos m)) by (apply inject_Z_pos; lia). nra.
Qed.

Lemma float_Q_nonneg x : nonneg x = true → 0 <= float_Q x.
Proof.
  destruct x as [s|s| |[] m e]; try done; intros _.
  apply Qlt_le_weak, float_Q_finite_pos.
Qed.

(** [n / 1000.0] for an integer without sign: when it does not raise, the
    result is finite and within the relative distance 2^-51 of n/1000. *)
Lemma int_truediv_float_spec n x :
  (0 <= n)%Z → int_truediv_float n float_1000 = Ok x →
  float_near (2 ^ (-51)) (n # 1000) x ∧ float_Q x <= max_float.
Proof.
  intros Hn. unfold int_truediv_float.
  destruct (float_of_Z_spec n Hn) as [[Hinf _]|(Hfin & Hnn & Hmax & Herr & _)].
  { by rewrite Hinf. }
  assert ((n # 1000) == inject_Z n / 1000) as Hq by apply Qmake_Qdiv.
  apply Qabs_Qle_condition in Herr.
  pose proof pow2_m53 as Hb. pose proof pow2_m51 as Hb'.
  destruct (float_of_Z n) as [[]|[]| |[] m e] eqn:E; try done.
  - intros [= <-]. cbn [float_Q] in Herr.
    assert (inject_Z n == 0) as H0.
    { assert (0 <= inject_Z n) by (by apply inject_Z_nonneg).
      rewrite Hb in Herr. lra. }
    unfold float_near. split_and!; try done.
    change (float_Q _) with 0. apply Qabs_Qle_condition.
    assert ((n # 1000) == 0) as -> by (rewrite Hq, H0; reflexivity).
    rewrite Hb'. split; lra.
  - intros Hx.
    assert (x = SFdiv prec emax (S754_finite false m e) float_1000) as ->
      by congruence.
    clear Hx. rewrite float_1000_eq.
    pose proof (float_Q_finite_pos m e) as Hpos.
    set (V := float_Q (S754_finite false m e)) in *.
    assert (V == inject_Z (Zpos m) * 2 ^ e) as HV
      by (unfold V; cbn [float_Q]; ring).
    assert (1 <= inject_Z n) as Hn1.
    { destruct (Z.eq_dec n 0%Z) as [->|Hne].
      - change (inject_Z 0) with 0 in Herr. rewrite Hb in Herr. lra.
      - change 1 with (inject_Z 1). rewrite <- Zle_Qle. lia. }
    pose proof (SFdiv_spec m e 8796093022208000 (-43)) as Hd.
    cbv zeta in Hd. rewrite float_1000_Q, <- HV in Hd.
    pose proof max_float_below_threshold as Hthr.
    pose proof max_float_pos as Hmp.
    assert (V / 1000 == (1 # 1000) * V) as HVq by (field).
    rewrite HVq in Hd.
    destruct Hd as [[_ Hover]|(Hf & Hnn' & Hmax' & Herr')]; [lra|].
    split; [|done]. split_and!; [done|done|].
    apply Qabs_Qle_condition in Herr'. apply Qabs_Qle_condition.
    pose proof pow2_m1075_small as Hc. pose proof pow2_m1075_pos as Hc'.
    set (c := 2 ^ (-1075)) in *. rewrite Hb in *.
    set (R := float_Q (SFdiv _ _ _ _)) in *.
    assert (inject_Z n / 1000 == (1 # 1000) * inject_Z n) as Hnq by field.
    rewrite Hq, Hb', Hnq. split; lra.
Qed.

(** A conversion that succeeds follows the rule of the specification, in
    numbers, and yields a float in range. *)
Lemma convert_normalized (c : capture) x :
  is_decimal c.2 = true → convert c = Ok x →
  normalized (if c.1 then Some c.2 else None) (if c.1 then None else Some c.2) x
  ∧ in_range x.
Proof.
  intros Hdec. pose proof (is_decimal_all _ Hdec) as Hall.
  pose proof (digits_value_nonneg _ 0%Z Hall (Z.le_refl 0)) as Hn.
  pose proof (decimal_value_digits _ Hall) as Hv.
  destruct c as [[] v]; unfold convert; simpl in *.
  - unfold int_of_str. rewrite Hdec.
    destruct (int_max_str_digits <? String.length v)%nat; [done|]. simpl.
    intros [Hnear Hmax]%int_truediv_float_spec; [|done].
    split; [by eexists|]. by destruct Hnear as (? & ? & _).
  - unfold float_of_str. rewrite Hdec. intros [= <-].
    destruct (float_of_Z_spec _ Hn) as
      [[Hinf Hover]|(Hfin & Hnn & Hmax & Herr & Hexact)].
    + split.
      * eexists. split; [done|]. right. split; [done|].
        unfold overflow_threshold in Hover. by rewrite <- Zle_Qle in Hover.
      * by rewrite Hinf.
    + split; [|done]. eexists. split; [done|]. left. split; [|done].
      split_and!; [done|done|]. by rewrite Qmult_comm.
Qed.

Lemma fold_SFadd_inf xs :
  Forall (fun x => x = S754_infinity false) xs →
  fold_left (SFadd prec emax) xs (S754_infinity false) = S754_infinity false.
Proof. induction 1 as [|x xs -> _ IH]; simpl; [done|exact IH]. Qed.

Lemma members_Forall (P : row → Prop) k rows :
  Forall P rows → Forall P (members k rows).
Proof.
  rewrite !Forall_forall. intros H r [Hr _]%list_elem_of_In%filter_In.
  by apply H, list_elem_of_In.
Qed.

Lemma sum_Q_bounds xs :
  Forall in_range xs → forallb is_finite xs = true →
  0 <= sum_Q xs ∧ sum_Q xs <= inject_Z (Z.of_nat (length xs)) * max_float.
Proof.
  induction 1 as [|x xs [Hnn Hmax] _ IH]; intros Hfin.
  - cbn [sum_Q length]. change (inject_Z (Z.of_nat 0)) with 0. split; lra.
  - cbn [forallb] in Hfin. apply andb_true_iff in Hfin as [Hx Hxs].
    destruct (IH Hxs) as [IH1 IH2]. pose proof (float_Q_nonneg x Hnn).
    specialize (Hmax Hx). cbn [sum_Q length].
    rewrite Nat2Z.inj_succ, <- Z.add_1_r, inject_Z_plus.
    change (inject_Z 1) with 1. split; lra.
Qed.

Lemma mean_Q_bounds xs :
  xs ≠ [] → Forall in_range xs → forallb is_finite xs = true →
  0 <= mean_Q xs ∧ mean_Q xs <= max_float.
Proof.
  intros Hne Hv Hfin. destruct (sum_Q_bounds xs Hv Hfin) as [H0 H1].
  unfold mean_Q.
  assert (0 < inject_Z (Z.of_nat (length xs))) as Hk.
  { apply inject_Z_pos. destruct xs; [done|]. simpl. lia. }
  set (k := inject_Z _) in *. split.
  - apply Qle_shift_div_l; [done|]. lra.
  - apply Qle_shift_div_r; [done|]. lra.
Qed.

(** [statistics.mean] on finite data that conversions yield: the result is
    finite and is the exact mean rounded once. *)
Lemma mean_spec xs v :
  mean xs = Ok v → Forall in_range xs → forallb is_finite xs = true →
  is_finite v = true ∧ nonneg v = true ∧ float_Q v <= max_float ∧
  Qabs (float_Q v - mean_Q xs) <= mean_Q xs * 2 ^ (-53) + 2 ^ (-1075).
Proof.
  intros Hm Hv Hfin.
  assert (xs ≠ []) as Hne by (intros ->; done).
  destruct (mean_Q_bounds xs Hne Hv Hfin) as [H0 H1].
  destruct (sum_Q_bounds xs Hv Hfin) as [Hs0 _].
  rewrite (mean_finite _ _ Hm Hfin).
  pose proof (exact_sum_Q xs) as Hsum. unfold pair_Q in Hsum.
  destruct (exact_sum xs) as [M e]. cbn [fst snd] in *.
  assert (Z.pos (Pos.of_nat (length xs)) = Z.of_nat (length xs)) as Hk.
  { destruct xs; [done|]. simpl length. lia. }
  assert (0 < inject_Z (Z.of_nat (length xs))) as Hkpos.
  { apply inject_Z_pos. destruct xs; [done|]. simpl. lia. }
  pose proof pow2_m1075_pos as Hc. pose proof pow2_m53 as Hb.
  pose proof max_float_pos as Hmp.
  unfold float_of_ratio. destruct M as [|p|p].
  - assert (mean_Q xs == 0) as Hz.
    { unfold mean_Q. rewrite <- Hsum. change (inject_Z 0) with 0. field.
      lra. }
    change (float_Q float_0) with 0. split_and!; try done; try lra.
    rewrite Hz. apply Qabs_Qle_condition. rewrite Hb. split; lra.
  - pose proof (SFdiv_spec p e (Pos.of_nat (length xs)) 0) as Hd.
    cbv zeta in Hd. rewrite Hk in Hd. change (2 ^ 0) with 1 in Hd.
    assert (inject_Z (Z.pos p) * 2 ^ e / (inject_Z (Z.of_nat (length xs)) * 1)
            == mean_Q xs) as Hx.
    { unfold mean_Q. rewrite <- Hsum. field. lra. }
    rewrite Hx in Hd. pose proof max_float_below_threshold.
    destruct Hd as [[_ Hover]|Hd]; [lra|]. exact Hd.
  - exfalso. pose proof (Qpow2_pos e).
    assert (inject_Z (Z.neg p) < 0) as Hneg.
    { change 0 with (inject_Z 0). rewrite <- Zlt_Qlt. lia. }
    nra.
Qed.

(** The text printed for the mean of finite data reads back as a number
    within a twentieth, and one rounding to a float, of the exact mean. *)
Lemma printed_mean_close xs v :
  mean xs = Ok v → Forall in_range xs → forallb is_finite xs = true →
  ∃ q, decimal_Q (format_1f v) = Some q ∧
    Qabs (q - mean_Q xs) <= (1 # 20) + mean_Q xs * 2 ^ (-53) + 2 ^ (-1075).
Proof.
  intros Hm Hv Hfin.
  destruct (mean_spec xs v Hm Hv Hfin) as (Hf & _ & _ & Herr).
  destruct (format_1f_close v Hf) as (q & Hq & Hclose). exists q.
  split; [done|]. apply Qabs_Qle_condition in Herr, Hclose.
  apply Qabs_Qle_condition. split; lra.
Qed.

(** A datum that is not finite makes the mean infinite. *)
Lemma mean_infinite xs v :
  mean xs = Ok v → Forall in_range xs → forallb is_finite xs = false →
  v = S754_infinity false.
Proof.
  intros Hm Hv Hfin. unfold mean in Hm. destruct xs as [|x0 xs']; [done|].
  assert (Forall (fun x => x = S754_infinity false)
            (List.filter (fun x => negb (is_finite x)) (x0 :: xs'))) as Hinf.
  { apply List.Forall_forall. intros x [Hx Hn]%filter_In.
    rewrite List.Forall_forall in Hv. destruct (Hv x Hx) as [Hnn _].
    by destruct x as [|[]| |]. }
  destruct (List.filter _ (x0 :: xs')) as [|y ys] eqn:E.
  - exfalso. assert (forallb is_finite (x0 :: xs') = true); [|congruence].
    apply forallb_forall. intros x Hx.
    destruct (is_finite x) eqn:Ex; [done|].
    assert (In x (List.filter (fun x => negb (is_finite x)) (x0 :: xs'))) as Hin
      by (apply filter_In; by rewrite Ex).
    by rewrite E in Hin.
  - apply Forall_cons in Hinf as [-> Hinf]. injection Hm as <-.
    by apply fold_SFadd_inf.
Qed.

Close Scope Q_scope.

(** The fields of the rows parsed are in range. *)
Lemma row_of_line_in_range line d r :
  row_of_line line d r → Forall (fun f => in_range (f r)) timings.
Proof.
  intros [pre post t mo o p b s w tt _ _ _ _ _ Hp Hb Hs Hw Htt _ _ _
            Cp Cb Cs Cw Ctt].
  unfold timings. rewrite !Forall_cons.
  split_and!;
    [by apply (convert_normalized p)|by apply (convert_normalized b)
    |by apply (convert_normalized s)|by apply (convert_normalized w)
    |by apply (convert_normalized tt)|by apply Forall_nil].
Qed.

Lemma parsed_in_range lines rows :
  parsed lines rows →
  Forall (fun r => Forall (fun f => in_range (f r)) timings) rows.
Proof.
  induction 1 as [| |line lines d r rows Hs Hr _ IH]; [constructor|done|].
  constructor; [|done].
  by apply (row_of_line_in_range line d), search_make_row.
Qed.

(** ** The run in its environment *)

Lemma written_cases enc lines :
  Forall (encodable enc) (written enc lines).1 ∧
  if (written enc lines).2 then (written enc lines).1 = lines
  else ∃ line rest,
    lines = (written enc lines).1 ++ line :: rest ∧ all_class enc line = false.
Proof.
  induction lines as [|line lines [IH1 IH2]]; simpl; [done|].
  destruct (all_class enc line) eqn:E; simpl.
  - destruct (written enc lines) as [w ok]; simpl in *. split.
    + by constructor.
    + destruct ok; [by rewrite IH2|].
      destruct IH2 as (l & rest & -> & Hl). by exists l, rest.
  - split; [constructor|]. by exists line, lines.
Qed.

Lemma written_all enc lines :
  Forall (encodable enc) lines → written enc lines = (lines, true).
Proof.
  induction 1 as [|line lines Hl _ IH]; simpl; [done|].
  unfold encodable in Hl. by rewrite Hl, IH.
Qed.

(** Items with the same keys in the same order, each key with one list. *)
Lemma same_keys_same_items (la lb : list (group_key * list row)) :
  map fst la = map fst lb →
  (∀ k a b, In (k, a) la → In (k, b) lb → a = b) →
  la = lb.
Proof.
  revert lb. induction la as [|[k a] la IH]; intros [|[k' b] lb]; simpl;
    try done.
  intros [= <- Hk] H. rewrite (H k a b) by auto. f_equal. apply IH; [done|].
  intros k2 a2 b2 Ha Hb. eapply H; eauto.
Qed.

(** [sorted] yields the same list whatever order the dict yields its items
    in, since the keys of a dict differ pairwise. *)
Lemma sorted_order ord l :
  dict_order ord → NoDup (map fst l) → sorted (ord l) = sorted l.
Proof.
  intros Hord Hnd.
  assert (NoDup (map fst (ord l))) as Hnd'.
  { by rewrite (fmap_Permutation fst _ _ (Hord l)). }
  apply same_keys_same_items.
  - apply sorted_keys_unique; [by apply sorted_sorted..|].
    intros k. rewrite <- !list_elem_of_In.
    rewrite (fmap_Permutation fst _ _ (sorted_perm (ord l))).
    rewrite (fmap_Permutation fst _ _ (sorted_perm l)).
    by rewrite (fmap_Permutation fst _ _ (Hord l)).
  - intros k a b Ha Hb.
    apply list_elem_of_In in Ha, Hb.
    rewrite sorted_perm in Ha, Hb. rewrite (Hord l) in Ha.
    apply list_elem_of_In in Ha, Hb.
    by rewrite <- (lookup_key_In l k a Hnd Ha), <- (lookup_key_In l k b Hnd Hb).
Qed.

Lemma print_items_on_written enc items lines :
  Forall2 (fun (item : group_key * list row) line =>
    format_item item.1 item.2 = Ok line) items lines →
  ∀ out, print_items_on enc items out =
    (out ++ (written enc lines).1,
     if (written enc lines).2 then Ok () else Raise UnicodeEncodeError).
Proof.
  induction 1 as [|[k its] line items lines Hl _ IH]; intros out; simpl.
  - by rewrite app_nil_r.
  - simpl in Hl. rewrite Hl. unfold print_on.
    destruct (all_class enc line); [|by rewrite app_nil_r].
    rewrite IH. destruct (written enc lines) as [w ok]. simpl.
    by rewrite <- app_assoc.
Qed.

(** [summarize] on any standard output: the lines of the report are written
    up to the first that cannot be encoded. *)
Lemma summarize_on_written enc ord rows :
  dict_order ord →
  ∃ full, full ≠ [] ∧ summarize rows = (full, Ok ()) ∧
    summarize_on enc ord rows =
      ((written enc full).1,
       if (written enc full).2 then Ok () else Raise UnicodeEncodeError).
Proof.
  intros Hord. destruct rows as [|r rows].
  { eexists. split; [|split; [reflexivity|]]; [done|].
    cbn [summarize_on written]. unfold print_on.
    by destruct (all_class enc "No ingest_metrics lines found"). }
  destruct (summarize_rows (r :: rows)) as (lines & Hsum & Hall); [done|].
  eexists. split; [|split; [exact Hsum|]]; [done|].
  unfold summarize_on. rewrite sorted_order; [|done|].
  2:{ by destruct (group_rows_grouped (r :: rows)) as (Hnd & _). }
  fold (report_items (r :: rows)). unfold print_on.
  cbn [written]. cbn [app].
  destruct (all_class enc "Averages by (table, mode, op):"); [|done].
  destruct (all_class enc header); [|done].
  rewrite (print_items_on_written enc _ _ Hall).
  by destruct (written enc lines) as [w ok].
Qed.

(** The run on any standard output, from the run on one that encodes every
    character. *)
Lemma main_on_written enc ord argv fs :
  dict_order ord →
  main_on enc ord argv fs =
    match main argv fs with
    | (full, Exit code) =>
        ((written enc full).1,
         if (written enc full).2 then Exit code
         else Uncaught UnicodeEncodeError)
    | (out, Uncaught e) => (out, Uncaught e)
    end.
Proof.
  intros Hord. unfold main_on, main.
  destruct argv as [|prog [|path rest]].
  - cbn [written]. unfold print_on.
    by destruct (all_class enc "Usage: parse_ingest_metrics.py <log_file>").
  - cbn [written]. unfold print_on.
    by destruct (all_class enc "Usage: parse_ingest_metrics.py <log_file>").
  - destruct (parse_file fs path) as [rows|e]; [|done].
    destruct (summarize_on_written enc ord rows Hord) as (full & _ & -> & ->).
    by destruct (written enc full) as [w []].
Qed.

(** * The specification's claims, one by one *)

(** C1: for every matching line, each of the five timing fields of the
    record is, in numbers, the captured microsecond integer divided by 1000
    when the microsecond variant was captured, else the captured millisecond
    integer, else 0.0, each category on its own.  The field is a float: for
    milliseconds the integer rounded once, which is the integer itself
    below 2^53; for microseconds a finite float within the relative
    distance 2^-51 of the quotient, the integer and the quotient being
    rounded.  The line with mixed units yields parse=10.0, build=5.0,
    send=2.0, wait=1.0, total=13.0. *)
Theorem pick_ms_normalized line d r :
  search pattern line = Some d → make_row d = Ok r →
  parse_lines [line] [] = Ok [r] ∧
  normalized (d !! "parse_us") (d !! "parse_ms") (parse r) ∧
  normalized (d !! "build_us") (d !! "build_ms") (build r) ∧
  normalized (d !! "send_us") (d !! "send_ms") (send r) ∧
  normalized (d !! "wait_us") (d !! "wait_ms") (wait r) ∧
  normalized (d !! "total_us") (d !! "total_ms") (total r) ∧
  parse_lines [mixed_line] [] = Ok [mixed_row] ∧
  Forall2 (fun (f : row → float) v =>
    is_finite (f mixed_row) = true ∧ (float_Q (f mixed_row) == v)%Q)
    timings [10; 5; 2; 1; 13]%Q.
Proof.
  intros Hs Hr. split; [simpl; by rewrite Hs, Hr|].
  destruct (search_make_row _ _ _ Hs Hr)
    as [pre post t mo o p b s w tt _ -> _ _ _ Dp Db Ds Dw Dt _ _ _
          Hp Hb Hs' Hw Ht].
  destruct (schema_groups_fields t mo o p b s w tt)
    as ([-> ->] & [-> ->] & [-> ->] & [-> ->] & [-> ->]).
  split_and!;
    [by apply (convert_normalized p)|by apply (convert_normalized b)
    |by apply (convert_normalized s)|by apply (convert_normalized w)
    |by apply (convert_normalized tt)|by vm_compute|].
  unfold timings.
  repeat (apply List.Forall2_cons; [split; [reflexivity|by vm_compute]|]).
  apply List.Forall2_nil.
Qed.

Lemma pick_ms_normalized_witness :
  let d :=
    schema_groups "orders" "batch" "insert" (false, "10") (true, "5000")
      (false, "2") (true, "1000") (false, "13") in
  search pattern mixed_line = Some d ∧ make_row d = Ok mixed_row ∧
  normalized (d !! "build_us") (d !! "build_ms") (build mixed_row).
Proof.
  intros d.
  assert (search pattern mixed_line = Some d) as Hs by (vm_compute; reflexivity).
  assert (make_row d = Ok mixed_row) as Hr by (vm_compute; reflexivity).
  split; [exact Hs|]. split; [exact Hr|].
  exact (proj1 (proj2 (proj2 (pick_ms_normalized mixed_line d mixed_row Hs Hr)))).
Defined.

(** C2: when the run reaches the report, the keys of its rows have no
    duplicates and are exactly the (table, mode, op) triples captured from
    the lines that match the pattern: a key is printed if and only if some
    line of the input matched with these three captures; the rows printed
    start with these keys, one row for each. *)
Theorem report_keys_exact lines rows :
  parse_lines lines [] = Ok rows →
  let keys := map fst (report_items rows) in
  NoDup keys ∧
  (∀ t mo o,
     In (t, mo, o) keys ↔
     ∃ line d, In line lines ∧ search pattern line = Some d ∧
       d !! "table" = Some t ∧ d !! "mode" = Some mo ∧ d !! "op" = Some o) ∧
  ∃ out,
    summarize rows = (out, Ok ()) ∧
    map (fun l => take 3 (split_on "009" l)) (drop 2 out) = map key_fields keys.
Proof.
  intros Hparse keys. split_and!.
  - apply report_items_NoDup.
  - pose proof Hparse as (new & -> & Hp)%parse_lines_parsed. simpl in *.
    intros t mo o. unfold keys. rewrite report_items_keys. split.
    + intros (r & Hr & Hk).
      destruct (parsed_In_row _ _ _ Hp Hr) as (line & d & Hin & Hs & Hmk).
      exists line, d.
      destruct (search_make_row _ _ _ Hs Hmk)
        as [pre post t' mo' o' p b s w tt _ Hd _ _ _ _ _ _ _ _ Ht Hmo Ho
              _ _ _ _ _].
      destruct (schema_groups_keys t' mo' o' p b s w tt) as (Et & Emo & Eo).
      unfold key_of in Hk. split_and!; try done; congruence.
    + intros (line & d & Hin & Hs & Ht & Hmo & Ho).
      destruct (parsed_In_line _ _ _ _ Hp Hin Hs) as (r & Hr & Hmk).
      exists r. split; [done|].
      destruct (search_make_row _ _ _ Hs Hmk)
        as [pre post t' mo' o' p b s w tt _ -> _ _ _ _ _ _ _ _ Ht' Hmo' Ho'
              _ _ _ _ _].
      destruct (schema_groups_keys t' mo' o' p b s w tt) as (Et & Emo & Eo).
      unfold key_of. congruence.
  - destruct rows as [|r rows].
    + by exists ["No ingest_metrics lines found"].
    + destruct (report_lines lines (r :: rows) Hparse) as (body & Hsum & Hall);
        [done|].
      eexists. split; [exact Hsum|]. simpl. by apply group_line_keys.
Qed.

Lemma report_keys_exact_witness :
  parse_lines [mixed_line; "noise" +:+ nl] [] = Ok [mixed_row] ∧
  ∃ out,
    summarize [mixed_row] = (out, Ok ()) ∧
    map (fun l => take 3 (split_on "009" l)) (drop 2 out) =
      [["orders"; "batch"; "insert"]].
Proof.
  assert (parse_lines [mixed_line; "noise" +:+ nl] [] = Ok [mixed_row]) as Hp
    by (vm_compute; reflexivity).
  split; [exact Hp|].
  exact (proj2 (proj2 (report_keys_exact _ _ Hp))).
Defined.

(** C3 as worded, with the header as the first line of the output, fails on
    a file with one matching line: the first line printed is a title. *)
Lemma header_first_counterexample :
  let run :=
    main ["parse_ingest_metrics.py"; "ingest.log"]
      (one_file "ingest.log" mixed_line) in
  parse_lines (readlines mixed_line) [] = Ok [mixed_row] ∧
  run.2 = Exit 0 ∧ ¬ ∃ body, run.1 = header :: body.
Proof.
  split_and!; [by vm_compute..|].
  intros [body Hb]. vm_compute in Hb. discriminate Hb.
Qed.

(** C3, amended: when at least one record was parsed, the output is the
    title line, then the header line, whose tab-separated fields are the
    nine column names, then one line for each group, and nothing else; a
    group line has nine tab-separated fields: the key, the count written as
    a decimal integer, and the five means, each written with exactly one
    decimal digit when it is finite. *)
Theorem report_layout prog path rest (fs : filesystem) text rows :
  fs path = Some text →
  parse_lines (readlines text) [] = Ok rows → rows ≠ [] →
  ∃ body,
    main (prog :: path :: rest) fs =
      ("Averages by (table, mode, op):" :: header :: body, Exit 0) ∧
    split_on "009" header =
      ["table"; "mode"; "op"; "count"; "parse_ms"; "build_ms"; "send_ms";
       "wait_lsn_ms"; "total_ms"] ∧
    Forall2 (fun item line =>
      ∃ count avgs,
        split_on "009" line = key_fields item.1 ++ count :: map format_1f avgs ∧
        count = str_of_N (N.of_nat (length item.2)) ∧
        is_decimal count = true ∧
        Forall2 (fun (f : row → float) avg => mean (map f item.2) = Ok avg)
          [parse; build; send; wait; total] avgs ∧
        Forall (fun avg =>
          is_finite avg = true → is_one_decimal (format_1f avg) = true) avgs)
      (report_items rows) body.
Proof.
  intros Hfs Hp Hne.
  destruct (report_lines _ rows Hp Hne) as (body & Hs & Hall).
  exists body. split_and!; [|done|].
  { unfold main, parse_file. by rewrite Hfs, Hp, Hs. }
  eapply Forall2_impl; [exact Hall|]. intros item line (avgs & Hm & Hsplit).
  exists (str_of_N (N.of_nat (length item.2))), avgs.
  split_and!; [done|done|apply str_of_N_decimal|done|].
  apply Forall_forall. intros avg _. apply format_1f_one_decimal.
Qed.

Lemma report_layout_witness :
  ∃ body,
    main ["parse_ingest_metrics.py"; "ingest.log"]
      (one_file "ingest.log" mixed_line) =
      ("Averages by (table, mode, op):" :: header :: body, Exit 0) ∧
    map (split_on "009") body =
      [["orders"; "batch"; "insert"; "1"; "10.0"; "5.0"; "2.0"; "1.0"; "13.0"]].
Proof.
  destruct (report_layout "parse_ingest_metrics.py" "ingest.log" []
              (one_file "ingest.log" mixed_line) mixed_line [mixed_row])
    as (body & Hs & _ & _).
  - reflexivity.
  - vm_compute. reflexivity.
  - discriminate.
  - exists body. split; [exact Hs|]. vm_compute in Hs.
    injection Hs as <-. vm_compute. reflexivity.
Defined.

(** A millisecond value beyond the floats is read as infinity, and the mean
    of its group is printed as [inf], without a decimal digit. *)
Example infinite_mean_printed :
  map (split_on "009")
    (main ["parse_ingest_metrics.py"; "ingest.log"]
       (one_file "ingest.log" huge_ms_line)).1 =
    [["Averages by (table, mode, op):"];
     ["table"; "mode"; "op"; "count"; "parse_ms"; "build_ms"; "send_ms";
      "wait_lsn_ms"; "total_ms"];
     ["t"; "m"; "o"; "1"; "1.0"; "1.0"; "1.0"; "1.0"; "inf"]].
Proof. by vm_compute. Qed.

(** C4: the rows of the report are printed in strictly ascending
    lexicographic order of (table, mode, op), strings compared by code
    point, so that upper case sorts before lower case; the group (a, x, y)
    is printed before the group (b, x, y) whatever the input order. *)
Theorem report_sorted lines rows :
  parse_lines lines [] = Ok rows → rows ≠ [] →
  (∃ keys body,
    summarize rows =
      ("Averages by (table, mode, op):" :: header :: body, Ok ()) ∧
    map (fun l => take 3 (split_on "009" l)) body = map key_fields keys ∧
    StronglySorted lex_lt keys) ∧
  lex_lt ("B", "x", "y") ("a", "x", "y") ∧
  (summarize [row_b; row_a]).1 =
    ["Averages by (table, mode, op):"; header;
     "a" +:+ tab +:+ "x" +:+ tab +:+ "y" +:+ tab +:+ "1" +:+ tab +:+ "1.0"
       +:+ tab +:+ "1.0" +:+ tab +:+ "1.0" +:+ tab +:+ "1.0" +:+ tab +:+ "10.0";
     "b" +:+ tab +:+ "x" +:+ tab +:+ "y" +:+ tab +:+ "1" +:+ tab +:+ "2.0"
       +:+ tab +:+ "2.0" +:+ tab +:+ "2.0" +:+ tab +:+ "2.0" +:+ tab +:+ "8.0"].
Proof.
  intros Hp Hne. split_and!; [|by left|by vm_compute].
  destruct (report_lines lines rows Hp Hne) as (body & Hs & Hall).
  exists (map fst (report_items rows)), body. split_and!; [done| |].
  - by apply group_line_keys.
  - pose proof (report_items_sorted rows) as Hsorted.
    induction Hsorted as [|k ks _ IH Hk]; constructor; [done|].
    eapply Forall_impl; [exact Hk|]. intros k'. apply key_lt_lex.
Qed.

Lemma report_sorted_witness :
  ∃ keys body,
    summarize [row_b; row_a] =
      ("Averages by (table, mode, op):" :: header :: body, Ok ()) ∧
    map (fun l => take 3 (split_on "009" l)) body = map key_fields keys ∧
    StronglySorted lex_lt keys.
Proof.
  apply (report_sorted [line_b; line_a] [row_b; row_a]).
  - vm_compute. reflexivity.
  - discriminate.
Defined.

(** C5 as worded fails where the mean of a group is no float: two records of
    one key with totals 2^53 and 2^53 + 2 have the mean 2^53 + 1, and the
    total printed is 9007199254740992.0, at the distance 1 of the mean. *)
Lemma mean_not_a_float_counterexample :
  let rows := [big_row; big_row'] in
  parse_lines [big_line; big_line'] [] = Ok rows ∧
  members ("t", "m", "o") rows = rows ∧
  (mean_Q (map total rows) == 9007199254740993)%Q ∧
  ∃ line q,
    summarize rows = (["Averages by (table, mode, op):"; header; line], Ok ()) ∧
    split_on "009" line =
      ["t"; "m"; "o"; "2"; "1.0"; "1.0"; "1.0"; "1.0"; "9007199254740992.0"] ∧
    decimal_Q "9007199254740992.0" = Some q ∧
    (Qabs (q - mean_Q (map total rows)) == 1)%Q.
Proof.
  intros rows. split; [by vm_compute|]. split; [by vm_compute|].
  split; [by vm_compute|].
  eexists _, _. split; [by vm_compute|]. split; [by vm_compute|].
  split; [by vm_compute|]. by vm_compute.
Qed.

(** C5, amended: the line printed for a group carries the number of records
    of the group, and for each of the five timing fields a text that, when
    the values of the field in the group are all finite, reads as a number
    within 0.05 + mean * 2^-53 + 2^-1075 of their arithmetic mean, the sum
    of the values divided by their number: the mean is rounded to a float,
    and the float to one decimal.  When a value is not finite the text is
    [inf].  Two records of one key with totals 10.0 and 20.0 are printed
    with count 2 and total 15.0. *)
Theorem group_means lines rows :
  parse_lines lines [] = Ok rows → rows ≠ [] →
  (∃ body,
    summarize rows =
      ("Averages by (table, mode, op):" :: header :: body, Ok ()) ∧
    Forall2 (fun item line =>
      let its := members item.1 rows in
      its ≠ [] ∧
      ∃ count texts,
        split_on "009" line = key_fields item.1 ++ count :: texts ∧
        decimal_value count = Some (Z.of_nat (length its)) ∧
        Forall2 (fun (f : row → float) text =>
          if forallb is_finite (map f its)
          then ∃ q, decimal_Q text = Some q ∧
                 (Qabs (q - mean_Q (map f its))
                  <= (1 # 20) + mean_Q (map f its) * 2 ^ (-53)
                     + 2 ^ (-1075))%Q
          else text = "inf")
          timings texts)
      (report_items rows) body) ∧
  map (split_on "009") (drop 2 (summarize [row_a; row_a']).1) =
    [["a"; "x"; "y"; "2"; "1.0"; "1.0"; "1.0"; "1.0"; "15.0"]].
Proof.
  intros Hp Hne. split; [|by vm_compute].
  destruct (report_lines lines rows Hp Hne) as (body & Hs & Hall).
  exists body. split; [done|].
  apply parse_lines_parsed in Hp as (new & -> & Hp%parsed_in_range).
  simpl in *.
  apply Forall2_same_length_lookup. split; [by eapply Forall2_length|].
  intros i [k its] line Hi Hline.
  destruct (Forall2_lookup_lr _ _ _ _ _ _ Hall Hi Hline) as (avgs & Hm & Hsplit).
  assert (In (k, its) (report_items new)) as [Hits Hnil]%report_items_members.
  { apply list_elem_of_In. by eapply list_elem_of_lookup_2. }
  simpl in *. rewrite <- Hits. split; [done|].
  exists (str_of_N (N.of_nat (length its))), (map format_1f avgs).
  split; [done|]. split.
  { rewrite decimal_value_str_of_N. f_equal. lia. }
  apply Forall2_fmap_r.
  assert (Forall (fun r => Forall (fun f => in_range (f r)) timings) its)
    as Hrange by (rewrite Hits; by apply members_Forall).
  assert (∀ f, In f timings → Forall in_range (map f its)) as Hf.
  { intros f Hin. apply Forall_fmap, Forall_forall. intros r Hr.
    rewrite Forall_forall in Hrange. specialize (Hrange r Hr).
    rewrite Forall_forall in Hrange. by apply Hrange, list_elem_of_In. }
  assert (∀ f avg, In f timings → mean (map f its) = Ok avg →
    if forallb is_finite (map f its)
    then ∃ q, decimal_Q (format_1f avg) = Some q ∧
           (Qabs (q - mean_Q (map f its))
            <= (1 # 20) + mean_Q (map f its) * 2 ^ (-53) + 2 ^ (-1075))%Q
    else format_1f avg = "inf") as G.
  { intros f avg Hin Hmean.
    destruct (forallb is_finite (map f its)) eqn:Hfin.
    - by apply printed_mean_close; [|apply Hf|].
    - by rewrite (mean_infinite _ _ Hmean (Hf f Hin) Hfin). }
  unfold timings in *.
  repeat (apply Forall2_cons_inv_l in Hm as (? & ? & ? & Hm & ->)).
  apply Forall2_nil_inv_l in Hm as ->.
  repeat (apply List.Forall2_cons; [apply G; [simpl; auto 6|done]|]).
  apply List.Forall2_nil.
Qed.

Lemma group_means_witness :
  ∃ body,
    summarize [row_a; row_b; row_a'] =
      ("Averages by (table, mode, op):" :: header :: body, Ok ()) ∧
    map (split_on "009") body =
      [["a"; "x"; "y"; "2"; "1.0"; "1.0"; "1.0"; "1.0"; "15.0"];
       ["b"; "x"; "y"; "1"; "2.0"; "2.0"; "2.0"; "2.0"; "8.0"]].
Proof.
  destruct (proj1 (group_means [line_a; line_b; line_a'] [row_a; row_b; row_a']
    ltac:(vm_compute; reflexivity) ltac:(discriminate))) as (body & Hs & _).
  exists body. split; [exact Hs|]. vm_compute in Hs.
  injection Hs as <-. vm_compute. reflexivity.
Defined.

(** C6: when no line of the file matches, the empty file included, the
    program prints the one line [No ingest_metrics lines found] and ends
    with exit code 0. *)
Theorem no_match_message prog path rest (fs : filesystem) text :
  fs path = Some text →
  (∀ line, In line (readlines text) → search pattern line = None) →
  main (prog :: path :: rest) fs = (["No ingest_metrics lines found"], Exit 0).
Proof.
  intros Hfs Hno. unfold main, parse_file. rewrite Hfs.
  assert (parse_lines (readlines text) [] = Ok []) as ->; [|done].
  generalize (@nil row). induction (readlines text) as [|l ls IH]; [done|].
  intros acc. simpl. rewrite (Hno l) by by left. apply IH.
  intros line Hin. apply Hno. by right.
Qed.

Lemma no_match_message_witness :
  main ["parse_ingest_metrics.py"; "empty.log"] (one_file "empty.log" "") =
    (["No ingest_metrics lines found"], Exit 0) ∧
  main ["parse_ingest_metrics.py"; "other.log"]
    (one_file "other.log" ("started" +:+ nl +:+ nl +:+ "ingest_metrics table=a" +:+ nl)) =
    (["No ingest_metrics lines found"], Exit 0).
Proof.
  split.
  - apply (no_match_message _ _ _ _ ""); [reflexivity|]. intros line [].
  - eapply no_match_message; [reflexivity|].
    intros line Hin. vm_compute in Hin.
    destruct Hin as [<-|[<-|[<-|[]]]]; vm_compute; reflexivity.
Defined.

(** C7: with the file argument present and the file readable, a matching
    line whose microsecond value is beyond the floats ends the run with an
    uncaught [OverflowError] of the division by 1000.0: nothing is printed
    and the exit code is 1, whatever standard output encodes and whatever
    the order of the dict.  The same number in a millisecond field is
    accepted: [float] reads it as [inf], the mean printed is [inf] and the
    exit code is 0. *)
Theorem huge_microseconds_uncaught enc ord :
  let argv := ["parse_ingest_metrics.py"; "ingest.log"] in
  main_on enc ord argv (one_file "ingest.log" huge_us_line)
    = ([], Uncaught OverflowError) ∧
  exit_code (main_on enc ord argv (one_file "ingest.log" huge_us_line)).2 = 1 ∧
  main_on utf_8 id argv (one_file "ingest.log" huge_ms_line)
    = (["Averages by (table, mode, op):"; header;
        "t" +:+ tab +:+ "m" +:+ tab +:+ "o" +:+ tab +:+ "1" +:+ tab +:+ "1.0"
        +:+ tab +:+ "1.0" +:+ tab +:+ "1.0" +:+ tab +:+ "1.0" +:+ tab
        +:+ "inf"], Exit 0).
Proof.
  intros argv.
  assert (parse_file (one_file "ingest.log" huge_us_line) "ingest.log"
          = Raise OverflowError) as H by (vm_compute; reflexivity).
  unfold main_on, argv. rewrite H. split_and!; [done|done|].
  vm_compute. reflexivity.
Qed.


(** C9: two runs with the same arguments, on the same standard output and
    on files that agree on the file named by the first argument, print the
    same lines and end the same way, whatever the order in which the dict
    of each run yields its items: the groups are sorted before they are
    printed, and the keys of a dict differ pairwise. *)
Theorem run_deterministic enc ord ord' argv (fs fs' : filesystem) :
  dict_order ord → dict_order ord' →
  (∀ path, argv !! 1%nat = Some path → fs path = fs' path) →
  main_on enc ord argv fs = main_on enc ord' argv fs'.
Proof.
  intros Hord Hord' Hfs. rewrite !main_on_written by done.
  destruct argv as [|prog [|path rest]]; [done..|].
  unfold main, parse_file. by rewrite (Hfs path).
Qed.

Lemma run_deterministic_witness :
  let argv := ["parse_ingest_metrics.py"; "a.log"] in
  let text := line_b +:+ line_a +:+ line_a' in
  group_rows [row_b; row_a; row_a'] ≠ rev (group_rows [row_b; row_a; row_a']) ∧
  main_on us_ascii id argv (one_file "a.log" text) =
  main_on us_ascii (@rev _) argv
    (fun path => if String.eqb path "b.log" then Some "other"
                 else one_file "a.log" text path).
Proof.
  intros argv text. split; [by vm_compute|].
  apply run_deterministic.
  - intros l. reflexivity.
  - intros l. symmetry. apply Permutation_rev.
  - intros path [= <-]. reflexivity.
Defined.

(** C10: a line adds at most one record to the rows: none when nothing in
    it matches, and otherwise the one built from the match that starts
    leftmost in the line; a line with two complete records yields the first
    one only. *)
Theorem one_record_per_line line acc rows :
  parse_lines [line] acc = Ok rows →
  ((search pattern line = None ∧ rows = acc) ∨
   (∃ d r pre m post,
      search pattern line = Some d ∧ make_row d = Ok r ∧ rows = acc ++ [r] ∧
      line = pre +:+ m +:+ post ∧ schema_match m d ∧
      ∀ pre' m' post' d',
        line = pre' +:+ m' +:+ post' → schema_match m' d' →
        (String.length pre ≤ String.length pre')%nat)) ∧
  (∀ lines rows',
     parse_lines lines [] = Ok rows' → (length rows' ≤ length lines)%nat) ∧
  parse_lines [two_records_line] [] = Ok [first_record].
Proof.
  intros Hp. split_and!; [| |by vm_compute].
  - simpl in Hp. destruct (search pattern line) as [d|] eqn:Hs.
    + right. apply bind_Ok in Hp as (r & Hr & [= <-]).
      destruct (search_Some _ _ _ Hs) as (pre & m & post & -> & _ & Hm & Hleft).
      exists d, r, pre, m, post. split_and!; try done.
      * by apply matches_pattern.
      * intros pre' m' post' d' Heq Hm'. eapply Hleft; [done|].
        by apply matches_pattern.
    + left. by injection Hp as <-.
  - intros lines rows' (new & -> & Hnew)%parse_lines_parsed.
    by apply parsed_length.
Qed.

Lemma one_record_per_line_witness :
  ∃ d r pre m post,
    search pattern two_records_line = Some d ∧ make_row d = Ok r ∧
    [first_record] = [] ++ [r] ∧
    two_records_line = pre +:+ m +:+ post ∧ schema_match m d ∧
    ∀ pre' m' post' d',
      two_records_line = pre' +:+ m' +:+ post' → schema_match m' d' →
      (String.length pre ≤ String.length pre')%nat.
Proof.
  assert (parse_lines [two_records_line] [] = Ok [first_record]) as Hp
    by (vm_compute; reflexivity).
  destruct (proj1 (one_record_per_line two_records_line [] _ Hp))
    as [[Hs _]|H]; [|exact H].
  assert (match search pattern two_records_line with
          | Some _ => true
          | None => false
          end = true) as E by (vm_compute; reflexivity).
  rewrite Hs in E. discriminate E.
Defined.

(** * Further properties of the script *)

(** ** The match found in a line *)

Lemma app_inv_head_s (a b c : string) : a +:+ b = a +:+ c → b = c.
Proof. induction a as [|x a IH]; simpl; [done|]. intros [= H]. auto. Qed.

Lemma app_inv_length_s (a a' b b' : string) :
  a +:+ b = a' +:+ b' → String.length a = String.length a' → a = a' ∧ b = b'.
Proof.
  revert a'. induction a as [|x a IH]; intros [|x' a']; simpl; try done.
  intros [= -> H] [= Hl]. destruct (IH _ H Hl) as [-> ->]. done.
Qed.

Section MatcherGreedy.
Context {A : Type}.

(** With a continuation that accepts everything, the greedy star keeps the
    longest run. *)
Lemma star_class_greedy c s (k : string → string → option A) x :
  (∀ m rest, is_Some (k m rest)) →
  star_class c s k = Some x →
  ∃ m rest, s = m +:+ rest ∧ all_class c m = true ∧
    starts_with c rest = false ∧ k m rest = Some x.
Proof.
  revert k x. induction s as [|a s IH]; intros k x Hk; simpl.
  - intros H. by exists EmptyString, EmptyString.
  - destruct (c a) eqn:Ha.
    + destruct (star_class c s (fun m rest => k (String a m) rest))
        as [y|] eqn:Hy.
      * intros [= ->].
        apply IH in Hy as (m & rest & -> & Hm & Hr & Hx); [|intros; apply Hk].
        exists (String a m), rest. simpl. by rewrite Ha, Hm.
      * destruct (star_class_complete c EmptyString s
                    (fun m rest => k (String a m) rest)) as [z Hz];
          [done|apply Hk|]. simpl in Hz. congruence.
    + intros H. exists EmptyString, (String a s). simpl. by rewrite Ha.
Qed.

Lemma bt_greedy c r :
  tail_class c r →
  ∀ s g (k : string → string → gmap string string → option A) x,
    (∀ m rest g', is_Some (k m rest g')) →
    bt r s g k = Some x →
    ∃ m rest g', s = m +:+ rest ∧ matches r g m g' ∧
      starts_with c rest = false ∧ k m rest g' = Some x.
Proof.
  induction 1 as [|r1 r2 _ IH|r1 r2 _ IH1 _ IH2|n r _ IH];
    intros s g k x Hk; simpl.
  - destruct s as [|a s]; [done|]. destruct (c a) eqn:Ha; [|done].
    intros (m & rest & -> & Hm & Hr & Hx)%star_class_greedy;
      [|intros; apply Hk].
    exists (String a m), rest, g. split_and!; try done. by constructor.
  - intros (m1 & rest1 & g1 & -> & Hm1 & H)%bt_sound.
    apply IH in H as (m2 & rest & g2 & -> & Hm2 & Hr & Hx);
      [|intros; apply Hk].
    exists (m1 +:+ m2), rest, g2. rewrite app_assoc_s.
    split_and!; try done. by econstructor.
  - destruct (bt r1 s g k) as [y|] eqn:Hy.
    + intros [= ->].
      apply IH1 in Hy as (m & rest & g' & -> & Hm & Hr & Hx); [|done].
      exists m, rest, g'. split_and!; try done. by apply matches_alt_l.
    + intros H.
      apply IH2 in H as (m & rest & g' & -> & Hm & Hr & Hx); [|done].
      exists m, rest, g'. split_and!; try done. by apply matches_alt_r.
  - intros H.
    apply IH in H as (m & rest & g' & -> & Hm & Hr & Hx); [|intros; apply Hk].
    exists m, rest, (<[n := m]> g'). split_and!; try done. by constructor.
Qed.
End MatcherGreedy.

Lemma pattern_tail : tail_class class_d pattern.
Proof. unfold pattern, timing. repeat constructor. Qed.

Lemma match_here_greedy c r s m g :
  tail_class c r → match_here r s = Some (m, g) →
  ∃ rest, s = m +:+ rest ∧ matches r ∅ m g ∧ starts_with c rest = false.
Proof.
  intros Ht H. unfold match_here in H.
  apply (bt_greedy c r Ht) in H
    as (m' & rest & g' & -> & Hm & Hr & [= <- <-]); [|by eexists].
  by exists rest.
Qed.

(** A run of characters of a class, followed by a text that starts with none:
    the run is determined by the whole. *)
Lemma run_unique c (a a' r r' : string) :
  all_class c a = true → all_class c a' = true →
  starts_with c r = false → starts_with c r' = false →
  a +:+ r = a' +:+ r' → a = a' ∧ r = r'.
Proof.
  revert a'. induction a as [|x a IH]; intros [|x' a']; simpl.
  - done.
  - intros _ [Hx _]%andb_true_iff Hr _ ->. simpl in *. congruence.
  - intros [Hx _]%andb_true_iff _ _ Hr' <-. simpl in *. congruence.
  - intros [_ Ha]%andb_true_iff [_ Ha']%andb_true_iff Hr Hr' [= -> H].
    destruct (IH _ Ha Ha' Hr Hr' H) as [-> ->]. done.
Qed.

Lemma is_token_all s : is_token s = true → all_class class_S s = true.
Proof. by destruct s. Qed.

Lemma field_text_unique k_ms k_us (c c' : capture) (r r' : string) :
  (∀ x y : string, k_ms +:+ x ≠ k_us +:+ y) →
  is_decimal c.2 = true → is_decimal c'.2 = true →
  starts_with class_d r = false → starts_with class_d r' = false →
  field_text k_ms k_us c +:+ r = field_text k_ms k_us c' +:+ r' →
  c = c' ∧ r = r'.
Proof.
  intros Hk Hc%is_decimal_all Hc'%is_decimal_all Hr Hr'.
  unfold field_text. rewrite !app_assoc_s.
  destruct c as [[] v], c' as [[] v']; simpl in *; intros H.
  - apply app_inv_head_s in H.
    by destruct (run_unique _ _ _ _ _ Hc Hc' Hr Hr' H) as [-> ->].
  - symmetry in H. by apply Hk in H.
  - by apply Hk in H.
  - apply app_inv_head_s in H.
    by destruct (run_unique _ _ _ _ _ Hc Hc' Hr Hr' H) as [-> ->].
Qed.

Lemma token_unique (l t t' r r' : string) :
  starts_with class_S l = false → l ≠ EmptyString →
  is_token t = true → is_token t' = true →
  t +:+ l +:+ r = t' +:+ l +:+ r' → t = t' ∧ r = r'.
Proof.
  intros Hl Hne Ht%is_token_all Ht'%is_token_all H.
  apply (run_unique class_S) in H as [-> H]; try done.
  - by apply app_inv_head_s in H.
  - by destruct l.
  - by destruct l.
Qed.

Lemma schema_text_app t mo o (p b s w tt : capture) post :
  schema_text t mo o p b s w tt +:+ post =
  "ingest_metrics table=" +:+ t +:+ " mode=" +:+ mo +:+ " op=" +:+ o
  +:+ " " +:+ field_text "parse_ms=" "parse_us=" p
  +:+ " " +:+ field_text "build_ms=" "build_us=" b
  +:+ " " +:+ field_text "send_ms=" "send_us=" s
  +:+ " " +:+ field_text "wait_lsn_ms=" "wait_lsn_us=" w
  +:+ " " +:+ (field_text "total_ms=" "total_us=" tt +:+ post).
Proof.
  unfold schema_text.
  generalize (field_text "parse_ms=" "parse_us=" p)
    (field_text "build_ms=" "build_us=" b)
    (field_text "send_ms=" "send_us=" s)
    (field_text "wait_lsn_ms=" "wait_lsn_us=" w)
    (field_text "total_ms=" "total_us=" tt).
  intros fp fb fs fw ft. simpl.
  repeat (rewrite !app_assoc_s; simpl). reflexivity.
Qed.

(** Two texts of the schema that start at the same place, each followed by
    no further digit, are the same text with the same captures. *)
Lemma schema_match_unique m m' d d' post post' :
  schema_match m d → schema_match m' d' →
  starts_with class_d post = false → starts_with class_d post' = false →
  m +:+ post = m' +:+ post' → m = m' ∧ d = d'.
Proof.
  intros [t mo o p b s w tt Ht Hmo Ho Hp Hb Hs Hw Htt]
    [t' mo' o' p' b' s' w' tt' Ht' Hmo' Ho' Hp' Hb' Hs' Hw' Htt'] Hpost Hpost'.
  rewrite !schema_text_app. intros H.
  apply app_inv_head_s in H.
  apply (token_unique " mode=") in H as [-> H]; [|done..].
  apply (token_unique " op=") in H as [-> H]; [|done..].
  apply (token_unique " ") in H as [-> H]; [|done..].
  apply field_text_unique in H as [-> H]; [|by intros x y [=]|done..].
  apply app_inv_head_s in H.
  apply field_text_unique in H as [-> H]; [|by intros x y [=]|done..].
  apply app_inv_head_s in H.
  apply field_text_unique in H as [-> H]; [|by intros x y [=]|done..].
  apply app_inv_head_s in H.
  apply field_text_unique in H as [-> H]; [|by intros x y [=]|done..].
  apply app_inv_head_s in H.
  apply field_text_unique in H as [-> H]; [|by intros x y [=]|done..].
  done.
Qed.

Lemma search_greedy line d :
  search pattern line = Some d →
  ∃ pre m post,
    line = pre +:+ m +:+ post ∧ schema_match m d ∧
    starts_with class_d post = false ∧
    ∀ pre' m' post' d',
      line = pre' +:+ m' +:+ post' → schema_match m' d' →
      (String.length pre ≤ String.length pre')%nat.
Proof.
  intros (pre & m & post & -> & Hh & Hm & Hleft)%search_Some.
  apply (match_here_greedy class_d) in Hh as (rest & Hrest & _ & Hr);
    [|apply pattern_tail].
  apply app_inv_head_s in Hrest as ->.
  exists pre, m, rest. split_and!; [done|by apply matches_pattern|done|].
  intros pre' m' post' d' E Hm'. eapply Hleft; [done|].
  by apply matches_pattern.
Qed.

Lemma search_schema line d :
  search pattern line = Some d →
  ∃ pre m post, line = pre +:+ m +:+ post ∧ schema_match m d.
Proof.
  intros (pre & m & post & -> & _ & Hm & _)%search_Some.
  exists pre, m, post. split; [done|]. by apply matches_pattern.
Qed.

(** X1: [pattern.search(line)] returns the groups [d] exactly when [d] are
    the captures of the text of the schema that starts leftmost in the line
    and whose last number is not cut short (no digit follows it); that text
    and its captures are unique, so the groups of a line are determined by
    the line without reference to the order in which the matcher tries its
    alternatives. *)
Theorem search_leftmost_longest line d :
  search pattern line = Some d ↔
  ∃ pre m post,
    line = pre +:+ m +:+ post ∧ schema_match m d ∧
    starts_with class_d post = false ∧
    ∀ pre' m' post' d',
      line = pre' +:+ m' +:+ post' → schema_match m' d' →
      (String.length pre ≤ String.length pre')%nat.
Proof.
  split; [apply search_greedy|].
  intros (pre & m & post & -> & Hm & Hpost & Hleft).
  destruct (search pattern (pre +:+ m +:+ post)) as [d0|] eqn:Hs.
  - apply search_greedy in Hs
      as (pre0 & m0 & post0 & E & Hm0 & Hpost0 & Hleft0).
    pose proof (Hleft _ _ _ _ E Hm0) as H1.
    pose proof (Hleft0 _ _ _ _ eq_refl Hm) as H2.
    apply app_inv_length_s in E as [-> E]; [|lia].
    by destruct (schema_match_unique _ _ _ _ _ _ Hm Hm0 Hpost Hpost0 E)
      as [_ ->].
  - exfalso. eapply search_None; [exact Hs|reflexivity|].
    by apply matches_pattern.
Qed.

(** X2: in the groups of every match, each of the five categories has
    exactly one of its two groups set, to a non-empty text of digits, and the
    groups table, mode and op are set to non-empty texts without white
    space: the default [0.0] of [pick_ms] and a subscript that yields [None]
    never occur. *)
Theorem one_unit_per_category line d :
  search pattern line = Some d →
  one_unit d "parse_ms" "parse_us" ∧ one_unit d "build_ms" "build_us" ∧
  one_unit d "send_ms" "send_us" ∧ one_unit d "wait_ms" "wait_us" ∧
  one_unit d "total_ms" "total_us" ∧
  (∃ t mo o, d !! "table" = Some t ∧ d !! "mode" = Some mo ∧
     d !! "op" = Some o ∧ is_token t = true ∧ is_token mo = true ∧
     is_token o = true).
Proof.
  intros (pre & m & post & _ & Hm)%search_schema.
  destruct Hm as [t mo o p b s w tt Ht Hmo Ho Hp Hb Hs Hw Htt].
  destruct (schema_groups_fields t mo o p b s w tt)
    as ([Ep1 Ep2] & [Eb1 Eb2] & [Es1 Es2] & [Ew1 Ew2] & [Et1 Et2]).
  destruct (schema_groups_keys t mo o p b s w tt) as (Kt & Kmo & Ko).
  assert (∀ (c : capture) ms us dd,
    is_decimal c.2 = true →
    dd !! us = (if c.1 then Some c.2 else None) →
    dd !! ms = (if c.1 then None else Some c.2) → one_unit dd ms us) as H.
  { intros [[] v] ms us dd Hv E1 E2; exists v; simpl in *; split; auto. }
  split_and!;
    [by apply (H p)|by apply (H b)|by apply (H s)|by apply (H w)
    |by apply (H tt)|by exists t, mo, o].
Qed.

Lemma one_unit_per_category_witness :
  let d :=
    schema_groups "orders" "batch" "insert" (false, "10") (true, "5000")
      (false, "2") (true, "1000") (false, "13") in
  search pattern mixed_line = Some d ∧
  one_unit d "build_ms" "build_us".
Proof.
  intros d.
  assert (search pattern mixed_line = Some d) as Hs
    by (vm_compute; reflexivity).
  split; [exact Hs|].
  exact (proj1 (proj2 (one_unit_per_category mixed_line d Hs))).
Defined.

(** ** Signs: what a conversion yields is no NaN and has no sign *)

Lemma shr_1_nonneg mrs : 0 ≤ shr_m mrs → 0 ≤ shr_m (shr_1 mrs).
Proof. destruct mrs as [[|[p|p|]|p] r s]; simpl; lia. Qed.

Lemma iter_shr_1_nonneg p mrs :
  0 ≤ shr_m mrs → 0 ≤ shr_m (SpecFloat.iter_pos shr_1 p mrs).
Proof.
  revert mrs. induction p as [p IH|p IH|]; intros mrs H; simpl.
  - by apply IH, IH, shr_1_nonneg.
  - by apply IH, IH.
  - by apply shr_1_nonneg.
Qed.

Lemma shr_fexp_nonneg m e l :
  0 ≤ m → 0 ≤ shr_m (shr_fexp prec emax m e l).1.
Proof.
  intros H. unfold shr_fexp, shr.
  assert (shr_m (shr_record_of_loc m l) = m) as Hm by by destruct l as [|[]].
  destruct (fexp prec emax (Zdigits2 m + e) - e) as [|p|p]; simpl;
    rewrite <- Hm in H; [done| |done].
  by apply iter_shr_1_nonneg.
Qed.

Lemma round_nearest_even_nonneg m l : 0 ≤ m → 0 ≤ round_nearest_even m l.
Proof.
  intros H. destruct l as [|[]]; simpl; try lia. destruct (Z.even m); lia.
Qed.

(** Rounding a non-negative mantissa with the sign bit clear. *)
Lemma binary_round_aux_nonneg mx ex lx :
  0 ≤ mx → nonneg (binary_round_aux prec emax false mx ex lx) = true.
Proof.
  intros H. unfold binary_round_aux.
  pose proof (shr_fexp_nonneg mx ex lx H) as H1.
  destruct (shr_fexp prec emax mx ex lx) as [mrs' e']. simpl in H1.
  pose proof (shr_fexp_nonneg _ e' loc_Exact
    (round_nearest_even_nonneg _ (loc_of_shr_record mrs') H1)) as H2.
  destruct (shr_fexp prec emax _ e' loc_Exact) as [mrs'' e'']. simpl in H2.
  destruct (shr_m mrs'') as [|m|m]; [done| |lia].
  by destruct (e'' <=? emax - prec).
Qed.

Lemma float_of_Z_nonneg n : 0 ≤ n → nonneg (float_of_Z n) = true.
Proof.
  intros H. unfold float_of_Z, binary_normalize.
  destruct n as [|m|m]; [done| |lia].
  unfold binary_round. destruct (shl_align m 0 _) as [mz ez].
  by apply binary_round_aux_nonneg.
Qed.

Lemma SFdiv_nonneg x my ey :
  nonneg x = true →
  nonneg (SFdiv prec emax x (S754_finite false my ey)) = true.
Proof.
  destruct x as [[]|[]| |[] mx ex]; try done. intros _. unfold SFdiv.
  destruct (SFdiv_core_binary prec emax (Z.pos mx) ex (Z.pos my) ey)
    as [[mz ez] lz] eqn:Hcore.
  apply binary_round_aux_nonneg.
  unfold SFdiv_core_binary in Hcore.
  set (s := ex - ey - _) in Hcore.
  set (m' := match s with Z0 => Z.pos mx | Z.pos _ => Z.shiftl (Z.pos mx) s
             | Z.neg _ => 0 end) in Hcore.
  assert (0 ≤ m') as Hm'.
  { unfold m'. destruct s; [lia| |lia]. apply Z.shiftl_nonneg. lia. }
  pose proof (Z.div_pos m' (Z.pos my) Hm' ltac:(lia)) as Hq.
  unfold Z.div in Hq. destruct (Z.div_eucl m' (Z.pos my)) as [q r].
  by injection Hcore as <- _ _.
Qed.

Lemma decimal_float_nonneg v :
  is_decimal v = true → nonneg (float_of_Z (digits_value 0 v)) = true.
Proof.
  intros Hv%is_decimal_all. apply float_of_Z_nonneg.
  by apply digits_value_nonneg.
Qed.

Lemma int_truediv_float_nonneg n x :
  0 ≤ n → int_truediv_float n float_1000 = Ok x → nonneg x = true.
Proof.
  intros Hn%float_of_Z_nonneg. unfold int_truediv_float.
  assert (∃ m e, float_1000 = S754_finite false m e) as (m & e & ->)
    by (vm_compute; eauto).
  pose proof (SFdiv_nonneg (float_of_Z n) m e Hn) as H.
  destruct (float_of_Z n); by intros [= <-].
Qed.

Lemma convert_nonneg (c : capture) x :
  is_decimal c.2 = true → convert c = Ok x → nonneg x = true.
Proof.
  intros Hd.
  pose proof (digits_value_nonneg c.2 0 (is_decimal_all _ Hd) ltac:(lia))
    as Hn.
  unfold convert, int_of_str, float_of_str. rewrite Hd. destruct c.1.
  - destruct (_ <? _)%nat; [done|]. by apply int_truediv_float_nonneg.
  - intros [= <-]. by apply float_of_Z_nonneg.
Qed.

(** ** How a run fails *)

Lemma bind_Raise {A B} (m : result A) (f : A → result B) e :
  m ≫= f = Raise e ↔ m = Raise e ∨ ∃ a, m = Ok a ∧ f a = Raise e.
Proof. destruct m as [a|e']; simpl; naive_solver. Qed.

(** Only a microsecond capture fails to convert. *)
Lemma convert_Raise (c : capture) e :
  is_decimal c.2 = true → convert c = Raise e →
  c.1 = true ∧ us_failure c.2 e.
Proof.
  destruct c as [[] v]; simpl; intros Hv; unfold convert; simpl.
  - pose proof (decimal_float_nonneg v Hv) as Hn.
    unfold int_of_str, int_truediv_float, us_failure. rewrite Hv.
    destruct (int_max_str_digits <? String.length v)%nat eqn:Hlen; simpl.
    + apply Nat.ltb_lt in Hlen. intros [= <-]. split; [done|]. by left.
    + apply Nat.ltb_ge in Hlen.
      destruct (float_of_Z (digits_value 0 v)) as [|[]| |] eqn:Hf;
        try discriminate.
      intros [= <-]. split; [done|]. right. by split_and!.
  - unfold float_of_str. by rewrite Hv.
Qed.

Lemma make_row_Raise m d e :
  schema_match m d → make_row d = Raise e →
  ∃ k v, In k us_keys ∧ d !! k = Some v ∧ us_failure v e.
Proof.
  intros [t mo o p b s w tt _ _ _ Hp Hb Hs Hw Ht].
  rewrite make_row_schema by done.
  destruct (schema_groups_fields t mo o p b s w tt)
    as ([Ep _] & [Eb _] & [Es _] & [Ew _] & [Et _]).
  assert (∀ (c : capture) k,
    In k us_keys → is_decimal c.2 = true →
    schema_groups t mo o p b s w tt !! k = (if c.1 then Some c.2 else None) →
    convert c = Raise e →
    ∃ k v, In k us_keys ∧ schema_groups t mo o p b s w tt !! k = Some v ∧
      us_failure v e) as H.
  { intros c k Hk Hc E [Hu Hf]%convert_Raise; [|done].
    rewrite Hu in E. by exists k, c.2. }
  unfold us_keys in H.
  intros [Hr|(p' & _ & Hr)]%bind_Raise;
    [apply (H p "parse_us"); simpl; auto|].
  apply bind_Raise in Hr as [Hr|(b' & _ & Hr)];
    [apply (H b "build_us"); simpl; auto|].
  apply bind_Raise in Hr as [Hr|(s' & _ & Hr)];
    [apply (H s "send_us"); simpl; auto|].
  apply bind_Raise in Hr as [Hr|(w' & _ & Hr)];
    [apply (H w "wait_us"); simpl; auto|].
  apply bind_Raise in Hr as [Hr|(tt' & _ & Hr)];
    [apply (H tt "total_us"); simpl; auto 6|].
  discriminate Hr.
Qed.

Lemma parse_lines_Raise lines acc e :
  parse_lines lines acc = Raise e →
  ∃ line d, In line lines ∧ search pattern line = Some d ∧
    make_row d = Raise e.
Proof.
  revert acc. induction lines as [|line lines IH]; intros acc; simpl; [done|].
  destruct (search pattern line) as [d|] eqn:Hs.
  - intros [Hr|(r & _ & Hr)]%bind_Raise.
    + exists line, d. auto.
    + destruct (IH _ Hr) as (line' & d' & Hin & H). exists line', d'. auto.
  - intros Hr. destruct (IH _ Hr) as (line' & d' & Hin & H).
    exists line', d'. auto.
Qed.

(** X3: [summarize] raises nothing but the [UnicodeEncodeError] of a [print]
    whose line standard output cannot encode.  It prints the lines of the
    report, of which there is at least one, in their order up to the first
    such line, and raises there; when every line can be encoded it prints
    them all and raises nothing.  In particular [mean] is never given an
    empty list, whatever floats the rows hold and whatever the order in
    which the dict yields its items. *)
Theorem summarize_raises_in_print enc ord rows :
  dict_order ord →
  ∃ full, full ≠ [] ∧ summarize rows = (full, Ok ()) ∧
    ((Forall (encodable enc) full ∧
      summarize_on enc ord rows = (full, Ok ())) ∨
     (∃ out line rest,
        full = out ++ line :: rest ∧ Forall (encodable enc) out ∧
        all_class enc line = false ∧
        summarize_on enc ord rows = (out, Raise UnicodeEncodeError))).
Proof.
  intros Hord.
  destruct (summarize_on_written enc ord rows Hord) as (full & Hne & Hs & ->).
  exists full. split; [done|]. split; [done|].
  destruct (written_cases enc full) as [Hw Hok].
  destruct (written enc full) as [w []]; simpl in *.
  - left. by subst.
  - right. destruct Hok as (line & rest & -> & Hl). by exists w, line, rest.
Qed.

Lemma summarize_raises_in_print_witness :
  ∃ full, full ≠ [] ∧ summarize [accent_row] = (full, Ok ()) ∧
    ((Forall (encodable us_ascii) full ∧
      summarize_on us_ascii (@rev _) [accent_row] = (full, Ok ())) ∨
     (∃ out line rest,
        full = out ++ line :: rest ∧ Forall (encodable us_ascii) out ∧
        all_class us_ascii line = false ∧
        summarize_on us_ascii (@rev _) [accent_row]
          = (out, Raise UnicodeEncodeError))).
Proof.
  apply (summarize_raises_in_print us_ascii (@rev _) [accent_row]).
  intros l. symmetry. apply Permutation_rev.
Defined.

(** A run on a standard output that encodes every character fails in
    [parse_file] only, and has printed nothing then. *)
Lemma main_failure argv (fs : filesystem) out e :
  main argv fs = (out, Uncaught e) →
  out = [] ∧
  ∃ prog path rest,
    argv = prog :: path :: rest ∧
    ((fs path = None ∧ e = OSError) ∨
     (∃ text line d k v,
        fs path = Some text ∧ In line (readlines text) ∧
        search pattern line = Some d ∧ In k us_keys ∧ d !! k = Some v ∧
        us_failure v e)).
Proof.
  unfold main. destruct argv as [|prog [|path rest]]; [done..|].
  destruct (parse_file fs path) as [rows|e'] eqn:Hpf.
  - destruct rows as [|r rows]; [done|].
    destruct (summarize_rows (r :: rows)) as (lines & -> & _); done.
  - intros [= <- ->]. split; [done|]. exists prog, path, rest. split; [done|].
    unfold parse_file in Hpf.
    destruct (fs path) as [text|]; [|left; by inversion Hpf].
    right. apply parse_lines_Raise in Hpf as (line & d & Hin & Hs & Hr).
    destruct (search_schema _ _ Hs) as (pre & m & post & _ & Hm).
    destruct (make_row_Raise m d e Hm Hr) as (k & v & Hk & Hv & Hf).
    by exists text, line, d, k, v.
Qed.

(** X4: a run that ends with an uncaught exception either has printed
    nothing, was given a path and failed in [parse_file], where the file
    could not be opened (OSError) or a matching line captured a microsecond
    value that [int] refuses (ValueError, more than 4300 digits) or whose
    division by 1000.0 overflows (OverflowError, the integer rounds to
    infinity); or it failed in a [print] (UnicodeEncodeError) at the first
    line, of those the run would print, that standard output cannot encode,
    after the lines before it were printed.  TypeError and StatisticsError
    never end a run. *)
Theorem failure_modes enc ord argv (fs : filesystem) out e :
  dict_order ord →
  main_on enc ord argv fs = (out, Uncaught e) →
  (out = [] ∧
   ∃ prog path rest,
     argv = prog :: path :: rest ∧
     ((fs path = None ∧ e = OSError) ∨
      (∃ text line d k v,
         fs path = Some text ∧ In line (readlines text) ∧
         search pattern line = Some d ∧ In k us_keys ∧ d !! k = Some v ∧
         us_failure v e))) ∨
  (e = UnicodeEncodeError ∧
   ∃ full code line rest,
     main argv fs = (full, Exit code) ∧ full = out ++ line :: rest ∧
     Forall (encodable enc) out ∧ all_class enc line = false).
Proof.
  intros Hord. rewrite (main_on_written enc ord argv fs Hord).
  destruct (main argv fs) as [full [code|e']] eqn:Hm.
  - destruct (written_cases enc full) as [Hw Hok].
    destruct (written enc full) as [w []]; simpl in *; [done|].
    intros [= <- <-]. right. split; [done|].
    destruct Hok as (line & rest & -> & Hl). by exists (w ++ line :: rest), code, line, rest.
  - intros [= <- <-]. left. by apply main_failure.
Qed.

Lemma failure_modes_witness :
  let argv := ["parse_ingest_metrics.py"; "ingest.log"] in
  let fs := one_file "ingest.log" accent_line in
  let out := ["Averages by (table, mode, op):"; header] in
  main_on us_ascii id argv fs = (out, Uncaught UnicodeEncodeError) ∧
  ((out = [] ∧
    ∃ prog path rest,
      argv = prog :: path :: rest ∧
      ((fs path = None ∧ UnicodeEncodeError = OSError) ∨
       (∃ text line d k v,
          fs path = Some text ∧ In line (readlines text) ∧
          search pattern line = Some d ∧ In k us_keys ∧ d !! k = Some v ∧
          us_failure v UnicodeEncodeError))) ∨
   (UnicodeEncodeError = UnicodeEncodeError ∧
    ∃ full code line rest,
      main argv fs = (full, Exit code) ∧ full = out ++ line :: rest ∧
      Forall (encodable us_ascii) out ∧ all_class us_ascii line = false)).
Proof.
  intros argv fs out.
  assert (main_on us_ascii id argv fs = (out, Uncaught UnicodeEncodeError))
    as Hm by (vm_compute; reflexivity).
  split; [exact Hm|].
  apply (failure_modes us_ascii id argv fs out UnicodeEncodeError);
    [intros l; reflexivity|exact Hm].
Defined.

(** The exit codes of a run on a standard output that encodes every
    character. *)
Lemma main_exit_codes (fs : filesystem) :
  (∀ argv,
     (length argv < 2)%nat →
     main argv fs = (["Usage: parse_ingest_metrics.py <log_file>"], Exit 1)) ∧
  (∀ prog path rest text,
     fs path = Some text →
     (exit_code (main (prog :: path :: rest) fs).2 = 0 ↔
      forallb line_ok (readlines text) = true)).
Proof.
  split.
  - intros [|prog [|path rest]] Hlen; simpl in *; [done|done|lia].
  - intros prog path rest text Hfs. unfold main, parse_file. rewrite Hfs.
    rewrite <- (parse_lines_is_Ok _ []).
    destruct (parse_lines (readlines text) []) as [rows|e]; [|done].
    destruct rows as [|r rows]; [done|].
    by destruct (summarize_rows (r :: rows)) as (body & -> & _).
Qed.

(** X13: without the file argument the run prints the usage line, when
    standard output encodes it, and ends with exit code 1 in any case, the
    files being what they may; with the argument and a file that can be
    opened, the exit code is 0 exactly when every microsecond value captured
    on a matching line converts to a float and standard output encodes
    every line of the report. *)
Theorem exit_code_zero_iff enc ord (fs : filesystem) :
  dict_order ord →
  (∀ argv,
     (length argv < 2)%nat →
     main_on enc ord argv fs =
       (if all_class enc "Usage: parse_ingest_metrics.py <log_file>"
        then (["Usage: parse_ingest_metrics.py <log_file>"], Exit 1)
        else ([], Uncaught UnicodeEncodeError)) ∧
     exit_code (main_on enc ord argv fs).2 = 1) ∧
  (∀ prog path rest text,
     fs path = Some text →
     (exit_code (main_on enc ord (prog :: path :: rest) fs).2 = 0 ↔
      forallb line_ok (readlines text) = true ∧
      Forall (encodable enc) (main (prog :: path :: rest) fs).1)).
Proof.
  intros Hord. split.
  - intros argv Hlen.
    assert (main_on enc ord argv fs =
            match print_on enc [] "Usage: parse_ingest_metrics.py <log_file>"
            with
            | (out, Ok _) => (out, Exit 1)
            | (out, Raise e) => (out, Uncaught e)
            end) as ->.
    { destruct argv as [|prog [|path rest]]; simpl in *; [done|done|lia]. }
    unfold print_on.
    by destruct (all_class enc "Usage: parse_ingest_metrics.py <log_file>").
  - intros prog path rest text Hfs.
    rewrite (main_on_written enc ord _ fs Hord).
    pose proof (proj2 (main_exit_codes fs) prog path rest text Hfs) as Hmain.
    destruct (main (prog :: path :: rest) fs) as [full [code|e]] eqn:Hm;
      simpl in *.
    + destruct (written_cases enc full) as [Hw Hok].
      destruct (written enc full) as [w []] eqn:Ew; simpl in *.
      * subst w. rewrite Hmain. tauto.
      * split; [done|]. intros [_ Hall].
        rewrite (written_all enc full Hall) in Ew. done.
    + split; [done|]. intros [Hl _]. apply Hmain in Hl. done.
Qed.

Lemma exit_code_zero_iff_witness :
  let fs := one_file "ingest.log" (mixed_line +:+ "noise" +:+ nl) in
  main_on us_ascii id ["parse_ingest_metrics.py"] fs =
    (["Usage: parse_ingest_metrics.py <log_file>"], Exit 1) ∧
  exit_code (main_on us_ascii id ["parse_ingest_metrics.py"; "ingest.log"] fs).2
    = 0.
Proof.
  intros fs.
  assert (dict_order id) as Hid by (intros l; reflexivity).
  split.
  - apply (proj1 (exit_code_zero_iff us_ascii id fs Hid)). simpl. lia.
  - eapply (proj2 (exit_code_zero_iff us_ascii id fs Hid)); [reflexivity|].
    split; [by vm_compute|]. vm_compute. repeat constructor.
Defined.

(** ** Counts *)

Lemma parsed_matches lines rows :
  parsed lines rows → length rows = length (List.filter has_match lines).
Proof.
  induction 1 as [|line lines rows Hs _ IH|line lines d r rows Hs _ _ IH];
    simpl; [done|..]; unfold has_match; rewrite Hs; simpl; by rewrite IH.
Qed.

Lemma setdefault_append_count key r by_key :
  sum_list_with (fun item : group_key * list row => length item.2)
    (setdefault_append key r by_key) =
  S (sum_list_with (fun item : group_key * list row => length item.2) by_key).
Proof.
  induction by_key as [|[k its] rest IH]; simpl; [done|].
  destruct (key_eqb k key); simpl; [rewrite length_app; simpl; lia|].
  rewrite IH. lia.
Qed.

Lemma group_rows_count rows :
  sum_list_with (fun item : group_key * list row => length item.2)
    (group_rows rows) = length rows.
Proof.
  unfold group_rows.
  assert (∀ by_key,
    sum_list_with (fun item : group_key * list row => length item.2)
      (fold_left (fun by_key r => setdefault_append (key_of r) r by_key)
         rows by_key) =
    (sum_list_with (fun item : group_key * list row => length item.2) by_key
     + length rows)%nat) as H.
  { induction rows as [|r rows IH]; intros by_key; simpl; [lia|].
    rewrite IH, setdefault_append_count. lia. }
  by rewrite H.
Qed.

Lemma group_line_count item line :
  group_line item line → printed_count line = length item.2.
Proof.
  intros (avgs & _ & Hsplit). unfold printed_count. rewrite Hsplit. simpl.
  rewrite digits_value_str_of_N. lia.
Qed.

(** X5: in a report, every count printed is at least 1 and the counts add up
    to the number of lines of the input in which the pattern is found: each
    matching line is counted in exactly one group. *)
Theorem counts_add_up lines rows :
  parse_lines lines [] = Ok rows → rows ≠ [] →
  ∃ body,
    summarize rows =
      ("Averages by (table, mode, op):" :: header :: body, Ok ()) ∧
    Forall (fun line => (1 ≤ printed_count line)%nat) body ∧
    sum_list_with printed_count body = length (List.filter has_match lines).
Proof.
  intros Hparse Hne.
  destruct (report_lines lines rows Hparse Hne) as (body & Hsum & Hall).
  exists body. split; [done|].
  apply parse_lines_parsed in Hparse as (new & -> & Hp). simpl in *.
  rewrite <- (parsed_matches _ _ Hp), <- (group_rows_count new).
  assert (sum_list_with (fun item : group_key * list row => length item.2)
            (group_rows new) =
          sum_list_with (fun item : group_key * list row => length item.2)
            (report_items new)) as ->.
  { unfold report_items. by rewrite sorted_perm. }
  assert (∀ item, In item (report_items new) → item.2 ≠ []) as Hmem.
  { intros [k its] Hin. by apply report_items_members in Hin as [_ ?]. }
  clear Hsum Hp. induction Hall as [|item line items body Hl _ IH]; [done|].
  pose proof (group_line_count _ _ Hl) as Hc.
  destruct IH as [IH1 IH2]; [intros; apply Hmem; by right|].
  split.
  - constructor; [|done]. rewrite Hc.
    specialize (Hmem item (or_introl eq_refl)).
    destruct item.2; simpl; [done|lia].
  - simpl. by rewrite Hc, IH2.
Qed.

Lemma counts_add_up_witness :
  ∃ body,
    summarize [row_a; row_b; row_a'] =
      ("Averages by (table, mode, op):" :: header :: body, Ok ()) ∧
    Forall (fun line => (1 ≤ printed_count line)%nat) body ∧
    sum_list_with printed_count body =
      length (List.filter has_match [line_a; "noise" +:+ nl; line_b; line_a']).
Proof.
  apply (counts_add_up [line_a; "noise" +:+ nl; line_b; line_a']);
    [vm_compute; reflexivity|done].
Defined.

(** ** The order of the lines *)

Lemma fold_left_perm {A B} (f : B → A → B) (P : B → Prop) (Q : A → Prop) :
  (∀ b x, P b → Q x → P (f b x)) →
  (∀ b x y, P b → Q x → Q y → f (f b x) y = f (f b y) x) →
  ∀ l l', l ≡ₚ l' → Forall Q l →
    ∀ b, P b → fold_left f l b = fold_left f l' b.
Proof.
  intros HP Hc l l' Hperm.
  induction Hperm as [|x l l' _ IH|x y l|l l' l'' H1 IH1 H2 IH2];
    intros HQ b Hb; simpl.
  - done.
  - inversion HQ; subst. apply IH; auto.
  - inversion HQ as [|? ? Hy HQ']; subst. inversion HQ'; subst.
    by rewrite Hc.
  - rewrite IH1 by done. apply IH2; [|done].
    eapply Permutation_Forall; [|exact HQ]. done.
Qed.

Lemma exact_add_comm acc x y :
  exact_add (exact_add acc x) y = exact_add (exact_add acc y) x.
Proof.
  destruct acc as [m e].
  destruct x as [| | |sx mx ex], y as [| | |sy my ey]; try reflexivity.
  unfold exact_add.
  generalize (cond_Zopp sx (Z.pos mx)) (cond_Zopp sy (Z.pos my)).
  intros X Y.
  assert (∀ a b c, c ≤ b → b ≤ a → 2 ^ (a - b) * 2 ^ (b - c) = 2 ^ (a - c))
    as P.
  { intros a b c H1 H2. rewrite <- Z.pow_add_r by lia. f_equal. lia. }
  assert (Z.min (Z.min e ey) ex = Z.min (Z.min e ex) ey) as -> by lia.
  f_equal.
  rewrite !Z.mul_add_distr_r, <- !Z.mul_assoc, !P by lia. lia.
Qed.

Lemma exact_sum_perm xs ys : xs ≡ₚ ys → exact_sum xs = exact_sum ys.
Proof.
  intros H. unfold exact_sum.
  apply (fold_left_perm exact_add (fun _ => True) (fun _ => True));
    auto using exact_add_comm.
  by apply Forall_forall.
Qed.

Lemma filter_perm {A} (p : A → bool) l l' :
  l ≡ₚ l' → List.filter p l ≡ₚ List.filter p l'.
Proof.
  induction 1 as [|x l l' _ IH|x y l|l l' l'' _ IH1 _ IH2]; simpl.
  - done.
  - destruct (p x); [by constructor|done].
  - destruct (p x), (p y); try done. apply perm_swap.
  - by etrans.
Qed.

Lemma SFadd_nonfinite_comm b x y :
  b = S754_zero false ∨ is_finite b = false →
  is_finite x = false → is_finite y = false →
  SFadd prec emax (SFadd prec emax b x) y =
  SFadd prec emax (SFadd prec emax b y) x.
Proof.
  intros [->|Hb] Hx Hy;
    [|destruct b as [|[]| |]; try discriminate Hb];
    destruct x as [|[]| |]; try discriminate Hx;
    destruct y as [|[]| |]; try discriminate Hy; reflexivity.
Qed.

Lemma SFadd_nonfinite b x :
  is_finite x = false → is_finite (SFadd prec emax b x) = false.
Proof.
  intros Hx. destruct x as [|sx| |]; try discriminate Hx;
    destruct b as [|[]| |]; try destruct sx; reflexivity.
Qed.

Lemma fold_SFadd_seed y ys :
  is_finite y = false →
  fold_left (SFadd prec emax) ys y =
  fold_left (SFadd prec emax) (y :: ys) (S754_zero false).
Proof. intros Hy. simpl. by destruct y as [|[]| |]. Qed.

Lemma filter_Forall {A} (p : A → bool) l :
  Forall (fun x => p x = true) (List.filter p l).
Proof. apply Forall_forall. intros x Hx%list_elem_of_In%filter_In. tauto. Qed.

Lemma mean_perm xs ys : xs ≡ₚ ys → mean xs = mean ys.
Proof.
  intros H. unfold mean.
  destruct xs as [|x0 xs'].
  { apply Permutation_nil in H as ->. done. }
  destruct ys as [|y0 ys'].
  { symmetry in H. by apply Permutation_nil in H. }
  pose proof (filter_perm (fun x => negb (is_finite x)) _ _ H) as Hf.
  pose proof (filter_Forall (fun x => negb (is_finite x)) (x0 :: xs')) as Hn.
  pose proof (filter_Forall (fun x => negb (is_finite x)) (y0 :: ys')) as Hn'.
  destruct (List.filter _ (x0 :: xs')) as [|u us].
  - apply Permutation_nil in Hf as ->.
    rewrite (exact_sum_perm _ _ H). by rewrite (Permutation_length H).
  - destruct (List.filter _ (y0 :: ys')) as [|v vs].
    { symmetry in Hf. by apply Permutation_nil in Hf. }
    f_equal.
    assert (∀ l, Forall (fun x => negb (is_finite x) = true) l →
                 Forall (fun x => is_finite x = false) l) as Hneg.
    { intros l Hl. eapply Forall_impl; [exact Hl|].
      intros a Ha. by apply negb_true_iff. }
    apply Hneg in Hn, Hn'.
    pose proof (Forall_inv Hn) as Hu. pose proof (Forall_inv Hn') as Hv.
    simpl in Hu, Hv.
    rewrite (fold_SFadd_seed u us Hu), (fold_SFadd_seed v vs Hv).
    apply (fold_left_perm (SFadd prec emax)
             (fun b => b = S754_zero false ∨ is_finite b = false)
             (fun x => is_finite x = false)); auto.
    + intros b x _ Hx. right. by apply SFadd_nonfinite.
    + intros b x y. apply SFadd_nonfinite_comm.
Qed.

Lemma members_perm k rows rows' :
  rows ≡ₚ rows' → members k rows ≡ₚ members k rows'.
Proof. apply filter_perm. Qed.

Lemma format_item_perm key its its' :
  its ≡ₚ its' → format_item key its = format_item key its'.
Proof.
  intros H. unfold format_item.
  rewrite (mean_perm (map parse its) (map parse its')) by by apply Permutation_map.
  rewrite (mean_perm (map build its) (map build its')) by by apply Permutation_map.
  rewrite (mean_perm (map send its) (map send its')) by by apply Permutation_map.
  rewrite (mean_perm (map wait its) (map wait its')) by by apply Permutation_map.
  rewrite (mean_perm (map total its) (map total its')) by by apply Permutation_map.
  by rewrite (Permutation_length H).
Qed.

Lemma items_by_key (f : group_key → list row) l :
  (∀ k its, In (k, its) l → its = f k) →
  l = map (fun k => (k, f k)) (map fst l).
Proof.
  induction l as [|[k its] l IH]; intros H; simpl; [done|].
  rewrite (H k its) by by left. f_equal. apply IH. intros k' its' Hin.
  apply H. by right.
Qed.

Lemma report_items_by_key rows :
  report_items rows =
  map (fun k => (k, members k rows)) (map fst (report_items rows)).
Proof.
  apply items_by_key. intros k its Hin.
  by apply report_items_members in Hin as [-> _].
Qed.

Lemma report_keys_perm rows rows' :
  rows ≡ₚ rows' →
  map fst (report_items rows) = map fst (report_items rows').
Proof.
  intros H. apply sorted_keys_unique; auto using report_items_sorted.
  intros k. rewrite !report_items_keys.
  split; intros (r & Hr & Hk); exists r; split; try done.
  - eapply Permutation_in; [exact H|done].
  - eapply Permutation_in; [symmetry; exact H|done].
Qed.

Lemma print_items_keys (f f' : group_key → list row) keys out :
  (∀ k, format_item k (f k) = format_item k (f' k)) →
  print_items (map (fun k => (k, f k)) keys) out =
  print_items (map (fun k => (k, f' k)) keys) out.
Proof.
  intros H. revert out. induction keys as [|k keys IH]; intros out; simpl;
    [done|].
  rewrite H. destruct (format_item k (f' k)); [apply IH|done].
Qed.

Lemma summarize_perm rows rows' :
  rows ≡ₚ rows' → summarize rows = summarize rows'.
Proof.
  intros H. destruct rows as [|r rows].
  { apply Permutation_nil in H as ->. done. }
  destruct rows' as [|r' rows'].
  { symmetry in H. by apply Permutation_nil in H. }
  unfold summarize.
  change (sorted (group_rows (r :: rows))) with (report_items (r :: rows)).
  change (sorted (group_rows (r' :: rows'))) with (report_items (r' :: rows')).
  rewrite (report_items_by_key (r :: rows)), (report_items_by_key (r' :: rows')).
  rewrite (report_keys_perm _ _ H).
  apply print_items_keys. intros k. apply format_item_perm.
  by apply members_perm.
Qed.

Lemma parsed_filter lines rows :
  parsed lines rows ↔ parsed (List.filter has_match lines) rows.
Proof.
  split.
  - induction 1 as [|line lines rows Hs _ IH|line lines d r rows Hs Hr _ IH];
      simpl; [constructor|..]; unfold has_match; rewrite Hs; [done|].
    by econstructor.
  - revert rows. induction lines as [|line lines IH]; intros rows; simpl;
      [done|].
    unfold has_match at 1.
    destruct (search pattern line) as [d|] eqn:Hs; cbv beta iota.
    + inversion 1 as [|? ? ? Hs'|? ? d' r rows' Hs' Hr Hp]; subst;
        [congruence|].
      eapply parsed_row; [exact Hs'|exact Hr|auto].
    + intros Hp. constructor; auto.
Qed.

Lemma parsed_perm lines lines' rows :
  lines ≡ₚ lines' → parsed lines rows →
  ∃ rows', parsed lines' rows' ∧ rows ≡ₚ rows'.
Proof.
  intros H. revert rows.
  induction H as [|x l l' _ IH|x y l|l l' l'' _ IH1 _ IH2]; intros rows Hp.
  - by exists rows.
  - inversion Hp as [|? ? ? Hs Hp'|? ? d r rows0 Hs Hr Hp']; subst.
    + destruct (IH _ Hp') as (rows' & ? & ?). exists rows'.
      split; [by constructor|done].
    + destruct (IH _ Hp') as (rows' & ? & ?). exists (r :: rows').
      split; [by econstructor|by constructor].
  - inversion Hp as [|? ? ? Hs Hp'|? ? d r rows0 Hs Hr Hp']; subst;
      inversion Hp' as [|? ? ? Hs2 Hp2|? ? d2 r2 rows2 Hs2 Hr2 Hp2]; subst.
    + exists rows. split; [by repeat constructor|done].
    + exists (r2 :: rows2).
      split; [econstructor; eauto; by constructor|done].
    + exists (r :: rows0).
      split; [constructor; [done|]; by econstructor|done].
    + exists (r2 :: r :: rows2).
      split; [econstructor; eauto; by econstructor|apply perm_swap].
  - destruct (IH1 _ Hp) as (rows' & Hp' & H1).
    destruct (IH2 _ Hp') as (rows'' & Hp'' & H2).
    exists rows''. split; [done|by etrans].
Qed.

Lemma line_ok_no_match line : has_match line = false → line_ok line = true.
Proof. unfold has_match, line_ok. by destruct (search pattern line). Qed.

Lemma forallb_line_ok_filter lines :
  forallb line_ok lines = forallb line_ok (List.filter has_match lines).
Proof.
  induction lines as [|line lines IH]; simpl; [done|].
  destruct (has_match line) eqn:Hm; simpl; [by rewrite IH|].
  by rewrite line_ok_no_match.
Qed.

Lemma forallb_perm {A} (p : A → bool) l l' :
  l ≡ₚ l' → forallb p l = forallb p l'.
Proof.
  induction 1 as [|x l l' _ IH|x y l|l l' l'' _ IH1 _ IH2]; simpl;
    [done|by rewrite IH|by destruct (p x), (p y)|by etrans].
Qed.

Lemma parse_lines_order lines lines' :
  List.filter has_match lines ≡ₚ List.filter has_match lines' →
  match parse_lines lines [] with
  | Ok rows =>
      ∃ rows', parse_lines lines' [] = Ok rows' ∧ rows ≡ₚ rows'
  | Raise _ => ∃ e', parse_lines lines' [] = Raise e'
  end.
Proof.
  intros H.
  destruct (parse_lines lines []) as [rows|e] eqn:Hp.
  - apply parse_lines_parsed in Hp as (new & -> & Hp). simpl.
    apply parsed_filter in Hp.
    destruct (parsed_perm _ _ _ H Hp) as (rows' & Hp' & Hperm).
    apply parsed_filter in Hp'.
    exists rows'. split; [|done]. apply parse_lines_parsed. by exists rows'.
  - pose proof (parse_lines_is_Ok lines []) as E. rewrite Hp in E. simpl in E.
    rewrite forallb_line_ok_filter, (forallb_perm _ _ _ H),
      <- forallb_line_ok_filter, <- (parse_lines_is_Ok lines' []) in E.
    destruct (parse_lines lines' []) as [|e']; [done|]. by exists e'.
Qed.

(** X6: the report depends only on which matching lines the file holds, not
    on their order nor on the lines without a match: two files whose
    matching lines are the same up to order give the same output and the
    same exit code (the groups are printed sorted, and a mean is computed
    from the exact sum of its data).  Only the exception of a failing run
    may differ, the first line that fails deciding it. *)
Theorem order_independent prog path rest prog' path' rest'
    (fs fs' : filesystem) text text' :
  fs path = Some text → fs' path' = Some text' →
  List.filter has_match (readlines text)
    ≡ₚ List.filter has_match (readlines text') →
  (main (prog :: path :: rest) fs).1 = (main (prog' :: path' :: rest') fs').1 ∧
  exit_code (main (prog :: path :: rest) fs).2 =
    exit_code (main (prog' :: path' :: rest') fs').2.
Proof.
  intros Hf Hf' H. unfold main, parse_file. rewrite Hf, Hf'.
  pose proof (parse_lines_order _ _ H) as Ho.
  destruct (parse_lines (readlines text) []) as [rows|e].
  - destruct Ho as (rows' & -> & Hperm).
    rewrite (summarize_perm _ _ Hperm).
    by destruct (summarize rows') as [out [[]|e]].
  - by destruct Ho as (e' & ->).
Qed.

Lemma order_independent_witness :
  let fs :=
    one_file "a.log" (line_a +:+ "noise" +:+ nl +:+ line_b +:+ line_a') in
  let fs' := one_file "b.log" (line_b +:+ line_a' +:+ nl +:+ line_a) in
  (main ["parse_ingest_metrics.py"; "a.log"] fs).1 =
    (main ["parse_ingest_metrics.py"; "b.log"] fs').1 ∧
  exit_code (main ["parse_ingest_metrics.py"; "a.log"] fs).2 =
    exit_code (main ["parse_ingest_metrics.py"; "b.log"] fs').2.
Proof.
  intros fs fs'.
  apply (order_independent _ "a.log" [] _ "b.log" [] fs fs'
           (line_a +:+ "noise" +:+ nl +:+ line_b +:+ line_a')
           (line_b +:+ line_a' +:+ nl +:+ line_a));
    [reflexivity|reflexivity|].
  vm_compute. eapply perm_trans; [apply perm_swap|].
  apply perm_skip, perm_swap.
Defined.

(** ** No sign, no NaN *)

Lemma row_of_line_nonneg line d r :
  row_of_line line d r → Forall (fun f => nonneg (f r) = true) timings.
Proof.
  intros [pre post t mo o p b s w tt _ _ _ _ _ Hp Hb Hs Hw Htt _ _ _
            Cp Cb Cs Cw Ctt].
  unfold timings. rewrite !Forall_cons.
  split_and!;
    [by apply (convert_nonneg p)|by apply (convert_nonneg b)
    |by apply (convert_nonneg s)|by apply (convert_nonneg w)
    |by apply (convert_nonneg tt)|by apply Forall_nil].
Qed.

Lemma parsed_nonneg lines rows :
  parsed lines rows →
  Forall (fun r => Forall (fun f => nonneg (f r) = true) timings) rows.
Proof.
  induction 1 as [| |line lines d r rows Hs Hr _ IH]; [constructor|done|].
  constructor; [|done]. by apply (row_of_line_nonneg line d), search_make_row.
Qed.

Lemma exact_add_nonneg acc x :
  0 ≤ acc.1 → nonneg x = true → 0 ≤ (exact_add acc x).1.
Proof.
  destruct acc as [m e], x as [| | |[] mx ex]; simpl; try done.
  intros Hm _.
  pose proof (Z.pow_nonneg 2 (e - Z.min e ex)).
  pose proof (Z.pow_nonneg 2 (ex - Z.min e ex)). nia.
Qed.

Lemma exact_sum_nonneg xs :
  Forall (fun x => nonneg x = true) xs → 0 ≤ (exact_sum xs).1.
Proof.
  unfold exact_sum. intros H.
  assert (∀ acc, 0 ≤ acc.1 → 0 ≤ (fold_left exact_add xs acc).1) as G.
  { induction H as [|x xs Hx _ IH]; intros acc Hacc; simpl; [done|].
    by apply IH, exact_add_nonneg. }
  by apply G.
Qed.

Lemma float_of_ratio_nonneg m e n :
  0 ≤ m → nonneg (float_of_ratio m e n) = true.
Proof.
  intros H. unfold float_of_ratio. destruct m as [|p|p]; [done| |lia].
  by apply SFdiv_nonneg.
Qed.

Lemma mean_nonneg xs v :
  Forall (fun x => nonneg x = true) xs → mean xs = Ok v → nonneg v = true.
Proof.
  intros H. unfold mean. destruct xs as [|x0 xs']; [done|].
  assert (Forall (fun x => x = S754_infinity false)
            (List.filter (fun x => negb (is_finite x)) (x0 :: xs'))) as Hinf.
  { apply Forall_forall. intros x [Hx Hn]%list_elem_of_In%filter_In.
    rewrite Forall_forall in H. apply list_elem_of_In, H in Hx.
    by destruct x as [|[]| |]. }
  destruct (List.filter _ (x0 :: xs')) as [|y ys].
  - pose proof (exact_sum_nonneg _ H) as Hm.
    destruct (exact_sum (x0 :: xs')) as [m e]. intros [= <-].
    by apply float_of_ratio_nonneg.
  - apply Forall_cons in Hinf as [-> Hinf]. intros [= <-].
    by rewrite fold_SFadd_inf.
Qed.

Lemma str_of_N_starts_with n : starts_with class_d (str_of_N n) = true.
Proof.
  pose proof (str_of_N_decimal n) as H.
  destruct (str_of_N n) as [|a s]; [done|]. simpl in *.
  by apply andb_true_iff in H as [? _].
Qed.

Lemma format_1f_unsigned x : nonneg x = true → unsigned_field (format_1f x).
Proof.
  destruct x as [[]|[]| |[] m e]; try done; intros _.
  - right. done.
  - by left.
  - right. split; [by apply format_1f_one_decimal|].
    unfold format_1f. simpl.
    pose proof (str_of_N_starts_with (Z.to_N (tenths m e / 10))) as H.
    by destruct (str_of_N (Z.to_N (tenths m e / 10))).
Qed.

(** X7: every timing field of every row [parse_file] builds is no NaN and
    carries no sign: it is [0.0], a positive finite float or [inf], since a
    captured text has digits only and the division by 1000.0 keeps the
    sign. *)
Theorem parsed_values_nonneg lines rows :
  parse_lines lines [] = Ok rows →
  Forall (fun r => Forall (fun f => nonneg (f r) = true) timings) rows.
Proof.
  intros (new & -> & Hp)%parse_lines_parsed. by apply (parsed_nonneg lines).
Qed.

Lemma parsed_values_nonneg_witness :
  parse_lines [mixed_line] [] = Ok [mixed_row] ∧
  Forall (fun r => Forall (fun f => nonneg (f r) = true) timings) [mixed_row].
Proof.
  assert (parse_lines [mixed_line] [] = Ok [mixed_row]) as Hp
    by (vm_compute; reflexivity).
  split; [exact Hp|]. exact (parsed_values_nonneg _ _ Hp).
Defined.

(** X8: each of the five means printed on a group line is either [inf] or
    digits, a point and one digit, starting with a digit: the report shows
    no minus sign and no [nan]. *)
Theorem means_unsigned lines rows :
  parse_lines lines [] = Ok rows → rows ≠ [] →
  ∃ body,
    summarize rows =
      ("Averages by (table, mode, op):" :: header :: body, Ok ()) ∧
    Forall (fun line =>
      ∃ fields, drop 4 (split_on "009" line) = fields ∧
        length fields = 5%nat ∧ Forall unsigned_field fields) body.
Proof.
  intros Hparse Hne.
  destruct (report_lines lines rows Hparse Hne) as (body & Hsum & Hall).
  exists body. split; [done|].
  apply parse_lines_parsed in Hparse as (new & -> & Hp). simpl in *.
  apply parsed_nonneg in Hp.
  assert (∀ item, In item (report_items new) → item.2 = members item.1 new)
    as Hmem.
  { intros [k its] Hin. by apply report_items_members in Hin as [? _]. }
  clear Hsum. induction Hall as [|item line items body Hl _ IH]; [done|].
  constructor; [|apply IH; intros; apply Hmem; by right].
  destruct Hl as (avgs & Hmeans & Hsplit).
  exists (map format_1f avgs). rewrite Hsplit. split; [done|].
  rewrite length_map, <- (Forall2_length _ _ _ Hmeans). split; [done|].
  rewrite (Hmem item) in Hmeans by by left.
  pose proof (members_Forall _ item.1 _ Hp) as Hits.
  apply Forall_map.
  assert (∀ fs, Forall (fun f : row → float =>
            Forall (fun x => nonneg x = true) (map f (members item.1 new))) fs →
          Forall2 (fun (f : row → float) avg =>
            mean (map f (members item.1 new)) = Ok avg) fs avgs →
          Forall (fun avg => unsigned_field (format_1f avg)) avgs) as G.
  { clear. intros fs Hfs H2. induction H2 as [|f avg fs avgs Hm _ IH];
      [done|]. apply Forall_cons in Hfs as [Hf Hfs].
    constructor; [|by apply IH]. by eapply format_1f_unsigned, mean_nonneg. }
  eapply G; [|exact Hmeans].
  apply Forall_forall. intros f Hf. apply Forall_map.
  eapply Forall_impl; [exact Hits|]. intros r Hr. simpl.
  rewrite Forall_forall in Hr. by apply Hr.
Qed.

Lemma means_unsigned_witness :
  ∃ body,
    summarize [row_a; row_b; row_a'] =
      ("Averages by (table, mode, op):" :: header :: body, Ok ()) ∧
    Forall (fun line =>
      ∃ fields, drop 4 (split_on "009" line) = fields ∧
        length fields = 5%nat ∧ Forall unsigned_field fields) body.
Proof.
  apply (means_unsigned [line_a; line_b; line_a']);
    [vm_compute; reflexivity|done].
Defined.

(** ** Lines and the text of the file *)

Lemma class_S_not_eol c : class_S c = true → negb (eol c) = true.
Proof. by destruct c as [[] [] [] [] [] [] [] []]. Qed.

Lemma class_d_not_eol c : class_d c = true → negb (eol c) = true.
Proof. by destruct c as [[] [] [] [] [] [] [] []]. Qed.

Lemma not_eol c :
  negb (eol c) = true → Ascii.eqb c "010" = false ∧ Ascii.eqb c "013" = false.
Proof. unfold eol. by destruct (Ascii.eqb c "010"), (Ascii.eqb c "013"). Qed.

Lemma readlines_cons c text :
  negb (eol c) = true →
  readlines (String c text) =
  match readlines text with
  | [] => [String c EmptyString]
  | l :: ls => String c l :: ls
  end.
Proof. intros [H1 H2]%not_eol. simpl. by rewrite H1, H2. Qed.

Lemma readlines_prefix m post :
  all_class (fun c => negb (eol c)) m = true → m ≠ EmptyString →
  ∃ l ls, readlines (m +:+ post) = (m +:+ l) :: ls.
Proof.
  induction m as [|c m IH]; [done|].
  intros Hm _. simpl in Hm. apply andb_true_iff in Hm as [Hc Hm].
  change (String c m +:+ post) with (String c (m +:+ post)).
  rewrite (readlines_cons c (m +:+ post) Hc).
  destruct m as [|c' m'].
  - simpl. destruct (readlines post) as [|l ls].
    + by exists EmptyString, [].
    + by exists l, ls.
  - destruct (IH Hm) as (l & ls & ->); [done|]. by exists l, ls.
Qed.

Lemma occurs_cons c m s : occurs m s → occurs m (String c s).
Proof. intros (pre & post & ->). by exists (String c pre), post. Qed.

Lemma occurs_newline m :
  all_class (fun c => negb (eol c)) m = true → m ≠ EmptyString →
  ¬ occurs m (String "010" EmptyString).
Proof.
  intros Hm Hne (pre & post & E).
  destruct pre as [|a pre]; simpl in E.
  - destruct m as [|c m]; [done|]. simpl in *. injection E as <- _.
    done.
  - injection E as _ E. destruct pre; [|done]. simpl in E. by destruct m.
Qed.

Lemma line_in_text m text :
  all_class (fun c => negb (eol c)) m = true → m ≠ EmptyString →
  occurs m text → ∃ line, In line (readlines text) ∧ occurs m line.
Proof.
  intros Hm Hne (pre & post & ->).
  induction pre as [|c pre IH].
  - destruct (readlines_prefix m post Hm Hne) as (l & ls & E).
    exists (m +:+ l). simpl. rewrite E. split; [by left|].
    by exists EmptyString, l.
  - destruct IH as (line & Hin & Hocc).
    change (String c pre +:+ m +:+ post) with (String c (pre +:+ m +:+ post)).
    set (text := pre +:+ m +:+ post) in *. clearbody text. simpl.
    destruct (Ascii.eqb c "010"); [exists line; split; [by right|done]|].
    destruct (Ascii.eqb c "013").
    + destruct text as [|c' text']; [done|].
      destruct (Ascii.eqb c' "010") eqn:Hc'.
      * exists line. split; [|done]. simpl in Hin. rewrite Hc' in Hin. done.
      * exists line. split; [by right|done].
    + destruct (readlines text) as [|l ls]; [done|].
      destruct Hin as [<-|Hin].
      * exists (String c l). split; [by left|by apply occurs_cons].
      * exists line. split; [by right|done].
Qed.

Lemma first_line_prefix m :
  all_class (fun c => negb (eol c)) m = true →
  ∀ text l ls post',
    readlines text = l :: ls → l = m +:+ post' → ∃ post, text = m +:+ post.
Proof.
  induction m as [|c m IH]; simpl; [by eauto|].
  intros [Hc Hm]%andb_true_iff text l ls post' Hr ->.
  destruct (not_eol c Hc) as [Hc1 Hc2].
  destruct text as [|c0 text]; [done|]. simpl in Hr.
  destruct (Ascii.eqb c0 "010") eqn:H0.
  { inversion Hr; subst. done. }
  destruct (Ascii.eqb c0 "013") eqn:H1.
  { destruct text as [|c' text'];
      [|destruct (Ascii.eqb c' "010")]; inversion Hr; subst; done. }
  destruct (readlines text) as [|l' ls'] eqn:Hr'.
  - inversion Hr as [[E0 E]]. destruct m; [|done].
    by exists text.
  - inversion Hr as [[E0 E]].
    destruct (IH Hm text l' ls' post' Hr' E) as (post & ->).
    by exists post.
Qed.

Lemma readlines_nil text : readlines text = [] → text = EmptyString.
Proof.
  destruct text as [|c text]; [done|]. simpl.
  destruct (Ascii.eqb c "010"); [done|].
  destruct (Ascii.eqb c "013").
  - destruct text as [|c' text']; [done|]. by destruct (Ascii.eqb c' "010").
  - by destruct (readlines text).
Qed.

Lemma text_of_line m :
  all_class (fun c => negb (eol c)) m = true → m ≠ EmptyString →
  ∀ text line, In line (readlines text) → occurs m line → occurs m text.
Proof.
  intros Hm Hne text. induction text as [|c text IH]; intros line; [done|].
  simpl.
  destruct (Ascii.eqb c "010") eqn:H0.
  { intros [<-|Hin] Hocc; [by apply occurs_newline in Hocc|].
    eapply occurs_cons, IH; eauto. }
  destruct (Ascii.eqb c "013") eqn:H1.
  { destruct text as [|c' text'].
    - intros [<-|[]] Hocc. by apply occurs_newline in Hocc.
    - destruct (Ascii.eqb c' "010") eqn:Hc'.
      + intros [<-|Hin] Hocc; [by apply occurs_newline in Hocc|].
        eapply occurs_cons, IH; [|done]. simpl. rewrite Hc'. by right.
      + intros [<-|Hin] Hocc; [by apply occurs_newline in Hocc|].
        eapply occurs_cons, IH; eauto. }
  destruct (readlines text) as [|l ls] eqn:Hr.
  - apply readlines_nil in Hr as ->.
    intros [<-|[]] Hocc. done.
  - intros [<-|Hin] (pre & post & E).
    + destruct pre as [|a pre]; simpl in E.
      * destruct m as [|a m]; [by destruct Hne|]. simpl in Hm, E.
        injection E as <- E.
        apply andb_true_iff in Hm as [_ Hm].
        destruct (first_line_prefix m Hm text l ls post Hr E) as (post0 & ->).
        by exists EmptyString, post0.
      * injection E as <- E. apply occurs_cons, (IH l); [by left|].
        by exists pre, post.
    + apply occurs_cons, (IH line); [by right|by exists pre, post].
Qed.

Lemma is_token_nonempty s : is_token s = true → s ≠ EmptyString.
Proof. by destruct s. Qed.

Lemma field_text_no_eol k_ms k_us (c : capture) :
  all_class (fun c => negb (eol c)) k_ms = true →
  all_class (fun c => negb (eol c)) k_us = true →
  is_decimal c.2 = true →
  all_class (fun c => negb (eol c)) (field_text k_ms k_us c) = true.
Proof.
  intros H1 H2 Hc. unfold field_text. rewrite all_class_app.
  apply andb_true_iff. split; [by destruct c.1|].
  apply (all_class_impl class_d); [apply class_d_not_eol|by destruct c.2].
Qed.

Lemma schema_text_no_eol m d :
  schema_match m d →
  all_class (fun c => negb (eol c)) m = true ∧ m ≠ EmptyString.
Proof.
  intros [t mo o p b s w tt Ht Hmo Ho Hp Hb Hs Hw Htt]. split; [|done].
  assert (∀ x, is_token x = true →
               all_class (fun c => negb (eol c)) x = true) as Htok.
  { intros x Hx. apply (all_class_impl class_S); [apply class_S_not_eol|].
    by destruct x. }
  unfold schema_text. rewrite !all_class_app.
  rewrite (Htok t), (Htok mo), (Htok o) by done.
  rewrite (field_text_no_eol _ _ p), (field_text_no_eol _ _ b),
    (field_text_no_eol _ _ s), (field_text_no_eol _ _ w),
    (field_text_no_eol _ _ tt) by done.
  done.
Qed.

Lemma holds_record_occurs s :
  holds_record s ↔ ∃ m d, schema_match m d ∧ occurs m s.
Proof.
  split.
  - intros (pre & post & t & mo & o & p & b & s' & w & tt & ? & ? & ? & ? & ?
              & ? & ? & ? & ->).
    exists (schema_text t mo o p b s' w tt), (schema_groups t mo o p b s' w tt).
    split; [by constructor|]. by exists pre, post.
  - intros (m & d & [t mo o p b s' w tt] & pre & post & ->).
    exists pre, post, t, mo, o, p, b, s', w, tt. by split_and!.
Qed.

(** X9: reading the file line by line loses no record and invents none: the
    text of the file holds a text of the schema exactly when one of the
    lines the loop iterates over does (a text of the schema has no line
    end in it, and universal newlines only rewrite line ends). *)
Theorem lines_keep_records text :
  holds_record text ↔ ∃ line, In line (readlines text) ∧ holds_record line.
Proof.
  split.
  - intros (m & d & Hm & Hocc)%holds_record_occurs.
    destruct (schema_text_no_eol m d Hm) as [Heol Hne].
    destruct (line_in_text m text Heol Hne Hocc) as (line & Hin & Hl).
    exists line. split; [done|]. apply holds_record_occurs. by exists m, d.
  - intros (line & Hin & (m & d & Hm & Hocc)%holds_record_occurs).
    destruct (schema_text_no_eol m d Hm) as [Heol Hne].
    apply holds_record_occurs. exists m, d. split; [done|].
    by apply (text_of_line m Heol Hne text line).
Qed.

Lemma parsed_nil_iff lines :
  parsed lines [] ↔ ∀ line, In line lines → search pattern line = None.
Proof.
  induction lines as [|line lines IH].
  - split; [by intros _ ? []|constructor].
  - split.
    + inversion 1 as [|? ? ? Hs Hp|]; subst. intros l [<-|Hl]; [done|].
      by apply IH.
    + intros H. constructor; [apply H; by left|]. apply IH. intros l Hl.
      apply H. by right.
Qed.

Lemma no_record_lines text :
  ¬ holds_record text ↔
  ∀ line, In line (readlines text) → search pattern line = None.
Proof.
  split.
  - intros Hno line Hin. apply search_None_holds.
    intros (m & d & Hm & Hocc)%holds_record_occurs. apply Hno.
    destruct (schema_text_no_eol m d Hm) as [Heol Hne].
    apply holds_record_occurs. exists m, d. split; [done|].
    by apply (text_of_line m Heol Hne text line).
  - intros Hall (m & d & Hm & Hocc)%holds_record_occurs.
    destruct (schema_text_no_eol m d Hm) as [Heol Hne].
    destruct (line_in_text m text Heol Hne Hocc) as (line & Hin & Hl).
    apply (proj1 (search_None_holds line) (Hall line Hin)).
    apply holds_record_occurs. by exists m, d.
Qed.

(** X10: with the file readable, the run prints only
    'No ingest_metrics lines found' and exits with code 0 exactly when the
    text of the file holds no text of the schema anywhere. *)
Theorem no_match_iff prog path rest (fs : filesystem) text :
  fs path = Some text →
  main (prog :: path :: rest) fs = (["No ingest_metrics lines found"], Exit 0)
  ↔ ¬ holds_record text.
Proof.
  intros Hf. rewrite no_record_lines, <- parsed_nil_iff.
  unfold main, parse_file. rewrite Hf.
  assert (parsed (readlines text) [] ↔ parse_lines (readlines text) [] = Ok [])
    as ->.
  { rewrite parse_lines_parsed. split; [by exists []|].
    intros (new & E & Hp). simpl in E. by subst. }
  destruct (parse_lines (readlines text) []) as [[|r rows]|e]; [done| |done].
  destruct (summarize_rows (r :: rows)) as (lines & -> & _); [done|].
  split; intros [=].
Qed.

Lemma no_match_iff_witness :
  let text :=
    "started" +:+ nl +:+ "ingest_metrics table=a mode=x" +:+ nl
    +:+ "op=y parse_ms=1 build_ms=2 send_ms=3 wait_lsn_ms=4 total_ms=10"
    +:+ nl in
  let fs := one_file "x.log" text in
  fs "x.log" = Some text ∧
  (main ["parse_ingest_metrics.py"; "x.log"] fs
     = (["No ingest_metrics lines found"], Exit 0)
   ↔ ¬ holds_record text).
Proof.
  intros text fs. split; [reflexivity|].
  apply (no_match_iff _ "x.log" [] fs text). reflexivity.
Defined.

(** ** Groups are independent *)

Lemma members_item k rows :
  members k rows ≠ [] → In (k, members k rows) (report_items rows).
Proof.
  intros Hne.
  assert (In k (map fst (report_items rows))) as Hk.
  { apply report_items_keys. destruct (members k rows) as [|r its] eqn:E;
      [done|].
    assert (In r (members k rows)) as Hr by (rewrite E; by left).
    apply filter_In in Hr as [Hr Hkey%key_eqb_eq]. by exists r. }
  apply in_map_iff in Hk as ([k' its] & <- & Hin). simpl.
  by destruct (report_items_members _ _ _ Hin) as [<- _].
Qed.

(** X11: the line printed for a group is a function of the records of that
    group alone: two lists of rows that hold the same records of a key, up
    to order, print the same line for it, whatever other records they
    hold. *)
Theorem group_line_local rows1 rows2 k :
  members k rows1 ≠ [] → members k rows1 ≡ₚ members k rows2 →
  ∃ line body1 body2,
    summarize rows1 =
      ("Averages by (table, mode, op):" :: header :: body1, Ok ()) ∧
    summarize rows2 =
      ("Averages by (table, mode, op):" :: header :: body2, Ok ()) ∧
    format_item k (members k rows1) = Ok line ∧
    In line body1 ∧ In line body2.
Proof.
  intros Hne Hperm.
  assert (members k rows2 ≠ []) as Hne2.
  { intros E. rewrite E in Hperm. symmetry in Hperm.
    by apply Permutation_nil in Hperm. }
  assert (rows1 ≠ []) as H1 by (intros ->; done).
  assert (rows2 ≠ []) as H2 by (intros ->; done).
  destruct (summarize_rows rows1 H1) as (body1 & Hs1 & Hall1).
  destruct (summarize_rows rows2 H2) as (body2 & Hs2 & Hall2).
  assert (∀ rows body,
    Forall2 (fun (item : group_key * list row) line =>
      format_item item.1 item.2 = Ok line) (report_items rows) body →
    members k rows ≠ [] →
    ∃ line, In line body ∧ format_item k (members k rows) = Ok line) as G.
  { intros rows body Hall Hm. apply members_item in Hm.
    induction Hall as [|item line items lines Hl _ IH]; [done|].
    destruct Hm as [->|Hm].
    - exists line. split; [by left|done].
    - destruct (IH Hm) as (line' & Hin' & Hl'). exists line'.
      split; [by right|done]. }
  destruct (G rows1 body1 Hall1 Hne) as (line1 & Hin1 & Hl1).
  destruct (G rows2 body2 Hall2 Hne2) as (line2 & Hin2 & Hl2).
  rewrite <- (format_item_perm k _ _ Hperm), Hl1 in Hl2.
  injection Hl2 as <-.
  by exists line1, body1, body2.
Qed.

Lemma group_line_local_witness :
  ∃ line body1 body2,
    summarize [row_a; row_b; row_a'] =
      ("Averages by (table, mode, op):" :: header :: body1, Ok ()) ∧
    summarize [row_b] =
      ("Averages by (table, mode, op):" :: header :: body2, Ok ()) ∧
    format_item ("b", "x", "y") (members ("b", "x", "y") [row_a; row_b; row_a'])
      = Ok line ∧
    In line body1 ∧ In line body2.
Proof.
  apply (group_line_local [row_a; row_b; row_a'] [row_b] ("b", "x", "y"));
    [by vm_compute|by vm_compute].
Defined.

(** ** Lines that hold no record *)

(** X12: a line in which no text of the whole schema occurs (the marker, the
    three keys, and the five timing fields in their order, each with at
    least one digit) yields no record, whatever else it holds: the loop goes
    on to the next line with the rows unchanged and without an error. *)
Theorem incomplete_line_skipped line rest rows :
  ¬ holds_record line →
  parse_lines (line :: rest) rows = parse_lines rest rows.
Proof. intros Hs%search_None_holds. simpl. by rewrite Hs. Qed.

Lemma incomplete_line_skipped_witness :
  parse_lines [short_line; bad_value_line] [] = Ok [].
Proof.
  rewrite (incomplete_line_skipped short_line [bad_value_line] []).
  - rewrite (incomplete_line_skipped bad_value_line [] []); [reflexivity|].
    apply search_None_holds. vm_compute. reflexivity.
  - apply search_None_holds. vm_compute. reflexivity.
Defined.
